(** * Evolution: a pixel population on a square board (src/main.js)

    A shallow embedding of the simulation engine of [src/main.js]: gene
    vectors and their encodings, the board and the pixel registry, the
    per-tick movement step, the duel and the offspring spawner.

    Numbers are modelled as [Z] (gene counts, hit points, coordinates) and
    [nat] (pixel ids, array indexes).  Pixel objects live in an object
    store and are addressed by reference, so that a mutation made through
    one alias is seen through every other one.  [Math.random()] is an
    explicit tape of samples consumed from left to right. *)

From Stdlib Require Import ZArith String Ascii List Lia Bool.
From stdpp Require Import base option list gmap.

Local Open Scope Z_scope.

(** ** Outcomes of running a piece of the program *)

Inductive error :=
  | TypeError      (* indexing [undefined]: [board[y][x]] with no row [y] *)
  | RangeError     (* [Array(n)] with [n] negative or above [2^32 - 1] *)
  | BadRef         (* a reference outside the object store (no JS counterpart) *)
  | NoEntropy      (* the tape of random samples is used up *)
  | OutOfFuel.     (* a loop was cut by the iteration budget of the model *)

Inductive outcome (A : Type) :=
  | Ret (a : A)
  | Err (e : error).
Arguments Ret {A} a.
Arguments Err {A} e.

Definition obind {A B} (m : outcome A) (k : A -> outcome B) : outcome B :=
  match m with
  | Ret a => k a
  | Err e => Err e
  end.

Declare Scope js_scope.
Delimit Scope js_scope with js.
Notation "'let!' x ':=' m 'in' k" := (obind m (fun x => k))
  (at level 10, x pattern, m at level 100, k at level 200) : js_scope.
Local Open Scope js_scope.

(** ** Gene vectors *)

Inductive GeneType := Attack | Defense | Speed | Hp.

#[global] Instance GeneType_eq_dec : EqDecision GeneType.
Proof. solve_decision. Defined.

(** [const GENE_TYPES = ["attack", "defense", "speed", "hp"]] *)
Definition GENE_TYPES : list GeneType := [Attack; Defense; Speed; Hp].

(** [const GENE_SYMBOL = { attack: "A", defense: "D", speed: "S", hp: "H" }] *)
Definition GENE_SYMBOL (t : GeneType) : string :=
  match t with
  | Attack => "A"
  | Defense => "D"
  | Speed => "S"
  | Hp => "H"
  end%string.

Module Genes.
(** A gene object [{ attack, defense, speed, hp }]. *)
Record t := mk { attack : Z; defense : Z; speed : Z; hp : Z }.

(** [genes[type]] *)
Definition get (g : t) (ty : GeneType) : Z :=
  match ty with
  | Attack => attack g
  | Defense => defense g
  | Speed => speed g
  | Hp => hp g
  end.

(** [genes[type] = v] *)
Definition set (g : t) (ty : GeneType) (v : Z) : t :=
  match ty with
  | Attack => mk v (defense g) (speed g) (hp g)
  | Defense => mk (attack g) v (speed g) (hp g)
  | Speed => mk (attack g) (defense g) v (hp g)
  | Hp => mk (attack g) (defense g) (speed g) v
  end.

(** The category sum [attack + defense + speed + hp]. *)
Definition total (g : t) : Z := attack g + defense g + speed g + hp g.

Definition nonneg (g : t) : Prop :=
  0 <= attack g /\ 0 <= defense g /\ 0 <= speed g /\ 0 <= hp g.
End Genes.

(** The first length that [Array(n)] refuses: [2^32]. *)
Definition arrayLimit : Z := 4294967296.

(** [Array(n).fill(v)]: [n] copies of [v]; a length that is negative or
    above [2^32 - 1] raises [RangeError]. *)
Definition array_fill {A} (n : Z) (v : A) : outcome (list A) :=
  if (n <? 0) || (arrayLimit <=? n) then Err RangeError
  else Ret (repeat v (Z.to_nat n)).

(** [xs.flatMap(f)] for a callback that may raise. *)
Fixpoint flatMap {A B} (f : A -> outcome (list B)) (xs : list A)
  : outcome (list B) :=
  match xs with
  | [] => Ret []
  | x :: rest =>
      let! ys := f x in
      let! zs := flatMap f rest in
      Ret (ys ++ zs)
  end.

(** [function genesToCode(genes)] *)
Definition genesToCode (genes : Genes.t) : outcome string :=
  let! parts :=
    flatMap (fun type => array_fill (Genes.get genes type) (GENE_SYMBOL type))
            GENE_TYPES in
  Ret (String.concat "" parts).

(** ** Gene codes *)

(** Number of occurrences of a character in a string. *)
Fixpoint occurrences (c : ascii) (s : string) : nat :=
  match s with
  | EmptyString => 0%nat
  | String c' s' => ((if Ascii.eqb c c' then 1 else 0) + occurrences c s')%nat
  end.

Definition symbol_char (t : GeneType) : ascii :=
  match t with
  | Attack => "A"
  | Defense => "D"
  | Speed => "S"
  | Hp => "H"
  end%char.

Definition occurrences_in (c : ascii) (parts : list string) : nat :=
  list_sum (map (occurrences c) parts).

(** ** Random samples *)

(** One value of [Math.random()]: the number [num / (num + gap + 1)], which
    lies in [0, 1).  Arithmetic on samples is exact. *)
Record sample := Sample { s_num : nat; s_gap : nat }.

Definition s_den (r : sample) : nat := (s_num r + s_gap r + 1)%nat.

(** [Math.floor(r * n)] *)
Definition floorMul (r : sample) (n : nat) : nat := (s_num r * n / s_den r)%nat.

(** [r < p / q] *)
Definition below (r : sample) (p q : nat) : bool :=
  (s_num r * q <? p * s_den r)%nat.

(** The values still to be returned by [Math.random()], in order. *)
Abbreviation tape := (list sample).

Definition Math_random (t : tape) : outcome (sample * tape) :=
  match t with
  | [] => Err NoEntropy
  | r :: t' => Ret (r, t')
  end.

(** [array[Math.floor(r * array.length)]]; an index outside the array reads
    [undefined], which no caller can use. *)
Definition choose {A} (array : list A) (r : sample) : outcome A :=
  match array !! floorMul r (length array) with
  | Some a => Ret a
  | None => Err TypeError
  end.

(** ** Configuration *)

(** [CONFIG.gridSize] *)
Definition gridSize : Z := 50.
(** [CONFIG.mutationChance = 0.2], as the fraction 1/5 *)
Definition mutationChance : nat * nat := (1%nat, 5%nat).

(** ** Random and mutated gene vectors *)

(** The loop of [randomGenes]: [n] unit increments, each to a category
    drawn from the tape. *)
Fixpoint distribute (n : nat) (genes : Genes.t) (t : tape)
  : outcome (Genes.t * tape) :=
  match n with
  | O => Ret (genes, t)
  | S n' =>
      let! (r, t1) := Math_random t in
      let! type := choose GENE_TYPES r in
      distribute n' (Genes.set genes type (Genes.get genes type + 1)) t1
  end.

(** [function randomGenes(total)] *)
Definition randomGenes (total : Z) (t : tape) : outcome (Genes.t * tape) :=
  let! (genes, t1) := distribute (Z.to_nat total) (Genes.mk 0 0 0 0) t in
  let genes := if Genes.hp genes =? 0 then Genes.set genes Hp 1 else genes in
  Ret (genes, t1).

(** The [do ... while (to === from && GENE_TYPES.length > 1)] loop of
    [mutateGenes]: one sample per round. *)
Fixpoint drawTo (from : GeneType) (t : tape) : outcome (GeneType * tape) :=
  match t with
  | [] => Err NoEntropy
  | r :: t' =>
      let! to := choose GENE_TYPES r in
      if bool_decide (to = from) && (1 <? length GENE_TYPES)%nat
      then drawTo from t'
      else Ret (to, t')
  end.

(** [GENE_TYPES.filter((type) => newGenes[type] > (type === "hp" ? 1 : 0))] *)
Definition fromTypes (newGenes : Genes.t) : list GeneType :=
  List.filter
    (fun type => Genes.get newGenes type
                 >? (if bool_decide (type = Hp) then 1 else 0))
    GENE_TYPES.

(** [function mutateGenes(genes)] *)
Definition mutateGenes (genes : Genes.t) (t : tape) : outcome (Genes.t * tape) :=
  let newGenes := genes in
  let! (r, t1) := Math_random t in
  if below r (fst mutationChance) (snd mutationChance) then
    let fromTypes := fromTypes newGenes in
    if (0 <? length fromTypes)%nat then
      let! (r2, t2) := Math_random t1 in
      let! from := choose fromTypes r2 in
      let! (to, t3) := drawTo from t2 in
      let newGenes := Genes.set newGenes from (Genes.get newGenes from - 1) in
      let newGenes := Genes.set newGenes to (Genes.get newGenes to + 1) in
      Ret (newGenes, t3)
    else Ret (newGenes, t1)
  else Ret (newGenes, t1).

(** [[array[i], array[j]] = [array[j], array[i]]] *)
Definition swap {A} (i j : nat) (array : list A) : list A :=
  match array !! i, array !! j with
  | Some ai, Some aj => <[j := ai]> (<[i := aj]> array)
  | _, _ => array
  end.

(** The loop of [shuffle], entered with [i] and running while [i > 0]. *)
Fixpoint shuffle_from {A} (i : nat) (array : list A) (t : tape)
  : outcome (list A * tape) :=
  match i with
  | O => Ret (array, t)
  | S i' =>
      let! (r, t1) := Math_random t in
      let j := floorMul r (i + 1) in
      shuffle_from i' (swap i j array) t1
  end.

(** [function shuffle(array)] *)
Definition shuffle {A} (array : list A) (t : tape) : outcome (list A * tape) :=
  shuffle_from (length array - 1) array t.

(** [function clamp(value, min, max)] *)
Definition clamp (value min max : Z) : Z := Z.max min (Z.min max value).

(** ** The board *)

(** What a board cell holds: [null] or a pixel id. *)
Inductive cell := Null | Id (n : nat).

#[global] Instance cell_eq_dec : EqDecision cell.
Proof. solve_decision. Defined.

(** A row is a JS array: a map from integer keys to cells, in which a
    missing key reads [undefined] and a write to a new key adds it. *)
Abbreviation row := (gmap Z cell).

(** [board]: the outer array of rows, never assigned to after creation. *)
Abbreviation Board := (list row).

(** Truthiness of what [board[y][x]] reads: [undefined], [null] and the
    number [0] are falsy, every other number is truthy. *)
Definition truthy (v : option cell) : bool :=
  match v with
  | Some (Id (S _)) => true
  | _ => false
  end.

(** [board[y][x]]; indexing a missing row raises [TypeError]. *)
Definition board_get (b : Board) (x y : Z) : outcome (option cell) :=
  if y <? 0 then Err TypeError else
  match b !! Z.to_nat y with
  | Some r => Ret (r !! x)
  | None => Err TypeError
  end.

(** [board[y][x] = v] *)
Definition board_set (b : Board) (x y : Z) (v : cell) : outcome Board :=
  if y <? 0 then Err TypeError else
  match b !! Z.to_nat y with
  | Some r => Ret (<[Z.to_nat y := <[x := v]> r]> b)
  | None => Err TypeError
  end.

(** [Array(n).fill(null)] as a row. *)
Fixpoint null_row (n : nat) : row :=
  match n with
  | O => ∅
  | S n' => <[Z.of_nat n' := Null]> (null_row n')
  end.

(** [Array.from({ length: gridSize }, () => Array(gridSize).fill(null))] *)
Definition empty_board : Board :=
  repeat (null_row (Z.to_nat gridSize)) (Z.to_nat gridSize).

(** ** Pixels, the object store and the registry *)

Module Pixel.
(** The fields of a [Pixel] object.  [color] is a display string read by
    the renderer only and is left out. *)
Record t := mk {
  id : nat;
  x : Z;
  y : Z;
  genes : Genes.t;
  populationId : Z;
  maxHp : Z;
  hp : Z;
  geneCode : string
}.

Definition set_pos (p : t) (nx ny : Z) : t :=
  mk (id p) nx ny (genes p) (populationId p) (maxHp p) (hp p) (geneCode p).

Definition set_hp (p : t) (v : Z) : t :=
  mk (id p) (x p) (y p) (genes p) (populationId p) (maxHp p) v (geneCode p).
End Pixel.

(** A reference to a [Pixel] object: its index in the object store. *)
Abbreviation ref := nat.

(** The registry [pixels]: a JS [Map] from pixel id to pixel object, kept in
    insertion order. *)
Abbreviation Registry := (list (nat * ref)).

(** [pixels.get(id)] *)
Fixpoint map_get (m : Registry) (k : nat) : option ref :=
  match m with
  | [] => None
  | (k', v) :: m' => if (k' =? k)%nat then Some v else map_get m' k
  end.

(** [pixels.has(id)] *)
Definition map_has (m : Registry) (k : nat) : bool :=
  match map_get m k with Some _ => true | None => false end.

(** [pixels.set(id, pixel)]: an existing key keeps its place. *)
Fixpoint map_set (m : Registry) (k : nat) (v : ref) : Registry :=
  match m with
  | [] => [(k, v)]
  | (k', v') :: m' =>
      if (k' =? k)%nat then (k, v) :: m' else (k', v') :: map_set m' k v
  end.

(** [pixels.delete(id)] *)
Fixpoint map_delete (m : Registry) (k : nat) : Registry :=
  match m with
  | [] => []
  | (k', v') :: m' =>
      if (k' =? k)%nat then map_delete m' k else (k', v') :: map_delete m' k
  end.

(** The mutable globals of the program. *)
Record World := mkWorld {
  board : Board;
  heap : list Pixel.t;          (* every Pixel object constructed so far *)
  pixels : Registry;
  pixelIdCounter : nat;
  combatLogs : list string
}.

Definition with_board (w : World) (b : Board) : World :=
  mkWorld b (heap w) (pixels w) (pixelIdCounter w) (combatLogs w).
Definition with_heap (w : World) (h : list Pixel.t) : World :=
  mkWorld (board w) h (pixels w) (pixelIdCounter w) (combatLogs w).
Definition with_pixels (w : World) (m : Registry) : World :=
  mkWorld (board w) (heap w) m (pixelIdCounter w) (combatLogs w).
Definition with_counter (w : World) (n : nat) : World :=
  mkWorld (board w) (heap w) (pixels w) n (combatLogs w).
Definition with_logs (w : World) (l : list string) : World :=
  mkWorld (board w) (heap w) (pixels w) (pixelIdCounter w) l.

(** The state before [setup()]. *)
Definition initial_world : World := mkWorld empty_board [] [] 0 [].

(** Reading an object through a reference. *)
Definition deref (h : list Pixel.t) (r : ref) : outcome Pixel.t :=
  match h !! r with
  | Some p => Ret p
  | None => Err BadRef
  end.

(** Writing an object through a reference. *)
Definition store (h : list Pixel.t) (r : ref) (p : Pixel.t)
  : outcome (list Pixel.t) :=
  match h !! r with
  | Some _ => Ret (<[r := p]> h)
  | None => Err BadRef
  end.

(** [new Pixel(x, y, genes, populationId)] *)
Definition newPixel (x y : Z) (genes : Genes.t) (populationId : Z) (w : World)
  : outcome (ref * World) :=
  let id := pixelIdCounter w in
  let w := with_counter w (S id) in
  let maxHp := Z.max 1 (Genes.hp genes) in
  let hp := maxHp in
  let! geneCode := genesToCode genes in
  let this := Pixel.mk id x y genes populationId maxHp hp geneCode in
  Ret (length (heap w), with_heap w (heap w ++ [this])).

(** [function placePixel(pixel)] *)
Definition placePixel (pixel : ref) (w : World) : outcome (bool * World) :=
  let! p := deref (heap w) pixel in
  let! c := board_get (board w) (Pixel.x p) (Pixel.y p) in
  if truthy c then Ret (false, w) else
  let! b := board_set (board w) (Pixel.x p) (Pixel.y p) (Id (Pixel.id p)) in
  let w := with_board w b in
  let w := with_pixels w (map_set (pixels w) (Pixel.id p) pixel) in
  Ret (true, w).

(** [function removePixel(pixel)] *)
Definition removePixel (pixel : ref) (w : World) : outcome World :=
  let! p := deref (heap w) pixel in
  let! b := board_set (board w) (Pixel.x p) (Pixel.y p) Null in
  let w := with_board w b in
  let w := with_pixels w (map_delete (pixels w) (Pixel.id p)) in
  Ret w.

(** [const pixel = new Pixel(x, y, { ...genes }, populationId);
    placePixel(pixel);] as in the seeding loop of [initialisePopulations]. *)
Definition seedPixel (x y : Z) (genes : Genes.t) (populationId : Z) (w : World)
  : outcome World :=
  let! (pixel, w) := newPixel x y genes populationId w in
  let! (_, w) := placePixel pixel w in
  Ret w.

(** [CONFIG.populations], [CONFIG.pixelsPerPopulation] and
    [CONFIG.genesPerPixel] *)
Definition populations : nat := 6.
Definition pixelsPerPopulation : nat := 100.
Definition genesPerPixel : Z := 8.

(** The inner loop of [initialisePopulations], with [n] pixels to go. *)
Fixpoint seedPopulation (n : nat) (genes : Genes.t) (baseX baseY : Z)
    (populationId : Z) (w : World) (t : tape) : outcome (World * tape) :=
  match n with
  | O => Ret (w, t)
  | S n' =>
      let! (r1, t) := Math_random t in
      let offsetX := Z.of_nat (floorMul r1 5) - 2 in
      let! (r2, t) := Math_random t in
      let offsetY := Z.of_nat (floorMul r2 5) - 2 in
      let x := clamp (baseX + offsetX) 0 (gridSize - 1) in
      let y := clamp (baseY + offsetY) 0 (gridSize - 1) in
      let! w := seedPixel x y genes populationId w in
      seedPopulation n' genes baseX baseY populationId w t
  end.

(** The outer loop of [initialisePopulations], with [n] populations to go. *)
Fixpoint seedPopulations (n : nat) (populationId : Z) (w : World) (t : tape)
  : outcome (World * tape) :=
  match n with
  | O => Ret (w, t)
  | S n' =>
      let! (genes, t) := randomGenes genesPerPixel t in
      let! (r1, t) := Math_random t in
      let baseX := Z.of_nat (floorMul r1 (Z.to_nat gridSize)) in
      let! (r2, t) := Math_random t in
      let baseY := Z.of_nat (floorMul r2 (Z.to_nat gridSize)) in
      let! (w, t) :=
        seedPopulation pixelsPerPopulation genes baseX baseY populationId w t in
      seedPopulations n' (populationId + 1) w t
  end.

(** [function initialisePopulations()] *)
Definition initialisePopulations (w : World) (t : tape) : outcome (World * tape) :=
  seedPopulations populations 0 w t.

(** [code || "?"]: the empty string is falsy. *)
Definition or_unknown (code : string) : string :=
  match code with
  | EmptyString => "?"
  | _ => code
  end%string.

(** [function logCombat(winner, loser)]; [renderLogs()] only rewrites the
    page and is left out. *)
Definition logCombat (winner loser : ref) (w : World) : outcome World :=
  let! pw := deref (heap w) winner in
  let! pl := deref (heap w) loser in
  let entry := (or_unknown (Pixel.geneCode pw) ++ " kill "
                ++ or_unknown (Pixel.geneCode pl))%string in
  let logs := combatLogs w ++ [entry] in
  let logs := if (20 <? length logs)%nat
              then drop (length logs - 20) logs else logs in
  Ret (with_logs w logs).

(** ** Reproduction *)

(** The candidate offsets built by the two nested loops of
    [createOffspring], as pairs [(dx, dy)] in the order they are pushed. *)
Definition offsets : list (Z * Z) :=
  flat_map (fun dy =>
    flat_map (fun dx =>
      if Z.abs dx + Z.abs dy =? 0 then []
      else if Z.abs dx + Z.abs dy >? 2 then []
      else [(dx, dy)])
      [-2; -1; 0; 1; 2])
    [-2; -1; 0; 1; 2].

(** The loop [for (const { dx, dy } of offsets)] of [createOffspring]. *)
Fixpoint tryOffsets (offsets : list (Z * Z)) (parent : ref)
    (w : World) (t : tape) : outcome (World * tape) :=
  match offsets with
  | [] => Ret (w, t)
  | (dx, dy) :: rest =>
      let! p := deref (heap w) parent in
      let nx := Pixel.x p + dx in
      let ny := Pixel.y p + dy in
      if (nx <? 0) || (ny <? 0) || (nx >=? gridSize) || (ny >=? gridSize)
      then tryOffsets rest parent w t
      else
        let! c := board_get (board w) nx ny in
        if truthy c then tryOffsets rest parent w t
        else
          let! (genes, t1) := mutateGenes (Pixel.genes p) t in
          let! (child, w1) := newPixel nx ny genes (Pixel.populationId p) w in
          let! (_, w2) := placePixel child w1 in
          Ret (w2, t1)
  end.

(** [function createOffspring(parent)] *)
Definition createOffspring (parent : ref) (w : World) (t : tape)
  : outcome (World * tape) :=
  let! (shuffled, t1) := shuffle offsets t in
  tryOffsets shuffled parent w t1.

(** ** Combat *)

(** One executed turn of a duel: who struck, who was struck, the damage.
    The source keeps no such record; the model returns it so that the order
    and the number of turns can be stated. *)
Record strike := Strike { striker : ref; struck : ref; damage : Z }.

(** The [while (attacker.hp > 0 && defender.hp > 0)] loop of
    [resolveCombat], entered with the current [turn] and [opponent]. *)
Fixpoint combatLoop (fuel : nat) (attacker defender turn opponent : ref)
    (h : list Pixel.t) : outcome (list Pixel.t * list strike) :=
  match fuel with
  | O => Err OutOfFuel
  | S fuel' =>
      let! pa := deref h attacker in
      let! pd := deref h defender in
      if (0 <? Pixel.hp pa) && (0 <? Pixel.hp pd) then
        let! pt := deref h turn in
        let! po := deref h opponent in
        let damage :=
          Z.max 1 (Genes.attack (Pixel.genes pt)
                   - Genes.defense (Pixel.genes po)) in
        let po' := Pixel.set_hp po (Pixel.hp po - damage) in
        let! h' := store h opponent po' in
        if Pixel.hp po' <=? 0 then Ret (h', [Strike turn opponent damage])
        else
          let! (h'', later) :=
            combatLoop fuel' attacker defender opponent turn h' in
          Ret (h'', Strike turn opponent damage :: later)
      else Ret (h, [])
  end.

(** Who acts first: lines 179-183 of [resolveCombat]. *)
Definition firstOf (attacker defender : ref) (pa pd : Pixel.t) : ref :=
  if Genes.speed (Pixel.genes pa) >? Genes.speed (Pixel.genes pd)
  then attacker
  else if Genes.speed (Pixel.genes pa) <? Genes.speed (Pixel.genes pd)
       then defender
       else attacker.

(** The duel of [resolveCombat] (lines 179-195): turn order, then the loop.
    The loop makes at most [attacker.hp + defender.hp] turns, which is the
    budget given to it. *)
Definition duel (attacker defender : ref) (h : list Pixel.t)
  : outcome (list Pixel.t * list strike) :=
  let! pa := deref h attacker in
  let! pd := deref h defender in
  let first := firstOf attacker defender pa pd in
  let second := if (first =? attacker)%nat then defender else attacker in
  let fuel := S (Z.to_nat (Pixel.hp pa) + Z.to_nat (Pixel.hp pd)) in
  combatLoop fuel attacker defender first second h.

(** [function resolveCombat(attacker, defender)] *)
Definition resolveCombat (attacker defender : ref) (w : World) (t : tape)
  : outcome (ref * World * tape) :=
  let! (h, _) := duel attacker defender (heap w) in
  let w := with_heap w h in
  let! pa := deref (heap w) attacker in
  let winner := if 0 <? Pixel.hp pa then attacker else defender in
  let loser := if (winner =? attacker)%nat then defender else attacker in
  let! w := logCombat winner loser w in
  let! pl := deref (heap w) loser in
  let! w := if Pixel.hp pl <=? 0 then removePixel loser w else Ret w in
  let! pw := deref (heap w) winner in
  let! h := store (heap w) winner (Pixel.set_hp pw (Pixel.maxHp pw)) in
  let w := with_heap w h in
  let! (w, t) := createOffspring winner w t in
  Ret (winner, w, t).

(** ** Movement *)

(** [const directions], as pairs [(dx, dy)]. *)
Definition directions : list (Z * Z) :=
  [(1, 0); (-1, 0); (0, 1); (0, -1); (1, 1); (1, -1); (-1, 1); (-1, -1)].

(** The four statements that move [pixel] to [(nx, ny)] (lines 152-155 and
    167-170 of [stepSimulation]). *)
Definition moveTo (pixel : ref) (nx ny : Z) (w : World) : outcome World :=
  let! p := deref (heap w) pixel in
  let! b := board_set (board w) (Pixel.x p) (Pixel.y p) Null in
  let! h := store (heap w) pixel (Pixel.set_pos p nx ny) in
  let! b := board_set b nx ny (Id (Pixel.id p)) in
  Ret (with_heap (with_board w b) h).

(** How an iteration of the sub-step loop ends. *)
Inductive flow := Continue | Break.

(** One iteration of the loop [for (let step = 0; step < steps; step += 1)].
    [resolveCombat] always returns an object, so [if (!winner) break] never
    fires and has no branch here. *)
Definition subStep (pixel : ref) (w : World) (t : tape)
  : outcome (flow * World * tape) :=
  let! (r, t) := Math_random t in
  let! dir := choose directions r in
  let! p := deref (heap w) pixel in
  let nx := clamp (Pixel.x p + fst dir) 0 (gridSize - 1) in
  let ny := clamp (Pixel.y p + snd dir) 0 (gridSize - 1) in
  if (nx =? Pixel.x p) && (ny =? Pixel.y p) then Ret (Continue, w, t)
  else
    let! occupantId := board_get (board w) nx ny in
    if negb (truthy occupantId) then
      let! w := moveTo pixel nx ny w in
      Ret (Continue, w, t)
    else
      match occupantId with
      | Some (Id occupant) =>
          if negb (occupant =? Pixel.id p)%nat then
            match map_get (pixels w) occupant with
            | None => Ret (Continue, w, t)
            | Some opponent =>
                let! po := deref (heap w) opponent in
                if String.eqb (Pixel.geneCode p) (Pixel.geneCode po)
                then Ret (Continue, w, t)
                else
                  let! (winner, w, t) := resolveCombat pixel opponent w t in
                  let! pw := deref (heap w) winner in
                  let! p := deref (heap w) pixel in
                  if (Pixel.id pw =? Pixel.id p)%nat then
                    let! w := moveTo pixel nx ny w in
                    Ret (Break, w, t)
                  else Ret (Break, w, t)
            end
          else Ret (Continue, w, t)
      | _ => Ret (Continue, w, t)
      end.

(** The sub-step loop of one pixel, with [n] iterations left. *)
Fixpoint subSteps (n : nat) (pixel : ref) (w : World) (t : tape)
  : outcome (World * tape) :=
  match n with
  | O => Ret (w, t)
  | S n' =>
      let! (f, w, t) := subStep pixel w t in
      match f with
      | Continue => subSteps n' pixel w t
      | Break => Ret (w, t)
      end
  end.

(** The body of [for (const pixel of currentPixels)]. *)
Definition pixelTurn (pixel : ref) (w : World) (t : tape)
  : outcome (World * tape) :=
  let! p := deref (heap w) pixel in
  if negb (map_has (pixels w) (Pixel.id p)) then Ret (w, t)
  else
    let steps := Z.max 1 (Genes.speed (Pixel.genes p)) in
    subSteps (Z.to_nat steps) pixel w t.

Fixpoint pixelTurns (currentPixels : list ref) (w : World) (t : tape)
  : outcome (World * tape) :=
  match currentPixels with
  | [] => Ret (w, t)
  | pixel :: rest =>
      let! (w, t) := pixelTurn pixel w t in
      pixelTurns rest w t
  end.

(** [function stepSimulation()] *)
Definition stepSimulation (w : World) (t : tape) : outcome (World * tape) :=
  let currentPixels := map snd (pixels w) in
  let! (currentPixels, t) := shuffle currentPixels t in
  pixelTurns currentPixels w t.

(** ** Vocabulary of the statements *)

(** The category a sample selects in [GENE_TYPES]. *)
Definition category (r : sample) : nat := floorMul r (length GENE_TYPES).

(** A tape on which the [do ... while] loop of [mutateGenes] is sure to
    stop: it holds two samples that select different categories. *)
Definition varied (t : tape) : Prop :=
  exists r1 r2, r1 ∈ t /\ r2 ∈ t /\ category r1 <> category r2.

(** The damage of one turn, as line 189 computes it. *)
Definition damageOf (pt po : Pixel.t) : Z :=
  Z.max 1 (Genes.attack (Pixel.genes pt) - Genes.defense (Pixel.genes po)).

(** The board has its [gridSize] rows. *)
Definition has_rows (b : Board) : Prop := length b = Z.to_nat gridSize.

(** The recorded position of a pixel is a cell of the board. *)
Definition in_bounds (p : Pixel.t) : Prop :=
  0 <= Pixel.x p < gridSize /\ 0 <= Pixel.y p < gridSize.

(** The id of [p] is in no cell other than the one recorded on [p]. *)
Definition only_at (b : Board) (p : Pixel.t) : Prop :=
  forall x y, board_get b x y = Ret (Some (Id (Pixel.id p))) ->
              x = Pixel.x p /\ y = Pixel.y p.

(** What [createOffspring] leaves alone: every existing object, every
    registry entry and every board entry whose id is not the one the new
    pixel takes. *)
Definition preserves (w w' : World) : Prop :=
  (forall r p, heap w !! r = Some p -> heap w' !! r = Some p)
  /\ (forall k, k <> pixelIdCounter w ->
        map_get (pixels w') k = map_get (pixels w) k)
  /\ (forall x y i, i <> pixelIdCounter w ->
        board_get (board w') x y = Ret (Some (Id i)) ->
        board_get (board w) x y = Ret (Some (Id i))).

(** What is left of [resolveCombat] once the duel has ended with the loser
    at [hp <= 0]: the loser (object [pl]) is taken off the board and out of
    the registry, the winner (object [pw]) is healed in the store [h], and
    [createOffspring] runs. *)
Definition settle (winner : ref) (pw pl : Pixel.t) (h : list Pixel.t)
    (logs : list string) (w : World) (t : tape) : outcome (ref * World * tape) :=
  let! b := board_set (board w) (Pixel.x pl) (Pixel.y pl) Null in
  let w4 := mkWorld b (<[winner := Pixel.set_hp pw (Pixel.maxHp pw)]> h)
              (map_delete (pixels w) (Pixel.id pl))
              (pixelIdCounter w) logs in
  let! (w5, t') := createOffspring winner w4 t in
  Ret (winner, w5, t').

(** ** Occupancy consistency *)

(** Every registered pixel stands, on the board, at the cell recorded on
    its object, and every id on the board is the id of a registered pixel
    recorded at that cell. *)
Definition occupancy_consistent (w : World) : Prop :=
  (forall k r, map_get (pixels w) k = Some r ->
     exists p, heap w !! r = Some p /\ Pixel.id p = k
               /\ board_get (board w) (Pixel.x p) (Pixel.y p)
                  = Ret (Some (Id k)))
  /\ (forall x y k, board_get (board w) x y = Ret (Some (Id k)) ->
        exists r p, map_get (pixels w) k = Some r /\ heap w !! r = Some p
                    /\ Pixel.x p = x /\ Pixel.y p = y).

(** The same, as a check that runs. *)
Definition entry_ok (w : World) (e : nat * ref) : bool :=
  match heap w !! e.2 with
  | Some p =>
      (Pixel.id p =? e.1)%nat
      && match board_get (board w) (Pixel.x p) (Pixel.y p) with
         | Ret (Some (Id k)) => (k =? e.1)%nat
         | _ => false
         end
  | None => false
  end.

Definition cell_ok (w : World) (y : nat) (xc : Z * cell) : bool :=
  match xc.2 with
  | Null => true
  | Id k =>
      match map_get (pixels w) k with
      | Some r =>
          match heap w !! r with
          | Some p => (Pixel.x p =? xc.1) && (Pixel.y p =? Z.of_nat y)
          | None => false
          end
      | None => false
      end
  end.

Fixpoint rows_ok (w : World) (y : nat) (rows : list row) : bool :=
  match rows with
  | [] => true
  | r :: rest => forallb (cell_ok w y) (map_to_list r) && rows_ok w (S y) rest
  end.

Definition occupancy_check (w : World) : bool :=
  forallb (entry_ok w) (pixels w) && rows_ok w 0 (board w).

(** ** Worlds and tapes used in the examples *)

(** The value 0 of [Math.random()], the value 1/2, the value 1/4 and the
    value 1/8. *)
Definition zero : sample := Sample 0 0.
Definition half : sample := Sample 1 0.
Definition quarter : sample := Sample 1 2.
Definition eighth : sample := Sample 1 6.

(** Seeding a list of pixels [(x, y, genes, populationId)] in order. *)
Fixpoint seeded (pixels : list (Z * Z * Genes.t * Z)) (w : World)
  : outcome World :=
  match pixels with
  | [] => Ret w
  | (x, y, genes, populationId) :: rest =>
      let! w := seedPixel x y genes populationId w in
      seeded rest w
  end.

Definition world_of (o : outcome World) : World :=
  match o with
  | Ret w => w
  | Err _ => initial_world
  end.

(** Two gene vectors of [genesPerPixel = 8] units each. *)
Definition strong : Genes.t := Genes.mk 6 0 1 1.
Definition weak : Genes.t := Genes.mk 3 4 0 1.

(** Pixel 0 in the far corner, pixel 1 (strong) at (0, 0) and pixel 2
    (weak) next to it at (1, 0). *)
Definition arena_pixels : list (Z * Z * Genes.t * Z) :=
  [(49, 49, weak, 0); (0, 0, strong, 1); (1, 0, weak, 0)].
Definition arena : World := world_of (seeded arena_pixels initial_world).

(** The tape of one tick on [arena]: the shuffle of the snapshot (2
    samples), the direction of pixel 1, the shuffle of the 12 offsets (11
    samples), the mutation draw of the offspring, the direction of pixel 0. *)
Definition arena_tape : tape := repeat zero 14 ++ [half; half].

(** [arena] after that tick. *)
Definition arena_after : World :=
  match stepSimulation arena arena_tape with
  | Ret (w, _) => w
  | Err _ => initial_world
  end.


(** Pixel 0 alone at (0, 0), and the state after a second pixel has been
    constructed for the same cell. *)
Definition lone : World := world_of (seeded [(0, 0, weak, 0)] initial_world).
Definition lone_visited : World :=
  match newPixel 0 0 strong 1 lone with
  | Ret (_, w) => w
  | Err _ => initial_world
  end.
Definition lone_overwritten : World :=
  match placePixel 1 lone_visited with
  | Ret (_, w) => w
  | Err _ => initial_world
  end.

(** Two pixels with the same genes side by side: pixel 0 at (0, 0) and
    pixel 1 at (1, 0). *)
Definition kin : World :=
  world_of (seeded [(0, 0, weak, 0); (1, 0, weak, 0)] initial_world).
Definition kin_after : World :=
  match subStep 1 kin [eighth] with
  | Ret (_, w, _) => w
  | Err _ => initial_world
  end.

(** Pixel 1 in the corner (0, 0) with every candidate cell that lies on the
    board taken: (1, 0) by pixel 0, the four others by pixels 2 to 5. *)
Definition corner : World :=
  world_of (seeded [(1, 0, weak, 0); (0, 0, strong, 1); (2, 0, weak, 0);
                    (0, 1, weak, 0); (0, 2, weak, 0); (1, 1, weak, 0)]
              initial_world).
Definition corner_tape : tape := repeat zero 11 ++ [half].
Definition corner_after : World :=
  match createOffspring 1 corner corner_tape with
  | Ret (w, _) => w
  | Err _ => initial_world
  end.


(** Two evenly matched pixels, attack 1 against defense 0: pixel 0 has
    3 hp and is the faster one, pixel 1 has 4 hp. *)
Definition evenly_matched : World :=
  world_of (seeded [(0, 0, Genes.mk 1 0 4 3, 0); (1, 0, Genes.mk 1 0 3 4, 1)]
              initial_world).

(** The objects of pixels 1 and 2 in [arena]. *)
Definition arena_strong : Pixel.t := Pixel.mk 1 0 0 strong 1 1 1 "AAAAAASH".
Definition arena_weak : Pixel.t := Pixel.mk 2 1 0 weak 0 1 1 "AAADDDDH".

(** A tape for one combat on [arena]: the shuffle of the offsets, then a
    mutation that redraws its destination once. *)
Definition combat_tape : tape := repeat zero 14 ++ [quarter].

(** [arena] after pixel 1 has fought pixel 2 on that tape. *)
Definition arena_fought : World :=
  match resolveCombat 1 2 arena combat_tape with
  | Ret (_, w, _) => w
  | Err _ => initial_world
  end.

(** A candidate offset that [createOffspring] passes over: the cell is off
    the board or its content is truthy. *)
Definition passed_over (w : World) (p : Pixel.t) (o : Z * Z) : Prop :=
  let nx := Pixel.x p + o.1 in
  let ny := Pixel.y p + o.2 in
  (nx <? 0) || (ny <? 0) || (nx >=? gridSize) || (ny >=? gridSize) = true
  \/ exists c, board_get (board w) nx ny = Ret c /\ truthy c = true.

(** The world after two rounds of the seeding loop with every sample 0. *)
Definition twice_seeded : World :=
  match seedPopulation 2 weak 0 0 0 initial_world (repeat zero 4) with
  | Ret (w, _) => w
  | Err _ => initial_world
  end.

(** ** Tidy worlds *)

(** Two versions of an object with the same id and the same position. *)
Definition same_place (p p' : Pixel.t) : Prop :=
  Pixel.id p = Pixel.id p' /\ Pixel.x p = Pixel.x p' /\ Pixel.y p = Pixel.y p'.

(** The part of occupancy consistency that every run keeps: the id counter
    is the number of objects constructed, the object with reference [r] has
    id [r], and an id on the board is at the cell recorded on its object. *)
Definition tidy (w : World) : Prop :=
  pixelIdCounter w = length (heap w)
  /\ (forall r p, heap w !! r = Some p -> Pixel.id p = r)
  /\ (forall x y k, board_get (board w) x y = Ret (Some (Id k)) ->
        exists p, heap w !! k = Some p /\ Pixel.x p = x /\ Pixel.y p = y).

(** ** Further vocabulary *)

(** How many samples of a tape select the category [ty]. *)
Definition selections (ty : GeneType) (t : tape) : nat :=
  length (List.filter
            (fun r => bool_decide (GENE_TYPES !! category r = Some ty)) t).

(** The damage a pixel received over a list of strikes. *)
Fixpoint received (r : ref) (strikes : list strike) : Z :=
  match strikes with
  | [] => 0
  | s :: rest =>
      (if (struck s =? r)%nat then damage s else 0) + received r rest
  end.

(** A list of strikes in which [turn] and [opponent] take turns, [turn]
    first, each with its own fixed damage. *)
Fixpoint volleys (turn opponent : ref) (dmg dmg' : Z) (strikes : list strike)
  : Prop :=
  match strikes with
  | [] => True
  | s :: rest => s = Strike turn opponent dmg /\ volleys opponent turn dmg' dmg rest
  end.

(** ** Healthy worlds *)

(** A run that returns a value satisfying [P], or stops for lack of random
    samples; it raises no error and never exhausts a loop budget. *)
Definition safe {A} (P : A -> Prop) (o : outcome A) : Prop :=
  match o with
  | Ret a => P a
  | Err e => e = NoEntropy
  end.

(** What holds of the world between any two calls of the engine: it is tidy
    and the board has its rows; every object stands inside the board, has
    non-negative gene counts and [maxHp >= 1]; every registry entry maps an
    id to the object of that id, which has full hp; every reference kept in
    the registry is an object; and every id on the board is registered. *)
Definition healthy (w : World) : Prop :=
  tidy w /\ has_rows (board w)
  /\ (forall r p, heap w !! r = Some p ->
        in_bounds p /\ Genes.nonneg (Pixel.genes p) /\ 1 <= Pixel.maxHp p)
  /\ (forall k r, map_get (pixels w) k = Some r ->
        r = k /\ exists p, heap w !! r = Some p /\ Pixel.hp p = Pixel.maxHp p)
  /\ Forall (fun e : nat * ref => (e.2 < length (heap w))%nat) (pixels w)
  /\ (forall x y k, board_get (board w) x y = Ret (Some (Id k)) ->
        map_get (pixels w) k = Some k).

(** Every object and every registry entry of [w] is still there in [w']. *)
Definition grows (w w' : World) : Prop :=
  (forall r q, heap w !! r = Some q -> heap w' !! r = Some q)
  /\ (forall k r, map_get (pixels w) k = Some r -> map_get (pixels w') k = Some r).

(** The check behind [passed_over], as a function that runs. *)
Definition passed_overb (w : World) (p : Pixel.t) (o : Z * Z) : bool :=
  let nx := Pixel.x p + o.1 in
  let ny := Pixel.y p + o.2 in
  (nx <? 0) || (ny <? 0) || (nx >=? gridSize) || (ny >=? gridSize)
  || match board_get (board w) nx ny with
     | Ret c => truthy c
     | Err _ => false
     end.

(** Pixel 0 in the far corner, pixel 1 in the corner (0, 0), and pixels 2
    to 6 on the five candidate cells around it that lie on the board. *)
Definition walled : World :=
  world_of (seeded [(49, 49, weak, 0); (0, 0, strong, 1); (1, 0, weak, 0);
                    (2, 0, weak, 0); (0, 1, weak, 0); (0, 2, weak, 0);
                    (1, 1, weak, 0)]
              initial_world).

(** Two versions of an object that differ at most in position and hp: the
    fields that the constructor sets and nothing else assigns. *)
Definition same_core (p p' : Pixel.t) : Prop :=
  Pixel.id p = Pixel.id p' /\ Pixel.genes p = Pixel.genes p'
  /\ Pixel.populationId p = Pixel.populationId p'
  /\ Pixel.maxHp p = Pixel.maxHp p' /\ Pixel.geneCode p = Pixel.geneCode p'.

(** Every object of [h] is still in [h'], up to position and hp. *)
Definition persists (h h' : list Pixel.t) : Prop :=
  forall r p, h !! r = Some p -> exists p', h' !! r = Some p' /\ same_core p p'.

(** ** Coded worlds *)

(** Every object carries the code of its own genes, as its constructor
    computed it, and has fewer than [2^32] gene units in all. *)
Definition coded_heap (h : list Pixel.t) : Prop :=
  forall r p, h !! r = Some p ->
    genesToCode (Pixel.genes p) = Ret (Pixel.geneCode p)
    /\ Genes.total (Pixel.genes p) < arrayLimit.

Definition coded (w : World) : Prop := coded_heap (heap w).

(** * Properties *)

Lemma occurrences_append c s1 s2 :
  occurrences c (s1 ++ s2)%string = (occurrences c s1 + occurrences c s2)%nat.
Proof. induction s1 as [|c' s1 IH]; simpl; [reflexivity|]. rewrite IH. lia. Qed.

Lemma occurrences_concat c parts :
  occurrences c (String.concat "" parts) = occurrences_in c parts.
Proof.
  unfold occurrences_in. induction parts as [|p parts IH]; [reflexivity|].
  destruct parts as [|q parts].
  - simpl. lia.
  - change (String.concat "" (p :: q :: parts))
      with (p ++ "" ++ String.concat "" (q :: parts))%string.
    rewrite !occurrences_append, IH. reflexivity.
Qed.

Lemma occurrences_in_app c l1 l2 :
  occurrences_in c (l1 ++ l2) = (occurrences_in c l1 + occurrences_in c l2)%nat.
Proof. unfold occurrences_in. rewrite map_app, list_sum_app. reflexivity. Qed.

Lemma occurrences_in_repeat c t n :
  occurrences_in c (repeat (GENE_SYMBOL t) n)
  = if Ascii.eqb c (symbol_char t) then n else 0%nat.
Proof.
  unfold occurrences_in. induction n as [|n IH]; simpl.
  - destruct (Ascii.eqb c (symbol_char t)); reflexivity.
  - rewrite IH. destruct t; simpl; destruct (Ascii.eqb c _); reflexivity.
Qed.

Lemma array_fill_returns {A} (n : Z) (v : A) :
  0 <= n < arrayLimit -> array_fill n v = Ret (repeat v (Z.to_nat n)).
Proof.
  intros H. unfold array_fill.
  destruct (Z.ltb_spec n 0); [lia|]. destruct (Z.leb_spec arrayLimit n); [lia|].
  reflexivity.
Qed.

Lemma array_fill_raises {A} (n : Z) (v : A) :
  n < 0 \/ arrayLimit <= n -> array_fill n v = Err RangeError.
Proof.
  intros H. unfold array_fill.
  destruct (Z.ltb_spec n 0); [reflexivity|].
  destruct (Z.leb_spec arrayLimit n); [reflexivity|lia].
Qed.

Lemma array_fill_cases {A} (n : Z) (v : A) :
  (0 <= n < arrayLimit /\ array_fill n v = Ret (repeat v (Z.to_nat n)))
  \/ ((n < 0 \/ arrayLimit <= n) /\ array_fill n v = Err RangeError).
Proof.
  destruct (Z.ltb_spec n 0); [right; split; [|apply array_fill_raises]; auto|].
  destruct (Z.leb_spec arrayLimit n);
    [right; split; [|apply array_fill_raises]; auto|].
  left. split; [lia|]. apply array_fill_returns. lia.
Qed.

Lemma genesToCode_unfold (g : Genes.t) :
  genesToCode g
  = (let! a := array_fill (Genes.attack g) "A"%string in
     let! zs :=
       (let! d := array_fill (Genes.defense g) "D"%string in
        let! zs :=
          (let! s := array_fill (Genes.speed g) "S"%string in
           let! zs :=
             (let! h := array_fill (Genes.hp g) "H"%string in Ret (h ++ [])) in
           Ret (s ++ zs)) in
        Ret (d ++ zs)) in
     Ret (String.concat "" (a ++ zs))).
Proof.
  unfold genesToCode, GENE_TYPES. cbn [flatMap Genes.get GENE_SYMBOL].
  destruct (array_fill (Genes.attack g) "A"%string); [|reflexivity].
  cbn [obind]. destruct (array_fill (Genes.defense g) "D"%string); [|reflexivity].
  cbn [obind]. destruct (array_fill (Genes.speed g) "S"%string); [|reflexivity].
  cbn [obind]. destruct (array_fill (Genes.hp g) "H"%string); reflexivity.
Qed.

(** The code of a gene vector whose counts are lengths that [Array]
    accepts, and what it counts. *)
Lemma genesToCode_returns g :
  Genes.nonneg g -> (forall ty, Genes.get g ty < arrayLimit) ->
  exists s, genesToCode g = Ret s /\
    forall ty, Z.of_nat (occurrences (symbol_char ty) s) = Genes.get g ty.
Proof.
  intros (Ha & Hd & Hs & Hh) Hsmall.
  pose proof (Hsmall Attack) as La. pose proof (Hsmall Defense) as Ld.
  pose proof (Hsmall Speed) as Ls. pose proof (Hsmall Hp) as Lh.
  cbn [Genes.get] in La, Ld, Ls, Lh.
  rewrite genesToCode_unfold.
  rewrite !array_fill_returns by lia. cbn [obind].
  eexists; split; [reflexivity|].
  intros ty. rewrite occurrences_concat, !occurrences_in_app.
  change "A"%string with (GENE_SYMBOL Attack).
  change "D"%string with (GENE_SYMBOL Defense).
  change "S"%string with (GENE_SYMBOL Speed).
  change "H"%string with (GENE_SYMBOL Hp).
  rewrite !occurrences_in_repeat.
  destruct ty; cbn [symbol_char Genes.get]; simpl Ascii.eqb; cbv iota.
  all: unfold occurrences_in; simpl; lia.
Qed.




Lemma genesToCode_raises g ty :
  Genes.get g ty < 0 \/ arrayLimit <= Genes.get g ty ->
  genesToCode g = Err RangeError.
Proof.
  intros Hbad. rewrite genesToCode_unfold.
  destruct (array_fill_cases (Genes.attack g) "A"%string) as [[Ra ->]|[_ ->]];
    [|reflexivity]. cbn [obind].
  destruct (array_fill_cases (Genes.defense g) "D"%string) as [[Rd ->]|[_ ->]];
    [|reflexivity]. cbn [obind].
  destruct (array_fill_cases (Genes.speed g) "S"%string) as [[Rs ->]|[_ ->]];
    [|reflexivity]. cbn [obind].
  destruct (array_fill_cases (Genes.hp g) "H"%string) as [[Rh ->]|[_ ->]];
    [|reflexivity].
  destruct ty; cbn [Genes.get] in Hbad; lia.
Qed.

Lemma genesToCode_negative g ty :
  Genes.get g ty < 0 -> genesToCode g = Err RangeError.
Proof. intros H. apply (genesToCode_raises g ty). left. exact H. Qed.

(** Non-negative counts that sum to less than [2^32] are each below it. *)
Lemma small_of_total g :
  Genes.nonneg g -> Genes.total g < arrayLimit ->
  forall ty, Genes.get g ty < arrayLimit.
Proof.
  intros (Ha & Hd & Hs & Hh) Ht ty. unfold Genes.total in Ht.
  destruct ty; cbn [Genes.get]; lia.
Qed.

Lemma floorMul_lt r n : (0 < n)%nat -> (floorMul r n < n)%nat.
Proof.
  intros Hn. unfold floorMul, s_den.
  apply Nat.Div0.div_lt_upper_bound. nia.
Qed.

Lemma choose_Ret {A} (array : list A) r :
  array <> [] -> exists a, choose array r = Ret a /\ a ∈ array.
Proof.
  intros Hne. unfold choose.
  assert (Hlt : (floorMul r (length array) < length array)%nat).
  { apply floorMul_lt. destruct array; [congruence|simpl; lia]. }
  destruct (lookup_lt_is_Some_2 array _ Hlt) as [a Ha].
  rewrite Ha. exists a. split; [reflexivity|].
  apply list_elem_of_lookup. eauto.
Qed.

(** ** Random gene vectors *)

Lemma choose_GENE_TYPES r :
  exists ty, choose GENE_TYPES r = Ret ty
             /\ GENE_TYPES !! category r = Some ty.
Proof.
  unfold choose, category.
  assert (Hlt : (floorMul r (length GENE_TYPES) < length GENE_TYPES)%nat)
    by (apply floorMul_lt; simpl; lia).
  destruct (lookup_lt_is_Some_2 GENE_TYPES _ Hlt) as [ty Hty].
  rewrite Hty. eauto.
Qed.

Lemma total_set_incr g ty :
  Genes.total (Genes.set g ty (Genes.get g ty + 1)) = Genes.total g + 1.
Proof. destruct g, ty; unfold Genes.total; simpl; lia. Qed.

Lemma nonneg_set_incr g ty :
  Genes.nonneg g -> Genes.nonneg (Genes.set g ty (Genes.get g ty + 1)).
Proof. destruct g, ty; unfold Genes.nonneg; simpl; lia. Qed.

Lemma distribute_Ret n : forall g t,
  (n <= length t)%nat -> Genes.nonneg g ->
  exists g', distribute n g t = Ret (g', drop n t)
             /\ Genes.total g' = Genes.total g + Z.of_nat n
             /\ Genes.nonneg g'.
Proof.
  induction n as [|n IH]; intros g t Hlen Hnn.
  - exists g. simpl. rewrite drop_0. split; [reflexivity|]. split; [lia|assumption].
  - destruct t as [|r t]; [simpl in Hlen; lia|].
    cbn [distribute Math_random obind].
    destruct (choose_GENE_TYPES r) as (ty & -> & _). cbn [obind].
    destruct (IH (Genes.set g ty (Genes.get g ty + 1)) t) as (g' & E & T & N).
    { simpl in Hlen. lia. }
    { apply nonneg_set_incr, Hnn. }
    exists g'. rewrite E. split; [reflexivity|]. split; [|assumption].
    rewrite T, total_set_incr. lia.
Qed.

(** C7. For every [total >= 0] and every tape holding the [total] draws,
    [randomGenes(total)] returns a vector with [hp >= 1].  When the
    distributed hp count is not 0 the vector is the distributed one and its
    category sum is [total]; when it is 0, hp is set to 1, the other
    categories keep their counts, and the category sum is [total + 1]. *)
Theorem randomGenes_total (total : Z) (t : tape) :
  0 <= total -> (Z.to_nat total <= length t)%nat ->
  exists g0 g,
    distribute (Z.to_nat total) (Genes.mk 0 0 0 0) t
      = Ret (g0, drop (Z.to_nat total) t) /\
    randomGenes total t = Ret (g, drop (Z.to_nat total) t) /\
    Genes.total g0 = total /\
    1 <= Genes.hp g /\
    (Genes.hp g0 <> 0 -> g = g0 /\ Genes.total g = total) /\
    (Genes.hp g0 = 0 ->
       Genes.hp g = 1 /\
       Genes.attack g = Genes.attack g0 /\
       Genes.defense g = Genes.defense g0 /\
       Genes.speed g = Genes.speed g0 /\
       Genes.total g = total + 1).
Proof.
  intros Htot Hlen.
  destruct (distribute_Ret (Z.to_nat total) (Genes.mk 0 0 0 0) t Hlen)
    as (g0 & E & T & N).
  { unfold Genes.nonneg; simpl; lia. }
  assert (T0 : Genes.total g0 = total).
  { rewrite T. unfold Genes.total; simpl. lia. }
  exists g0. unfold randomGenes. rewrite E. cbn [obind].
  destruct (Z.eqb_spec (Genes.hp g0) 0) as [Hz|Hnz].
  - exists (Genes.set g0 Hp 1).
    split; [reflexivity|]. split; [reflexivity|]. split; [assumption|].
    split; [simpl; lia|]. split; [intros Hne; congruence|].
    intros _. unfold Genes.total in *. destruct g0; simpl in *.
    repeat split; lia.
  - exists g0. destruct N as (_ & _ & _ & Hh).
    split; [reflexivity|]. split; [reflexivity|]. split; [assumption|].
    split; [lia|]. split; [intros _; split; [reflexivity|assumption]|].
    intros Hz; congruence.
Qed.

Lemma randomGenes_total_witness :
  0 <= 2 /\ (Z.to_nat 2 <= length [Sample 0 0; Sample 1 2])%nat /\
  exists g0 g,
    distribute (Z.to_nat 2) (Genes.mk 0 0 0 0) [Sample 0 0; Sample 1 2]
      = Ret (g0, drop (Z.to_nat 2) [Sample 0 0; Sample 1 2]) /\
    randomGenes 2 [Sample 0 0; Sample 1 2]
      = Ret (g, drop (Z.to_nat 2) [Sample 0 0; Sample 1 2]) /\
    Genes.total g0 = 2 /\
    1 <= Genes.hp g /\
    (Genes.hp g0 <> 0 -> g = g0 /\ Genes.total g = 2) /\
    (Genes.hp g0 = 0 ->
       Genes.hp g = 1 /\
       Genes.attack g = Genes.attack g0 /\
       Genes.defense g = Genes.defense g0 /\
       Genes.speed g = Genes.speed g0 /\
       Genes.total g = 2 + 1).
Proof.
  split; [lia|]. split; [simpl; lia|].
  apply (randomGenes_total 2 [Sample 0 0; Sample 1 2]); [lia|simpl; lia].
Defined.

(** ** Mutation *)

Lemma fromTypes_elem g ty :
  ty ∈ fromTypes g -> (if bool_decide (ty = Hp) then 1 else 0) < Genes.get g ty.
Proof.
  unfold fromTypes. intros H. apply list_elem_of_In, filter_In in H.
  destruct H as [_ H]. apply Z.gtb_lt in H. exact H.
Qed.

Lemma drawTo_differs from : forall t to t',
  drawTo from t = Ret (to, t') -> to <> from.
Proof.
  induction t as [|r t IH]; intros to t' H; [discriminate|].
  cbn [drawTo] in H.
  destruct (choose_GENE_TYPES r) as (ty & E & _). rewrite E in H. cbn [obind] in H.
  destruct (bool_decide (ty = from)) eqn:B; simpl in H.
  - eapply IH, H.
  - injection H as <- _. apply bool_decide_eq_false in B. exact B.
Qed.

Lemma drawTo_only_starves from : forall t e,
  drawTo from t = Err e -> e = NoEntropy.
Proof.
  induction t as [|r t IH]; intros e H; [injection H as <-; reflexivity|].
  cbn [drawTo] in H.
  destruct (choose_GENE_TYPES r) as (ty & E & _). rewrite E in H. cbn [obind] in H.
  destruct (bool_decide (ty = from) && (1 <? length GENE_TYPES)%nat);
    [eapply IH, H|discriminate].
Qed.

Lemma category_injective r1 r2 ty :
  GENE_TYPES !! category r1 = Some ty -> GENE_TYPES !! category r2 = Some ty ->
  category r1 = category r2.
Proof.
  assert (ND : NoDup GENE_TYPES).
  { apply (bool_decide_unpack _). vm_compute. exact I. }
  intros H1 H2. eapply NoDup_lookup; eassumption.
Qed.

Lemma drawTo_Ret from : forall t,
  (exists r, r ∈ t /\ GENE_TYPES !! category r <> Some from) ->
  exists to t', drawTo from t = Ret (to, t').
Proof.
  induction t as [|r t IH]; intros (r0 & Hin & Hr0).
  - apply elem_of_nil in Hin. contradiction.
  - cbn [drawTo].
    destruct (choose_GENE_TYPES r) as (ty & E & L). rewrite E. cbn [obind].
    destruct (bool_decide (ty = from)) eqn:B; simpl; [|eauto].
    apply bool_decide_eq_true in B. subst ty.
    apply IH. exists r0. split; [|assumption].
    apply elem_of_cons in Hin as [->|Hin]; [congruence|assumption].
Qed.

Lemma varied_drawTo from t :
  varied t -> exists to t', drawTo from t = Ret (to, t').
Proof.
  intros (r1 & r2 & H1 & H2 & Hne). apply drawTo_Ret.
  destruct (decide (GENE_TYPES !! category r1 = Some from)) as [E1|N1];
    [|eauto].
  exists r2. split; [assumption|]. intros E2.
  apply Hne. eapply category_injective; eassumption.
Qed.

Lemma total_move g from to :
  let g1 := Genes.set g from (Genes.get g from - 1) in
  Genes.total (Genes.set g1 to (Genes.get g1 to + 1)) = Genes.total g.
Proof. destruct g, from, to; unfold Genes.total; simpl; lia. Qed.

Lemma hp_move g from to :
  (if bool_decide (from = Hp) then 1 else 0) < Genes.get g from ->
  let g1 := Genes.set g from (Genes.get g from - 1) in
  let g2 := Genes.set g1 to (Genes.get g1 to + 1) in
  (1 <= Genes.hp g -> 1 <= Genes.hp g2) /\ (Genes.nonneg g -> Genes.nonneg g2).
Proof.
  destruct g, from, to; unfold Genes.nonneg; simpl; intros; split; lia.
Qed.

(** What a returning call of [mutateGenes] guarantees. *)
Lemma mutateGenes_Ret g t g' t' :
  mutateGenes g t = Ret (g', t') ->
  Genes.total g' = Genes.total g
  /\ (1 <= Genes.hp g -> 1 <= Genes.hp g')
  /\ (Genes.nonneg g -> Genes.nonneg g').
Proof.
  unfold mutateGenes. destruct t as [|r t]; [discriminate|]. cbn [Math_random obind].
  destruct (below r _ _); [|intros [= <- <-]; auto].
  destruct (0 <? length (fromTypes g))%nat eqn:Hlen; [|intros [= <- <-]; auto].
  destruct t as [|r2 t]; [discriminate|]. cbn [Math_random obind].
  destruct (choose_Ret (fromTypes g) r2) as (from & E & Hin).
  { intros Hnil. rewrite Hnil in Hlen. discriminate. }
  rewrite E. cbn [obind].
  destruct (drawTo from t) as [[to t3]|e] eqn:D; [|discriminate]. cbn [obind].
  intros [= <- <-]. apply fromTypes_elem in Hin.
  split; [apply total_move|]. apply hp_move, Hin.
Qed.

Lemma mutateGenes_only_starves g t e :
  mutateGenes g t = Err e -> e = NoEntropy.
Proof.
  unfold mutateGenes. destruct t as [|r t]; [intros [= <-]; reflexivity|].
  cbn [Math_random obind].
  destruct (below r _ _); [|discriminate].
  destruct (0 <? length (fromTypes g))%nat eqn:Hlen; [|discriminate].
  destruct t as [|r2 t]; [intros [= <-]; reflexivity|]. cbn [Math_random obind].
  destruct (choose_Ret (fromTypes g) r2) as (from & E & Hin).
  { intros Hnil. rewrite Hnil in Hlen. discriminate. }
  rewrite E. cbn [obind].
  destruct (drawTo from t) as [[to t3]|e'] eqn:D; [discriminate|]. cbn [obind].
  intros [= <-]. eapply drawTo_only_starves, D.
Qed.

Lemma mutateGenes_returns g t :
  varied (drop 2 t) -> exists g' t', mutateGenes g t = Ret (g', t').
Proof.
  intros Hv. unfold mutateGenes.
  destruct t as [|r [|r2 t]].
  - destruct Hv as (r1 & _ & H & _). apply elem_of_nil in H. contradiction.
  - destruct Hv as (r1 & _ & H & _). apply elem_of_nil in H. contradiction.
  - simpl in Hv. cbn [Math_random obind].
    destruct (below r _ _); [|eauto].
    destruct (0 <? length (fromTypes g))%nat eqn:Hlen; [|eauto].
    cbn [Math_random obind].
    destruct (choose_Ret (fromTypes g) r2) as (from & E & Hin).
    { intros Hnil. rewrite Hnil in Hlen. discriminate. }
    rewrite E. cbn [obind].
    destruct (varied_drawTo from t Hv) as (to & t3 & D). rewrite D. cbn [obind].
    eauto.
Qed.

(** C5. For every gene vector with non-negative counts and [hp >= 1] and
    every tape of random outcomes: the vector returned by [mutateGenes] has
    the category sum of its input and [hp >= 1]; the call can only fail by
    running out of samples, and it returns as soon as the tape, after its
    first two samples, holds two that select different categories. *)
Theorem mutateGenes_conserves_total (g : Genes.t) (t : tape) :
  Genes.nonneg g -> 1 <= Genes.hp g ->
  (forall g' t', mutateGenes g t = Ret (g', t') ->
     Genes.total g' = Genes.total g /\ 1 <= Genes.hp g' /\ Genes.nonneg g')
  /\ (forall e, mutateGenes g t = Err e -> e = NoEntropy)
  /\ (varied (drop 2 t) -> exists g' t', mutateGenes g t = Ret (g', t')).
Proof.
  intros Hnn Hhp. split; [|split].
  - intros g' t' H. destruct (mutateGenes_Ret _ _ _ _ H) as (T & P & N). auto.
  - intros e. apply mutateGenes_only_starves.
  - apply mutateGenes_returns.
Qed.

Lemma mutateGenes_conserves_total_witness :
  Genes.nonneg (Genes.mk 2 2 2 2) /\ 1 <= Genes.hp (Genes.mk 2 2 2 2) /\
  mutateGenes (Genes.mk 2 2 2 2)
    [Sample 0 0; Sample 0 0; Sample 0 0; Sample 1 2]
  = Ret (Genes.mk 1 3 2 2, []) /\
  Genes.total (Genes.mk 1 3 2 2) = Genes.total (Genes.mk 2 2 2 2) /\
  1 <= Genes.hp (Genes.mk 1 3 2 2).
Proof.
  assert (N : Genes.nonneg (Genes.mk 2 2 2 2)) by (unfold Genes.nonneg; simpl; lia).
  assert (P : 1 <= Genes.hp (Genes.mk 2 2 2 2)) by (simpl; lia).
  assert (E : mutateGenes (Genes.mk 2 2 2 2)
                [Sample 0 0; Sample 0 0; Sample 0 0; Sample 1 2]
              = Ret (Genes.mk 1 3 2 2, [])) by reflexivity.
  split; [exact N|]. split; [exact P|]. split; [exact E|].
  destruct (mutateGenes_conserves_total (Genes.mk 2 2 2 2)
              [Sample 0 0; Sample 0 0; Sample 0 0; Sample 1 2] N P)
    as (H & _ & _).
  destruct (H _ _ E) as (T & Hp' & _). split; assumption.
Defined.

(** ** The duel *)

Lemma set_hp_set_hp p v v' : Pixel.set_hp (Pixel.set_hp p v) v' = Pixel.set_hp p v'.
Proof. reflexivity. Qed.

Lemma set_hp_same p : Pixel.set_hp p (Pixel.hp p) = p.
Proof. destruct p; reflexivity. Qed.

Lemma deref_Some h r p : h !! r = Some p -> deref h r = Ret p.
Proof. unfold deref. intros ->. reflexivity. Qed.

Lemma store_Some h r p q : h !! r = Some p -> store h r q = Ret (<[r := q]> h).
Proof. unfold store. intros ->. reflexivity. Qed.

Section Duel.
Variables attacker defender : ref.
Hypothesis distinct : attacker <> defender.

Lemma combatLoop_runs (fuel : nat) :
  forall (h : list Pixel.t) (turn opponent : ref) (pt po : Pixel.t),
  (turn = attacker /\ opponent = defender)
  \/ (turn = defender /\ opponent = attacker) ->
  h !! turn = Some pt -> h !! opponent = Some po ->
  0 < Pixel.hp pt -> 0 < Pixel.hp po ->
  (Z.to_nat (Pixel.hp pt) + Z.to_nat (Pixel.hp po) <= fuel)%nat ->
  exists (ht ho : Z) (later : list strike),
    combatLoop fuel attacker defender turn opponent h
    = Ret (<[turn := Pixel.set_hp pt ht]>
             (<[opponent := Pixel.set_hp po ho]> h),
           Strike turn opponent (damageOf pt po) :: later)
    /\ ht <= Pixel.hp pt /\ ho <= Pixel.hp po
    /\ ((ho <= 0 /\ 0 < ht
         /\ Z.of_nat (length later) + 2 <= 2 * Pixel.hp po)
        \/ (ht <= 0 /\ 0 < ho
            /\ Z.of_nat (length later) + 1 <= 2 * Pixel.hp pt)).
Proof.
  induction fuel as [|fuel IH]; intros h turn opponent pt po Hroles Ht Ho Hpt Hpo Hfuel;
    [lia|].
  assert (Hne : turn <> opponent) by (destruct Hroles as [[-> ->]|[-> ->]]; auto).
  assert (Hcond : exists pa pd, deref h attacker = Ret pa /\ deref h defender = Ret pd
            /\ (0 <? Pixel.hp pa) && (0 <? Pixel.hp pd) = true).
  { destruct Hroles as [[-> ->]|[-> ->]].
    - exists pt, po. rewrite (deref_Some _ _ _ Ht), (deref_Some _ _ _ Ho).
      split; [reflexivity|]. split; [reflexivity|].
      apply andb_true_iff; split; apply Z.ltb_lt; assumption.
    - exists po, pt. rewrite (deref_Some _ _ _ Ht), (deref_Some _ _ _ Ho).
      split; [reflexivity|]. split; [reflexivity|].
      apply andb_true_iff; split; apply Z.ltb_lt; assumption. }
  destruct Hcond as (pa & pd & Ea & Ed & Hcond).
  cbn [combatLoop]. rewrite Ea, Ed. cbn [obind]. rewrite Hcond.
  rewrite (deref_Some _ _ _ Ht), (deref_Some _ _ _ Ho). cbn [obind].
  fold (damageOf pt po).
  assert (Hdmg : 1 <= damageOf pt po) by (unfold damageOf; lia).
  rewrite (store_Some _ _ _ _ Ho). cbn [obind].
  change (Pixel.hp (Pixel.set_hp po (Pixel.hp po - damageOf pt po)))
    with (Pixel.hp po - damageOf pt po).
  assert (Hlt : (opponent < length h)%nat) by (eapply lookup_lt_Some; eassumption).
  destruct (Z.leb_spec (Pixel.hp po - damageOf pt po) 0) as [Hdead|Halive].
  - exists (Pixel.hp pt), (Pixel.hp po - damageOf pt po), [].
    rewrite set_hp_same.
    rewrite (list_insert_id (<[opponent:=_]> h) turn pt)
      by (rewrite list_lookup_insert_ne by auto; assumption).
    split; [reflexivity|]. split; [lia|]. split; [lia|].
    left. simpl. lia.
  - set (po' := Pixel.set_hp po (Pixel.hp po - damageOf pt po)).
    destruct (IH (<[opponent := po']> h) opponent turn po' pt)
      as (ht' & ho' & later & E & B1 & B2 & Hend).
    { destruct Hroles as [[-> ->]|[-> ->]]; auto. }
    { apply list_lookup_insert_eq, Hlt. }
    { rewrite list_lookup_insert_ne by auto. assumption. }
    { simpl. lia. }
    { assumption. }
    { simpl. lia. }
    rewrite E. cbn [obind].
    exists ho', ht', (Strike opponent turn (damageOf po' pt) :: later).
    subst po'. rewrite set_hp_set_hp.
    rewrite (list_insert_insert_ne _ turn opponent) by auto.
    rewrite list_insert_insert_eq.
    rewrite (list_insert_insert_ne _ opponent turn) by auto.
    split; [reflexivity|]. simpl in B1. split; [lia|]. split; [lia|].
    simpl length. destruct Hend as [(H1 & H2 & H3)|(H1 & H2 & H3)].
    + right. lia.
    + left. simpl in H3. lia.
Qed.
End Duel.

Lemma duel_runs (attacker defender : ref) (h : list Pixel.t) (pa pd : Pixel.t) :
  attacker <> defender ->
  h !! attacker = Some pa -> h !! defender = Some pd ->
  0 < Pixel.hp pa -> 0 < Pixel.hp pd ->
  exists (ha hd : Z) (s : strike) (later : list strike),
    duel attacker defender h
    = Ret (<[attacker := Pixel.set_hp pa ha]>
             (<[defender := Pixel.set_hp pd hd]> h), s :: later)
    /\ striker s = firstOf attacker defender pa pd
    /\ (striker s = attacker /\ struck s = defender
          /\ damage s = damageOf pa pd
        \/ striker s = defender /\ struck s = attacker
          /\ damage s = damageOf pd pa)
    /\ ha <= Pixel.hp pa /\ hd <= Pixel.hp pd
    /\ ((hd <= 0 /\ 0 < ha
         /\ Z.of_nat (length (s :: later)) <= 2 * Pixel.hp pd)
        \/ (ha <= 0 /\ 0 < hd
            /\ Z.of_nat (length (s :: later)) <= 2 * Pixel.hp pa)).
Proof.
  intros Hne Ha Hd Hpa Hpd. unfold duel.
  rewrite (deref_Some _ _ _ Ha), (deref_Some _ _ _ Hd). cbn [obind].
  assert (Hfirst : firstOf attacker defender pa pd = attacker
                   \/ firstOf attacker defender pa pd = defender).
  { unfold firstOf. destruct (_ >? _); [auto|]. destruct (_ <? _); auto. }
  destruct Hfirst as [F|F]; rewrite F.
  - rewrite Nat.eqb_refl.
    destruct (combatLoop_runs attacker defender Hne
                (S (Z.to_nat (Pixel.hp pa) + Z.to_nat (Pixel.hp pd)))
                h attacker defender pa pd)
      as (ha & hd & later & E & B1 & B2 & Hend); auto; try lia.
    exists ha, hd, (Strike attacker defender (damageOf pa pd)), later.
    split; [exact E|]. split; [reflexivity|]. split; [left; auto|].
    split; [lia|]. split; [lia|].
    simpl length. destruct Hend as [(?&?&?)|(?&?&?)]; [left|right]; lia.
  - assert (Hd' : (defender =? attacker)%nat = false)
      by (apply Nat.eqb_neq; auto).
    rewrite Hd'.
    destruct (combatLoop_runs attacker defender Hne
                (S (Z.to_nat (Pixel.hp pa) + Z.to_nat (Pixel.hp pd)))
                h defender attacker pd pa)
      as (hd & ha & later & E & B1 & B2 & Hend); auto; try lia.
    exists ha, hd, (Strike defender attacker (damageOf pd pa)), later.
    rewrite (list_insert_insert_ne _ attacker defender) by auto.
    split; [exact E|]. split; [reflexivity|]. split; [right; auto|].
    split; [lia|]. split; [lia|].
    simpl length. destruct Hend as [(?&?&?)|(?&?&?)]; [right|left]; lia.
Qed.

(** *** The whole run of the loop *)

Section DuelPlay.
Variables attacker defender : ref.
Hypothesis distinct : attacker <> defender.

(** The loop entered by [turn] with both pixels alive: [turn] strikes
    [S n] times and [opponent] [m] times, in turns, until the one struck
    last is at [hp <= 0]. *)
Lemma combatLoop_plays (fuel : nat) :
  forall (h : list Pixel.t) (turn opponent : ref) (pt po : Pixel.t),
  (turn = attacker /\ opponent = defender)
  \/ (turn = defender /\ opponent = attacker) ->
  h !! turn = Some pt -> h !! opponent = Some po ->
  0 < Pixel.hp pt -> 0 < Pixel.hp po ->
  (Z.to_nat (Pixel.hp pt) + Z.to_nat (Pixel.hp po) <= fuel)%nat ->
  exists (ht ho : Z) (n m : nat) (later : list strike),
    combatLoop fuel attacker defender turn opponent h
    = Ret (<[turn := Pixel.set_hp pt ht]>
             (<[opponent := Pixel.set_hp po ho]> h),
           Strike turn opponent (damageOf pt po) :: later)
    /\ ht = Pixel.hp pt - Z.of_nat m * damageOf po pt
    /\ ho = Pixel.hp po - Z.of_nat (S n) * damageOf pt po
    /\ received turn (Strike turn opponent (damageOf pt po) :: later)
       = Z.of_nat m * damageOf po pt
    /\ received opponent (Strike turn opponent (damageOf pt po) :: later)
       = Z.of_nat (S n) * damageOf pt po
    /\ volleys turn opponent (damageOf pt po) (damageOf po pt)
         (Strike turn opponent (damageOf pt po) :: later)
    /\ length later = (n + m)%nat
    /\ ((m = n /\ ho <= 0 /\ 0 < ho + damageOf pt po /\ 0 < ht
         /\ last (Strike turn opponent (damageOf pt po) :: later)
            = Some (Strike turn opponent (damageOf pt po)))
        \/ (m = S n /\ ht <= 0 /\ 0 < ht + damageOf po pt /\ 0 < ho
            /\ last (Strike turn opponent (damageOf pt po) :: later)
               = Some (Strike opponent turn (damageOf po pt)))).
Proof.
  induction fuel as [|fuel IH]; intros h turn opponent pt po Hroles Ht Ho Hpt Hpo Hfuel;
    [lia|].
  assert (Hne : turn <> opponent) by (destruct Hroles as [[-> ->]|[-> ->]]; auto).
  assert (Hcond : exists pa pd, deref h attacker = Ret pa /\ deref h defender = Ret pd
            /\ (0 <? Pixel.hp pa) && (0 <? Pixel.hp pd) = true).
  { destruct Hroles as [[-> ->]|[-> ->]].
    - exists pt, po. rewrite (deref_Some _ _ _ Ht), (deref_Some _ _ _ Ho).
      split; [reflexivity|]. split; [reflexivity|].
      apply andb_true_iff; split; apply Z.ltb_lt; assumption.
    - exists po, pt. rewrite (deref_Some _ _ _ Ht), (deref_Some _ _ _ Ho).
      split; [reflexivity|]. split; [reflexivity|].
      apply andb_true_iff; split; apply Z.ltb_lt; assumption. }
  destruct Hcond as (pa & pd & Ea & Ed & Hcond).
  cbn [combatLoop]. rewrite Ea, Ed. cbn [obind]. rewrite Hcond.
  rewrite (deref_Some _ _ _ Ht), (deref_Some _ _ _ Ho). cbn [obind].
  fold (damageOf pt po).
  assert (Hdmg : 1 <= damageOf pt po) by (unfold damageOf; lia).
  assert (Hdmg' : 1 <= damageOf po pt) by (unfold damageOf; lia).
  rewrite (store_Some _ _ _ _ Ho). cbn [obind].
  change (Pixel.hp (Pixel.set_hp po (Pixel.hp po - damageOf pt po)))
    with (Pixel.hp po - damageOf pt po).
  assert (Hlt : (opponent < length h)%nat) by (eapply lookup_lt_Some; eassumption).
  assert (Hoo : (opponent =? opponent)%nat = true) by apply Nat.eqb_refl.
  assert (Hot : (opponent =? turn)%nat = false) by (apply Nat.eqb_neq; auto).
  assert (Hto : (turn =? opponent)%nat = false) by (apply Nat.eqb_neq; auto).
  assert (Htt : (turn =? turn)%nat = true) by apply Nat.eqb_refl.
  destruct (Z.leb_spec (Pixel.hp po - damageOf pt po) 0) as [Hdead|Halive].
  - exists (Pixel.hp pt), (Pixel.hp po - damageOf pt po), 0%nat, 0%nat, [].
    rewrite set_hp_same.
    rewrite (list_insert_id (<[opponent:=_]> h) turn pt)
      by (rewrite list_lookup_insert_ne by auto; assumption).
    cbn [received struck damage volleys last length]. rewrite Hoo, Hot.
    split; [reflexivity|]. split; [lia|]. split; [lia|]. split; [lia|].
    split; [lia|]. split; [auto|]. split; [reflexivity|].
    left. split; [reflexivity|]. split; [lia|]. split; [lia|].
    split; [lia|reflexivity].
  - set (po' := Pixel.set_hp po (Pixel.hp po - damageOf pt po)).
    destruct (IH (<[opponent := po']> h) opponent turn po' pt)
      as (ht' & ho' & n' & m' & later & E & Eht & Eho & Rt & Ro & V & L & Hend).
    { destruct Hroles as [[-> ->]|[-> ->]]; auto. }
    { apply list_lookup_insert_eq, Hlt. }
    { rewrite list_lookup_insert_ne by auto. assumption. }
    { simpl. lia. }
    { assumption. }
    { simpl. lia. }
    rewrite E. cbn [obind].
    change (damageOf po' pt) with (damageOf po pt) in *.
    change (damageOf pt po') with (damageOf pt po) in *.
    change (Pixel.hp po') with (Pixel.hp po - damageOf pt po) in *.
    exists ho', ht', m', (S n'),
      (Strike opponent turn (damageOf po pt) :: later).
    subst po'. rewrite set_hp_set_hp.
    rewrite (list_insert_insert_ne _ turn opponent) by auto.
    rewrite list_insert_insert_eq.
    rewrite (list_insert_insert_ne _ opponent turn) by auto.
    cbn [received struck damage] in Rt, Ro |- *.
    rewrite Hoo, Hot in *. rewrite Hto, Htt in *.
    split; [reflexivity|]. split; [lia|]. split; [lia|].
    split; [lia|]. split; [lia|].
    split; [split; [reflexivity|exact V]|].
    split; [simpl; lia|].
    change (last (Strike turn opponent (damageOf pt po)
                  :: Strike opponent turn (damageOf po pt) :: later))
      with (last (Strike opponent turn (damageOf po pt) :: later)).
    destruct Hend as [(-> & H1 & H2 & H3 & H4)|(-> & H1 & H2 & H3 & H4)].
    + right. split; [reflexivity|]. split; [lia|]. split; [lia|].
      split; [lia|exact H4].
    + left. split; [reflexivity|]. split; [lia|]. split; [lia|].
      split; [lia|exact H4].
Qed.
End DuelPlay.

(** The duel: who opens it, and the run of its loop. *)
Lemma duel_plays (attacker defender : ref) (h : list Pixel.t) (pa pd : Pixel.t) :
  attacker <> defender ->
  h !! attacker = Some pa -> h !! defender = Some pd ->
  0 < Pixel.hp pa -> 0 < Pixel.hp pd ->
  exists (first second : ref) (pf ps : Pixel.t) (hf hs : Z) (n m : nat)
         (later : list strike),
    (first = attacker /\ second = defender /\ pf = pa /\ ps = pd
     \/ first = defender /\ second = attacker /\ pf = pd /\ ps = pa)
    /\ first = firstOf attacker defender pa pd
    /\ duel attacker defender h
       = Ret (<[first := Pixel.set_hp pf hf]> (<[second := Pixel.set_hp ps hs]> h),
              Strike first second (damageOf pf ps) :: later)
    /\ hf = Pixel.hp pf - Z.of_nat m * damageOf ps pf
    /\ hs = Pixel.hp ps - Z.of_nat (S n) * damageOf pf ps
    /\ received first (Strike first second (damageOf pf ps) :: later)
       = Z.of_nat m * damageOf ps pf
    /\ received second (Strike first second (damageOf pf ps) :: later)
       = Z.of_nat (S n) * damageOf pf ps
    /\ volleys first second (damageOf pf ps) (damageOf ps pf)
         (Strike first second (damageOf pf ps) :: later)
    /\ length later = (n + m)%nat
    /\ ((m = n /\ hs <= 0 /\ 0 < hs + damageOf pf ps /\ 0 < hf
         /\ last (Strike first second (damageOf pf ps) :: later)
            = Some (Strike first second (damageOf pf ps)))
        \/ (m = S n /\ hf <= 0 /\ 0 < hf + damageOf ps pf /\ 0 < hs
            /\ last (Strike first second (damageOf pf ps) :: later)
               = Some (Strike second first (damageOf ps pf)))).
Proof.
  intros Hne Ha Hd Hpa Hpd. unfold duel.
  rewrite (deref_Some _ _ _ Ha), (deref_Some _ _ _ Hd). cbn [obind].
  assert (Hfirst : firstOf attacker defender pa pd = attacker
                   \/ firstOf attacker defender pa pd = defender).
  { unfold firstOf. destruct (_ >? _); [auto|]. destruct (_ <? _); auto. }
  destruct Hfirst as [F|F]; rewrite F.
  - rewrite Nat.eqb_refl.
    destruct (combatLoop_plays attacker defender Hne
                (S (Z.to_nat (Pixel.hp pa) + Z.to_nat (Pixel.hp pd)))
                h attacker defender pa pd)
      as (hf & hs & n & m & later & E & Rest); auto; try lia.
    exists attacker, defender, pa, pd, hf, hs, n, m, later.
    split; [left; auto|]. split; [reflexivity|]. split; [exact E|exact Rest].
  - assert (Hd' : (defender =? attacker)%nat = false)
      by (apply Nat.eqb_neq; auto).
    rewrite Hd'.
    destruct (combatLoop_plays attacker defender Hne
                (S (Z.to_nat (Pixel.hp pa) + Z.to_nat (Pixel.hp pd)))
                h defender attacker pd pa)
      as (hf & hs & n & m & later & E & Rest); auto; try lia.
    exists defender, attacker, pd, pa, hf, hs, n, m, later.
    split; [right; auto|]. split; [reflexivity|]. split; [exact E|exact Rest].
Qed.

(** C8. In the duel of [resolveCombat] between two distinct living pixels,
    the pixel with the strictly higher [genes.speed], or the attacker (the
    first argument) when the two speeds are equal, deals damage first.  It
    opens the duel with a strike of at least 1 damage; when the duel is
    over it has struck [n >= 1] times and the other pixel [n] or [n - 1]
    times, and the hp written back to the two objects are the starting hp
    minus the damage of those strikes.  In particular, when its opening
    strike brings the other pixel to [hp <= 0], its own hp is untouched. *)
Theorem faster_pixel_strikes_first
    (attacker defender : ref) (h : list Pixel.t) (pa pd : Pixel.t) :
  attacker <> defender ->
  h !! attacker = Some pa -> h !! defender = Some pd ->
  0 < Pixel.hp pa -> 0 < Pixel.hp pd ->
  exists (first second : ref) (pf ps : Pixel.t) (n m : nat)
         (later : list strike),
    (first = attacker /\ second = defender /\ pf = pa /\ ps = pd
     \/ first = defender /\ second = attacker /\ pf = pd /\ ps = pa)
    /\ (Genes.speed (Pixel.genes pa) > Genes.speed (Pixel.genes pd) ->
        first = attacker)
    /\ (Genes.speed (Pixel.genes pa) < Genes.speed (Pixel.genes pd) ->
        first = defender)
    /\ (Genes.speed (Pixel.genes pa) = Genes.speed (Pixel.genes pd) ->
        first = attacker)
    /\ duel attacker defender h
       = Ret (<[first := Pixel.set_hp pf
                           (Pixel.hp pf - Z.of_nat m * damageOf ps pf)]>
                (<[second := Pixel.set_hp ps
                               (Pixel.hp ps - Z.of_nat n * damageOf pf ps)]> h),
              Strike first second (damageOf pf ps) :: later)
    /\ 1 <= damageOf pf ps
    /\ (1 <= n)%nat /\ (m = n \/ S m = n)
    /\ (Pixel.hp ps <= damageOf pf ps -> n = 1%nat /\ m = 0%nat).
Proof.
  intros Hne Ha Hd Hpa Hpd.
  destruct (duel_plays attacker defender h pa pd Hne Ha Hd Hpa Hpd)
    as (first & second & pf & ps & hf & hs & n & m & later
        & Hroles & F & E & -> & -> & _ & _ & _ & _ & Hend).
  exists first, second, pf, ps, (S n), m, later.
  assert (Hdmg : 1 <= damageOf pf ps) by (unfold damageOf; lia).
  assert (Hdmg' : 1 <= damageOf ps pf) by (unfold damageOf; lia).
  split; [exact Hroles|].
  unfold firstOf in F.
  split; [|split; [|split]].
  - intros Hs. destruct (Z.gtb_spec (Genes.speed (Pixel.genes pa))
                           (Genes.speed (Pixel.genes pd))); [exact F|lia].
  - intros Hs. destruct (Z.gtb_spec (Genes.speed (Pixel.genes pa))
                           (Genes.speed (Pixel.genes pd))); [lia|].
    destruct (Z.ltb_spec (Genes.speed (Pixel.genes pa))
                (Genes.speed (Pixel.genes pd))); [exact F|lia].
  - intros Hs. destruct (Z.gtb_spec (Genes.speed (Pixel.genes pa))
                           (Genes.speed (Pixel.genes pd))); [exact F|].
    destruct (Z.ltb_spec (Genes.speed (Pixel.genes pa))
                (Genes.speed (Pixel.genes pd))); [lia|exact F].
  - split; [exact E|]. split; [exact Hdmg|]. split; [lia|].
    split.
    + destruct Hend as [(-> & _)|(-> & _)]; [right|left]; reflexivity.
    + intros Hlethal.
      destruct Hend as [(-> & _ & Hbefore & _)|(-> & _ & _ & Halive & _)].
      * assert (n = 0%nat) by nia. subst n. split; reflexivity.
      * exfalso. nia.
Qed.

(** ** The board and the registry *)

Lemma board_row (b : Board) (y : Z) :
  has_rows b -> 0 <= y < gridSize -> exists r, b !! Z.to_nat y = Some r.
Proof.
  intros Hrows Hy. apply lookup_lt_is_Some_2. rewrite Hrows. lia.
Qed.

Lemma board_get_Ret (b : Board) (x y : Z) :
  has_rows b -> 0 <= y < gridSize -> exists c, board_get b x y = Ret c.
Proof.
  intros Hrows Hy. destruct (board_row b y Hrows Hy) as [r Hr].
  unfold board_get. destruct (Z.ltb_spec y 0); [lia|]. rewrite Hr. eauto.
Qed.

Lemma board_set_Ret (b : Board) (x y : Z) (v : cell) :
  has_rows b -> 0 <= y < gridSize ->
  exists b', board_set b x y v = Ret b' /\ has_rows b'.
Proof.
  intros Hrows Hy. destruct (board_row b y Hrows Hy) as [r Hr].
  unfold board_set. destruct (Z.ltb_spec y 0); [lia|]. rewrite Hr.
  eexists; split; [reflexivity|]. unfold has_rows. rewrite length_insert. exact Hrows.
Qed.

Lemma board_set_rows (b b' : Board) (x y : Z) (v : cell) :
  board_set b x y v = Ret b' -> length b' = length b.
Proof.
  unfold board_set. destruct (y <? 0); [discriminate|].
  destruct (b !! Z.to_nat y); [|discriminate].
  intros [= <-]. apply length_insert.
Qed.

Lemma board_get_set (b b' : Board) (x y : Z) (v : cell) (x' y' : Z) :
  board_set b x y v = Ret b' ->
  board_get b' x' y'
  = if decide (x = x' /\ y = y') then Ret (Some v) else board_get b x' y'.
Proof.
  unfold board_set, board_get.
  destruct (Z.ltb_spec y 0) as [|Hy]; [discriminate|].
  destruct (b !! Z.to_nat y) as [r|] eqn:Hr; [|discriminate].
  intros [= <-].
  destruct (Z.ltb_spec y' 0) as [|Hy'].
  { destruct (decide _) as [[_ ->]|]; [lia|reflexivity]. }
  destruct (decide (y = y')) as [<-|Hne].
  - rewrite list_lookup_insert_eq by (eapply lookup_lt_Some; eassumption).
    rewrite Hr. rewrite lookup_insert.
    destruct (decide (x = x')) as [<-|Hx].
    + rewrite decide_True by auto. reflexivity.
    + rewrite decide_False by (intros [? _]; auto). reflexivity.
  - rewrite list_lookup_insert_ne by lia.
    rewrite decide_False by (intros [_ ?]; auto). reflexivity.
Qed.

Lemma map_get_set (m : Registry) (k k' : nat) (v : ref) :
  map_get (map_set m k v) k' = if decide (k = k') then Some v else map_get m k'.
Proof.
  induction m as [|[k0 v0] m IH]; simpl.
  - destruct (Nat.eqb_spec k k'); destruct (decide (k = k')); congruence.
  - destruct (Nat.eqb_spec k0 k) as [->|Hk0]; simpl.
    + destruct (Nat.eqb_spec k k'); destruct (decide (k = k')); congruence.
    + destruct (Nat.eqb_spec k0 k') as [->|Hk0']; [|exact IH].
      rewrite decide_False by auto. reflexivity.
Qed.

Lemma map_get_delete (m : Registry) (k k' : nat) :
  map_get (map_delete m k) k' = if decide (k = k') then None else map_get m k'.
Proof.
  induction m as [|[k0 v0] m IH]; simpl.
  - destruct (decide (k = k')); reflexivity.
  - destruct (Nat.eqb_spec k0 k) as [->|Hk0]; simpl.
    + rewrite IH. destruct (decide (k = k')) as [<-|Hne]; [reflexivity|].
      destruct (Nat.eqb_spec k k'); congruence.
    + rewrite IH. destruct (Nat.eqb_spec k0 k') as [->|Hk0']; [|reflexivity].
      rewrite decide_False by auto. reflexivity.
Qed.

(** ** The offspring spawner *)

Lemma shuffle_from_Ret {A} (i : nat) : forall (array : list A) (t : tape),
  (i <= length t)%nat ->
  exists array', shuffle_from i array t = Ret (array', drop i t).
Proof.
  induction i as [|i IH]; intros array t Hlen.
  - exists array. simpl. rewrite drop_0. reflexivity.
  - destruct t as [|r t]; [simpl in Hlen; lia|].
    cbn [shuffle_from Math_random obind].
    destruct (IH (swap (S i) (floorMul r (S i + 1)) array) t) as [array' E];
      [simpl in Hlen; lia|].
    exists array'. rewrite E. reflexivity.
Qed.

Lemma preserves_refl w : preserves w w.
Proof. repeat split; auto. Qed.

Lemma newPixel_Ret x y g pop w child w1 :
  newPixel x y g pop w = Ret (child, w1) ->
  exists code,
    child = length (heap w)
    /\ w1 = mkWorld (board w)
              (heap w ++ [Pixel.mk (pixelIdCounter w) x y g pop
                            (Z.max 1 (Genes.hp g)) (Z.max 1 (Genes.hp g)) code])
              (pixels w) (S (pixelIdCounter w)) (combatLogs w).
Proof.
  unfold newPixel. destruct (genesToCode g) as [code|e]; [|discriminate].
  cbn [obind]. intros [= <- <-]. exists code. split; reflexivity.
Qed.

Lemma newPixel_returns x y g pop w :
  Genes.nonneg g -> Genes.total g < arrayLimit ->
  exists child w1, newPixel x y g pop w = Ret (child, w1).
Proof.
  intros Hnn Hsmall.
  destruct (genesToCode_returns g Hnn (small_of_total g Hnn Hsmall))
    as (code & E & _).
  unfold newPixel. rewrite E. cbn [obind]. eauto.
Qed.

(** The code stored on a new object is the code of its genes. *)
Lemma newPixel_code x y g pop w child w1 :
  newPixel x y g pop w = Ret (child, w1) ->
  exists this, heap w1 = heap w ++ [this] /\ Pixel.genes this = g
               /\ genesToCode g = Ret (Pixel.geneCode this).
Proof.
  unfold newPixel. destruct (genesToCode g) as [code|e] eqn:E; [|discriminate].
  cbn [obind]. intros [= _ <-]. eexists. cbn [heap with_heap with_counter].
  split; [reflexivity|]. split; reflexivity.
Qed.

Lemma spawn_preserves x y g pop w child w1 ok w2 :
  newPixel x y g pop w = Ret (child, w1) ->
  placePixel child w1 = Ret (ok, w2) ->
  preserves w w2.
Proof.
  intros Hnew Hplace. destruct (newPixel_Ret _ _ _ _ _ _ _ Hnew) as (code & -> & ->).
  unfold placePixel in Hplace. cbn [heap board pixels] in Hplace.
  rewrite (deref_Some _ _ _ (list_lookup_middle _ _ _ _ eq_refl)) in Hplace.
  cbn [obind Pixel.x Pixel.y Pixel.id] in Hplace.
  destruct (board_get (board w) x y) as [c|e]; [|discriminate].
  cbn [obind] in Hplace. destruct (truthy c).
  - injection Hplace as <- <-.
    split; [|split]; cbn [heap board pixels pixelIdCounter]; auto.
    intros r p Hr. apply lookup_app_l_Some, Hr.
  - destruct (board_set (board w) x y (Id (pixelIdCounter w))) as [b'|e] eqn:Hset;
      [|discriminate].
    cbn [obind] in Hplace. injection Hplace as <- <-.
    split; [|split];
      cbn [heap board pixels pixelIdCounter with_board with_pixels].
    + intros r p Hr. apply lookup_app_l_Some, Hr.
    + intros k Hk. rewrite map_get_set. rewrite decide_False by auto. reflexivity.
    + intros x' y' i Hi. rewrite (board_get_set _ _ _ _ _ x' y' Hset).
      destruct (decide _); [|auto]. intros [= Heq]. congruence.
Qed.

Lemma tryOffsets_preserves parent : forall cands w t w' t',
  tryOffsets cands parent w t = Ret (w', t') -> preserves w w'.
Proof.
  induction cands as [|[dx dy] cands IH]; intros w t w' t' H.
  - injection H as <- _. apply preserves_refl.
  - cbn [tryOffsets] in H.
    destruct (deref (heap w) parent) as [p|e]; [|discriminate]. cbn [obind] in H.
    destruct (_ || _); [eapply IH, H|].
    destruct (board_get _ _ _) as [c|e]; [|discriminate]. cbn [obind] in H.
    destruct (truthy c); [eapply IH, H|].
    destruct (mutateGenes _ _) as [[g t1]|e]; [|discriminate]. cbn [obind] in H.
    destruct (newPixel _ _ _ _ _) as [[child w1]|e] eqn:Hnew; [|discriminate].
    cbn [obind] in H.
    destruct (placePixel child w1) as [[ok w2]|e] eqn:Hplace; [|discriminate].
    cbn [obind] in H. injection H as <- _.
    eapply spawn_preserves; eassumption.
Qed.

Lemma createOffspring_preserves parent w t w' t' :
  createOffspring parent w t = Ret (w', t') -> preserves w w'.
Proof.
  unfold createOffspring.
  destruct (shuffle offsets t) as [[shuffled t1]|e]; [|discriminate].
  cbn [obind]. apply tryOffsets_preserves.
Qed.

Lemma spawn_returns x y g pop w c :
  Genes.nonneg g -> Genes.total g < arrayLimit ->
  has_rows (board w) -> 0 <= y < gridSize ->
  board_get (board w) x y = Ret c -> truthy c = false ->
  exists child w1 ok w2,
    newPixel x y g pop w = Ret (child, w1)
    /\ placePixel child w1 = Ret (ok, w2).
Proof.
  intros Hnn Hsmall Hrows Hy Hget Hfalsy.
  destruct (newPixel_returns x y g pop w Hnn Hsmall) as (child & w1 & Hnew).
  exists child, w1. rewrite Hnew.
  destruct (newPixel_Ret _ _ _ _ _ _ _ Hnew) as (code & -> & ->).
  unfold placePixel. cbn [heap board pixels].
  rewrite (deref_Some _ _ _ (list_lookup_middle _ _ _ _ eq_refl)).
  cbn [obind Pixel.x Pixel.y Pixel.id]. rewrite Hget. cbn [obind]. rewrite Hfalsy.
  destruct (board_set_Ret (board w) x y (Id (pixelIdCounter w)) Hrows Hy)
    as (b' & -> & _).
  cbn [obind]. eauto.
Qed.

Lemma shuffle_from_starved {A} (i : nat) : forall (array : list A) (t : tape) e,
  shuffle_from i array t = Err e -> e = NoEntropy.
Proof.
  induction i as [|i IH]; intros array t e H; [discriminate|].
  destruct t as [|r t]; [injection H as <-; reflexivity|].
  cbn [shuffle_from Math_random obind] in H. eapply IH, H.
Qed.

(** The loop over the candidates raises no error; it returns whenever the
    mutation of the parent's genes returns on the samples it is given. *)
Lemma tryOffsets_runs parent p : forall cands w t,
  heap w !! parent = Some p -> has_rows (board w) ->
  Genes.nonneg (Pixel.genes p) -> Genes.total (Pixel.genes p) < arrayLimit ->
  safe (fun _ : World * tape => True) (tryOffsets cands parent w t)
  /\ ((exists g' t', mutateGenes (Pixel.genes p) t = Ret (g', t')) ->
      exists w' t', tryOffsets cands parent w t = Ret (w', t')).
Proof.
  induction cands as [|[dx dy] cands IH]; intros w t Hp Hrows Hnn Hsmall.
  - simpl. split; [exact I|]. eauto.
  - cbn [tryOffsets]. rewrite (deref_Some _ _ _ Hp). cbn [obind].
    destruct (_ || _) eqn:Hout; [apply IH; assumption|].
    apply orb_false_iff in Hout as [Hout Hy2].
    apply orb_false_iff in Hout as [Hout Hx2].
    apply orb_false_iff in Hout as [Hx1 Hy1].
    assert (Hy : 0 <= Pixel.y p + dy < gridSize) by lia.
    destruct (board_get_Ret (board w) (Pixel.x p + dx) _ Hrows Hy) as [c Hget].
    rewrite Hget. cbn [obind].
    destruct (truthy c) eqn:Hc; [apply IH; assumption|].
    destruct (mutateGenes (Pixel.genes p) t) as [[g t1]|e] eqn:Hmut.
    + cbn [obind].
      destruct (mutateGenes_Ret _ _ _ _ Hmut) as (Htot & _ & Hg).
      destruct (spawn_returns (Pixel.x p + dx) (Pixel.y p + dy) g
                  (Pixel.populationId p) w c (Hg Hnn)) as
        (child & w1 & ok & w2 & -> & Hplace);
        [rewrite Htot; exact Hsmall|exact Hrows|exact Hy|exact Hget|exact Hc|].
      cbn [obind]. rewrite Hplace. cbn [obind]. split; [exact I|]. eauto.
    + cbn [obind]. split; [exact (mutateGenes_only_starves _ _ _ Hmut)|].
      intros (g' & t' & Hret). discriminate.
Qed.

Lemma createOffspring_runs parent p w t :
  heap w !! parent = Some p -> has_rows (board w) ->
  Genes.nonneg (Pixel.genes p) -> Genes.total (Pixel.genes p) < arrayLimit ->
  safe (fun _ : World * tape => True) (createOffspring parent w t)
  /\ ((11 <= length t)%nat ->
      (exists g' t', mutateGenes (Pixel.genes p) (drop 11 t) = Ret (g', t')) ->
      exists w' t', createOffspring parent w t = Ret (w', t')).
Proof.
  intros Hp Hrows Hnn Hsmall. unfold createOffspring, shuffle.
  change (length offsets - 1)%nat with 11%nat.
  destruct (shuffle_from 11 offsets t) as [[shuffled t1]|e] eqn:E; cbn [obind].
  - split; [apply (tryOffsets_runs parent p); assumption|].
    intros Hlen Hmut.
    destruct (shuffle_from_Ret 11 offsets t Hlen) as [shuffled' E'].
    rewrite E in E'. injection E' as _ ->.
    apply (tryOffsets_runs parent p); assumption.
  - split; [exact (shuffle_from_starved _ _ _ _ E)|].
    intros Hlen _. destruct (shuffle_from_Ret 11 offsets t Hlen) as [shuffled' E'].
    rewrite E in E'. discriminate.
Qed.

(** ** The combat resolver *)

Ltac wcbn :=
  cbn [obind heap board pixels pixelIdCounter combatLogs
       with_heap with_board with_pixels with_logs
       Pixel.hp Pixel.maxHp Pixel.x Pixel.y Pixel.id Pixel.genes
       Pixel.geneCode Pixel.populationId Pixel.set_hp].

Lemma resolveCombat_settles (attacker defender : ref) (w : World) (t : tape)
    (h1 : list Pixel.t) (strikes : list strike) (pa1 pd1 : Pixel.t) :
  attacker <> defender ->
  duel attacker defender (heap w) = Ret (h1, strikes) ->
  h1 !! attacker = Some pa1 -> h1 !! defender = Some pd1 ->
  (0 < Pixel.hp pa1 -> Pixel.hp pd1 <= 0 ->
   exists logs, resolveCombat attacker defender w t
                = settle attacker pa1 pd1 h1 logs w t)
  /\ (Pixel.hp pa1 <= 0 ->
      exists logs, resolveCombat attacker defender w t
                   = settle defender pd1 pa1 h1 logs w t).
Proof.
  intros Hne Hduel Ha Hd. split.
  - intros Hpa Hpd. unfold resolveCombat. rewrite Hduel. wcbn.
    rewrite (deref_Some _ _ _ Ha). wcbn.
    destruct (Z.ltb_spec 0 (Pixel.hp pa1)); [|lia].
    rewrite Nat.eqb_refl. unfold logCombat. wcbn.
    rewrite (deref_Some _ _ _ Ha), (deref_Some _ _ _ Hd). wcbn.
    rewrite (deref_Some _ _ _ Hd). wcbn.
    destruct (Z.leb_spec (Pixel.hp pd1) 0); [|lia].
    unfold removePixel, settle. wcbn.
    rewrite (deref_Some _ _ _ Hd). wcbn.
    destruct (board_set _ _ _ _) as [b|e]; [|exists []; reflexivity]. wcbn.
    rewrite (deref_Some _ _ _ Ha). wcbn.
    rewrite (store_Some _ _ _ _ Ha). wcbn. eexists. reflexivity.
  - intros Hpa. unfold resolveCombat. rewrite Hduel. wcbn.
    rewrite (deref_Some _ _ _ Ha). wcbn.
    destruct (Z.ltb_spec 0 (Pixel.hp pa1)); [lia|].
    assert (E : (defender =? attacker)%nat = false) by (apply Nat.eqb_neq; auto).
    rewrite E. unfold logCombat. wcbn.
    rewrite (deref_Some _ _ _ Ha), (deref_Some _ _ _ Hd). wcbn.
    rewrite (deref_Some _ _ _ Ha). wcbn.
    destruct (Z.leb_spec (Pixel.hp pa1) 0); [|lia].
    unfold removePixel, settle. wcbn.
    rewrite (deref_Some _ _ _ Ha). wcbn.
    destruct (board_set _ _ _ _) as [b|e]; [|exists []; reflexivity]. wcbn.
    rewrite (deref_Some _ _ _ Hd). wcbn.
    rewrite (store_Some _ _ _ _ Hd). wcbn. eexists. reflexivity.
Qed.

Lemma settle_Ret (winner loser : ref) (pw pl : Pixel.t) (h : list Pixel.t)
    (logs : list string) (w : World) (t : tape) r w' t' :
  settle winner pw pl h logs w t = Ret (r, w', t') ->
  winner <> loser -> h !! winner = Some pw -> h !! loser = Some pl ->
  (Pixel.id pl < pixelIdCounter w)%nat -> only_at (board w) pl ->
  r = winner
  /\ heap w' !! loser = Some pl
  /\ map_get (pixels w') (Pixel.id pl) = None
  /\ (forall x y, board_get (board w') x y <> Ret (Some (Id (Pixel.id pl))))
  /\ heap w' !! winner = Some (Pixel.set_hp pw (Pixel.maxHp pw)).
Proof.
  unfold settle. intros H Hne Hw Hl Hfresh Honly.
  destruct (board_set _ _ _ _) as [b|e] eqn:Hset; [|discriminate]. cbn [obind] in H.
  destruct (createOffspring _ _ _) as [[w5 t5]|e] eqn:Hspawn; [|discriminate].
  cbn [obind] in H. injection H as <- <- <-.
  destruct (createOffspring_preserves _ _ _ _ _ Hspawn) as (Hheap & Hreg & Hboard).
  cbn [heap pixels board pixelIdCounter] in *.
  assert (Hlt : (winner < length h)%nat) by (eapply lookup_lt_Some; eassumption).
  split; [reflexivity|]. split; [|split; [|split]].
  - apply Hheap. rewrite list_lookup_insert_ne by auto. exact Hl.
  - rewrite Hreg by lia. rewrite map_get_delete, decide_True by reflexivity.
    reflexivity.
  - intros x y Hc. apply Hboard in Hc; [|lia].
    rewrite (board_get_set _ _ _ _ _ x y Hset) in Hc.
    destruct (decide _) as [|Hpos]; [discriminate|].
    apply Honly in Hc as [-> ->]. apply Hpos. split; reflexivity.
  - apply Hheap. apply list_lookup_insert_eq, Hlt.
Qed.

Lemma settle_runs (winner : ref) (pw pl : Pixel.t) (h : list Pixel.t)
    (logs : list string) (w : World) (t : tape) :
  has_rows (board w) -> in_bounds pl -> h !! winner = Some pw ->
  Genes.nonneg (Pixel.genes pw) -> Genes.total (Pixel.genes pw) < arrayLimit ->
  safe (fun rwt : ref * World * tape => rwt.1.1 = winner)
       (settle winner pw pl h logs w t)
  /\ ((11 <= length t)%nat ->
      (exists g' t', mutateGenes (Pixel.genes pw) (drop 11 t) = Ret (g', t')) ->
      exists w' t', settle winner pw pl h logs w t = Ret (winner, w', t')).
Proof.
  intros Hrows [_ Hy] Hw Hnn Hsmall. unfold settle.
  destruct (board_set_Ret (board w) (Pixel.x pl) (Pixel.y pl) Null Hrows Hy)
    as (b & -> & Hrows').
  cbn [obind].
  destruct (createOffspring_runs winner (Pixel.set_hp pw (Pixel.maxHp pw))
              (mkWorld b (<[winner := Pixel.set_hp pw (Pixel.maxHp pw)]> h)
                 (map_delete (pixels w) (Pixel.id pl)) (pixelIdCounter w) logs) t)
    as [Hsafe Hret].
  - cbn [heap]. apply list_lookup_insert_eq. eapply lookup_lt_Some; eassumption.
  - exact Hrows'.
  - exact Hnn.
  - exact Hsmall.
  - split.
    + destruct (createOffspring _ _ _) as [[w5 t5]|e]; [reflexivity|exact Hsafe].
    + intros Hlen Hmut. destruct (Hret Hlen Hmut) as (w' & t' & ->).
      cbn [obind]. eauto.
Qed.

(** What a healthy, coded world gives about each of its objects: the
    conditions under which the combat resolver is studied below. *)
Lemma well_formed_object (w : World) (r : ref) (p : Pixel.t) :
  healthy w -> coded w -> heap w !! r = Some p ->
  has_rows (board w) /\ in_bounds p /\ Genes.nonneg (Pixel.genes p)
  /\ Genes.total (Pixel.genes p) < arrayLimit.
Proof.
  intros (_ & Hrows & Hobjs & _) Hcd Hp.
  destruct (Hobjs _ _ Hp) as (Hb & Hg & _).
  split; [exact Hrows|]. split; [exact Hb|]. split; [exact Hg|].
  exact (proj2 (Hcd _ _ Hp)).
Qed.

(** C3, as amended. For two distinct living pixels, the duel stops after
    at most twice the loser's starting hp turns, with the loser at
    [hp <= 0] and the other pixel alive.  On every tape [resolveCombat]
    raises no error and can only return that other pixel as the winner; it
    does return it whenever the tape holds the 11 samples of the shuffle
    and the redraw loop of the offspring's mutation stops on the samples
    that follow.  The two pixels are taken from a state as every healthy,
    coded world is ([well_formed_object]): the board has its rows, both
    stand on it, and their gene counts are non-negative and below [2^32]
    in all. *)
Theorem resolveCombat_terminates (attacker defender : ref) (w : World)
    (pa pd : Pixel.t) :
  attacker <> defender ->
  heap w !! attacker = Some pa -> heap w !! defender = Some pd ->
  0 < Pixel.hp pa -> 0 < Pixel.hp pd ->
  Genes.nonneg (Pixel.genes pa) -> Genes.nonneg (Pixel.genes pd) ->
  Genes.total (Pixel.genes pa) < arrayLimit ->
  Genes.total (Pixel.genes pd) < arrayLimit ->
  has_rows (board w) -> in_bounds pa -> in_bounds pd ->
  exists (h' : list Pixel.t) (strikes : list strike)
         (winner loser : ref) (pw pl pw' pl' : Pixel.t),
    duel attacker defender (heap w) = Ret (h', strikes)
    /\ (winner = attacker /\ loser = defender /\ pw = pa /\ pl = pd
        \/ winner = defender /\ loser = attacker /\ pw = pd /\ pl = pa)
    /\ (1 <= length strikes)%nat
    /\ Z.of_nat (length strikes) <= 2 * Pixel.hp pl
    /\ h' !! winner = Some pw' /\ 0 < Pixel.hp pw'
    /\ h' !! loser = Some pl' /\ Pixel.hp pl' <= 0
    /\ forall t : tape,
         safe (fun rwt : ref * World * tape => rwt.1.1 = winner)
              (resolveCombat attacker defender w t)
         /\ ((11 <= length t)%nat ->
             (exists g' t', mutateGenes (Pixel.genes pw) (drop 11 t)
                            = Ret (g', t')) ->
             exists w' t',
               resolveCombat attacker defender w t = Ret (winner, w', t')).
Proof.
  intros Hne Ha Hd Hpa Hpd Hga Hgd Hsa Hsd Hrows Hba Hbd.
  destruct (duel_plays attacker defender (heap w) pa pd Hne Ha Hd Hpa Hpd)
    as (first & second & pf & ps & hf & hs & n & m & later
        & Hroles & _ & E & Ehf & Ehs & _ & _ & _ & Hlen & Hend).
  assert (Hdmg : 1 <= damageOf pf ps) by (unfold damageOf; lia).
  assert (Hdmg' : 1 <= damageOf ps pf) by (unfold damageOf; lia).
  set (h1 := <[first := Pixel.set_hp pf hf]>
               (<[second := Pixel.set_hp ps hs]> (heap w))) in *.
  assert (Hfs : first <> second)
    by (destruct Hroles as [(-> & -> & _)|(-> & -> & _)]; auto).
  assert (Hf : heap w !! first = Some pf)
    by (destruct Hroles as [(-> & _ & -> & _)|(-> & _ & -> & _)]; assumption).
  assert (Hs : heap w !! second = Some ps)
    by (destruct Hroles as [(_ & -> & _ & ->)|(_ & -> & _ & ->)]; assumption).
  assert (Hf1 : h1 !! first = Some (Pixel.set_hp pf hf)).
  { apply list_lookup_insert_eq. rewrite length_insert.
    eapply lookup_lt_Some; eassumption. }
  assert (Hs1 : h1 !! second = Some (Pixel.set_hp ps hs)).
  { unfold h1. rewrite list_lookup_insert_ne by auto.
    apply list_lookup_insert_eq. eapply lookup_lt_Some; eassumption. }
  assert (Hfacts : in_bounds pf /\ in_bounds ps
                   /\ Genes.nonneg (Pixel.genes pf)
                   /\ Genes.nonneg (Pixel.genes ps)
                   /\ Genes.total (Pixel.genes pf) < arrayLimit
                   /\ Genes.total (Pixel.genes ps) < arrayLimit).
  { destruct Hroles as [(_ & _ & -> & ->)|(_ & _ & -> & ->)]; auto 10. }
  destruct Hfacts as (Hbf & Hbs & Hgf & Hgs & Hsf & Hss).
  assert (Hsettles :
    (0 < hf -> hs <= 0 ->
     forall t, exists logs, resolveCombat attacker defender w t
                            = settle first (Pixel.set_hp pf hf)
                                (Pixel.set_hp ps hs) h1 logs w t)
    /\ (hf <= 0 -> 0 < hs ->
        forall t, exists logs, resolveCombat attacker defender w t
                               = settle second (Pixel.set_hp ps hs)
                                   (Pixel.set_hp pf hf) h1 logs w t)).
  { destruct Hroles as [(-> & -> & -> & ->)|(-> & -> & -> & ->)].
    - split; intros H1 H2 t;
        destruct (resolveCombat_settles attacker defender w t h1 _ _ _
                    Hne E Hf1 Hs1) as [Hwin Hlose].
      + apply Hwin; assumption.
      + apply Hlose; assumption.
    - split; intros H1 H2 t;
        destruct (resolveCombat_settles attacker defender w t h1 _ _ _
                    Hne E Hs1 Hf1) as [Hwin Hlose].
      + apply Hlose; assumption.
      + apply Hwin; assumption. }
  destruct Hsettles as [Hfwins Hswins].
  exists h1, (Strike first second (damageOf pf ps) :: later).
  destruct Hend as [(-> & Hdead & Hbefore & Halive & _)
                   |(-> & Hdead & Hbefore & Halive & _)].
  - exists first, second, pf, ps, (Pixel.set_hp pf hf), (Pixel.set_hp ps hs).
    split; [exact E|]. split; [exact Hroles|].
    split; [simpl; lia|]. split; [simpl length; nia|].
    split; [exact Hf1|]. split; [exact Halive|].
    split; [exact Hs1|]. split; [exact Hdead|].
    intros t. destruct (Hfwins Halive Hdead t) as [logs ->].
    exact (settle_runs first (Pixel.set_hp pf hf) (Pixel.set_hp ps hs) h1 logs
             w t Hrows Hbs Hf1 Hgf Hsf).
  - exists second, first, ps, pf, (Pixel.set_hp ps hs), (Pixel.set_hp pf hf).
    split; [exact E|].
    split; [destruct Hroles as [(-> & -> & -> & ->)|(-> & -> & -> & ->)]; auto 10|].
    split; [simpl; lia|]. split; [simpl length; nia|].
    split; [exact Hs1|]. split; [exact Halive|].
    split; [exact Hf1|]. split; [exact Hdead|].
    intros t. destruct (Hswins Hdead Halive t) as [logs ->].
    exact (settle_runs second (Pixel.set_hp ps hs) (Pixel.set_hp pf hf) h1 logs
             w t Hrows Hbf Hs1 Hgs Hss).
Qed.

(** C4. For two distinct pixels alive at entry, whose ids are below the id
    counter and are on the board at most at their recorded cells (as they
    are in every tidy world): when [resolveCombat] returns, the loser has
    [hp <= 0], its id is in no cell of the board and has no entry in the
    registry, and the returned winner has [hp = maxHp]. *)
Theorem resolveCombat_removes_loser_heals_winner
    (attacker defender : ref) (w : World) (t : tape) (pa pd : Pixel.t)
    (winner : ref) (w' : World) (t' : tape) :
  attacker <> defender ->
  heap w !! attacker = Some pa -> heap w !! defender = Some pd ->
  0 < Pixel.hp pa -> 0 < Pixel.hp pd ->
  (Pixel.id pa < pixelIdCounter w)%nat ->
  (Pixel.id pd < pixelIdCounter w)%nat ->
  only_at (board w) pa -> only_at (board w) pd ->
  resolveCombat attacker defender w t = Ret (winner, w', t') ->
  exists (loser : ref) (pw pl : Pixel.t),
    (winner = attacker /\ loser = defender /\ Pixel.id pl = Pixel.id pd
     \/ winner = defender /\ loser = attacker /\ Pixel.id pl = Pixel.id pa)
    /\ heap w' !! loser = Some pl /\ Pixel.hp pl <= 0
    /\ map_get (pixels w') (Pixel.id pl) = None
    /\ (forall x y, board_get (board w') x y <> Ret (Some (Id (Pixel.id pl))))
    /\ heap w' !! winner = Some pw /\ Pixel.hp pw = Pixel.maxHp pw.
Proof.
  intros Hne Ha Hd Hpa Hpd Hfa Hfd Hoa Hod Hres.
  destruct (duel_runs attacker defender (heap w) pa pd Hne Ha Hd Hpa Hpd)
    as (ha & hd & s & later & E & _ & _ & _ & _ & Hend).
  set (h1 := <[attacker := Pixel.set_hp pa ha]>
               (<[defender := Pixel.set_hp pd hd]> (heap w))) in *.
  assert (Ha1 : h1 !! attacker = Some (Pixel.set_hp pa ha)).
  { apply list_lookup_insert_eq. rewrite length_insert.
    eapply lookup_lt_Some; eassumption. }
  assert (Hd1 : h1 !! defender = Some (Pixel.set_hp pd hd)).
  { unfold h1. rewrite list_lookup_insert_ne by auto.
    apply list_lookup_insert_eq. eapply lookup_lt_Some; eassumption. }
  destruct (resolveCombat_settles attacker defender w t h1 (s :: later)
              _ _ Hne E Ha1 Hd1) as [Hwin Hlose].
  destruct Hend as [(Hhd & Hha & _)|(Hha & Hhd & _)].
  - destruct (Hwin Hha Hhd) as [logs Hsettle]. rewrite Hsettle in Hres.
    destruct (settle_Ret attacker defender _ _ _ _ _ _ _ _ _ Hres Hne Ha1 Hd1 Hfd Hod)
      as (-> & Hl & Hreg & Hboard & Hw).
    exists defender, (Pixel.set_hp (Pixel.set_hp pa ha) (Pixel.maxHp pa)),
      (Pixel.set_hp pd hd).
    split; [left; auto|]. split; [exact Hl|]. split; [exact Hhd|].
    split; [exact Hreg|]. split; [exact Hboard|]. split; [exact Hw|reflexivity].
  - destruct (Hlose Hha) as [logs Hsettle]. rewrite Hsettle in Hres.
    destruct (settle_Ret defender attacker _ _ _ _ _ _ _ _ _ Hres
                (not_eq_sym Hne) Hd1 Ha1 Hfa Hoa)
      as (-> & Hl & Hreg & Hboard & Hw).
    exists attacker, (Pixel.set_hp (Pixel.set_hp pd hd) (Pixel.maxHp pd)),
      (Pixel.set_hp pa ha).
    split; [right; auto|]. split; [exact Hl|]. split; [exact Hha|].
    split; [exact Hreg|]. split; [exact Hboard|]. split; [exact Hw|reflexivity].
Qed.

(** ** Occupancy consistency *)

Lemma map_get_In (m : Registry) (k : nat) (r : ref) :
  map_get m k = Some r -> In (k, r) m.
Proof.
  induction m as [|[k0 r0] m IH]; simpl; [discriminate|].
  destruct (Nat.eqb_spec k0 k) as [->|_].
  - intros [= ->]. left. reflexivity.
  - intros H. right. apply IH, H.
Qed.

Lemma rows_ok_lookup (w : World) : forall (rows : list row) (y0 i : nat) (r : row),
  rows_ok w y0 rows = true -> rows !! i = Some r ->
  forallb (cell_ok w (y0 + i)) (map_to_list r) = true.
Proof.
  induction rows as [|r0 rows IH]; intros y0 i r Hok Hi; [discriminate|].
  simpl in Hok. apply andb_true_iff in Hok as [Hrow Hrest].
  destruct i as [|i]; simpl in Hi.
  - injection Hi as <-. rewrite Nat.add_0_r. exact Hrow.
  - replace (y0 + S i)%nat with (S y0 + i)%nat by lia. eapply IH; eassumption.
Qed.

Lemma occupancy_check_sound (w : World) :
  occupancy_check w = true -> occupancy_consistent w.
Proof.
  unfold occupancy_check. intros H. apply andb_true_iff in H as [Hreg Hrows].
  split.
  - intros k r Hget. apply map_get_In in Hget.
    rewrite forallb_forall in Hreg. specialize (Hreg _ Hget).
    unfold entry_ok in Hreg. cbn [fst snd] in Hreg.
    destruct (heap w !! r) as [p|] eqn:Hp; [|discriminate].
    apply andb_true_iff in Hreg as [Hid Hcell].
    apply Nat.eqb_eq in Hid. exists p. split; [reflexivity|]. split; [exact Hid|].
    destruct (board_get _ _ _) as [[[|k']|]|]; try discriminate.
    apply Nat.eqb_eq in Hcell. subst k'. reflexivity.
  - intros x y k Hget. unfold board_get in Hget.
    destruct (Z.ltb_spec y 0) as [|Hy]; [discriminate|].
    destruct (board w !! Z.to_nat y) as [r|] eqn:Hr; [|discriminate].
    injection Hget as Hcell.
    pose proof (rows_ok_lookup w _ 0 _ _ Hrows Hr) as Hrow.
    rewrite forallb_forall in Hrow.
    apply elem_of_map_to_list, list_elem_of_In in Hcell.
    specialize (Hrow _ Hcell). unfold cell_ok in Hrow. cbn [fst snd] in Hrow.
    destruct (map_get (pixels w) k) as [r'|]; [|discriminate].
    destruct (heap w !! r') as [p|] eqn:Hp; [|discriminate].
    apply andb_true_iff in Hrow as [Hx Hy'].
    apply Z.eqb_eq in Hx, Hy'. exists r', p.
    split; [reflexivity|]. split; [exact Hp|]. split; [exact Hx|]. lia.
Qed.

Lemma occupancy_only_at (w : World) (r : ref) (p : Pixel.t) :
  occupancy_consistent w ->
  map_get (pixels w) (Pixel.id p) = Some r -> heap w !! r = Some p ->
  only_at (board w) p.
Proof.
  intros [_ Hcells] Hreg Hp x y Hget.
  destruct (Hcells x y _ Hget) as (r' & p' & Hreg' & Hp' & <- & <-).
  rewrite Hreg in Hreg'. injection Hreg' as <-.
  rewrite Hp in Hp'. injection Hp' as <-. split; reflexivity.
Qed.

(** ** Tidy worlds *)

Lemma null_row_lookup (n : nat) (x : Z) (c : cell) :
  null_row n !! x = Some c -> c = Null.
Proof.
  induction n as [|n IH]; simpl.
  - rewrite lookup_empty. discriminate.
  - rewrite lookup_insert. destruct (decide _); [congruence|exact IH].
Qed.

Lemma repeat_lookup {A} (a b : A) (n i : nat) :
  repeat a n !! i = Some b -> b = a.
Proof.
  revert i. induction n as [|n IH]; intros i; simpl; [discriminate|].
  destruct i as [|i]; simpl; [congruence|apply IH].
Qed.

Lemma null_board_get (n m : nat) (x y : Z) (k : nat) :
  board_get (repeat (null_row n) m) x y <> Ret (Some (Id k)).
Proof.
  unfold board_get. destruct (y <? 0); [discriminate|].
  destruct (repeat (null_row n) m !! Z.to_nat y) as [r|] eqn:Hr; [|discriminate].
  apply repeat_lookup in Hr. subst r.
  destruct (null_row n !! x) as [c|] eqn:Hc; [|discriminate].
  apply null_row_lookup in Hc. subst c. discriminate.
Qed.

Lemma tidy_initial : tidy initial_world.
Proof.
  split; [reflexivity|]. split.
  - intros r p H. discriminate.
  - intros x y k H. exfalso. exact (null_board_get _ _ _ _ _ H).
Qed.

Lemma tidy_fresh (w : World) (r : ref) (p : Pixel.t) :
  tidy w -> heap w !! r = Some p -> (Pixel.id p < pixelIdCounter w)%nat.
Proof.
  intros (Hc & Hid & _) Hp. rewrite (Hid _ _ Hp), Hc.
  eapply lookup_lt_Some, Hp.
Qed.

Lemma tidy_only_at (w : World) (r : ref) (p : Pixel.t) :
  tidy w -> heap w !! r = Some p -> only_at (board w) p.
Proof.
  intros (_ & Hid & Hcells) Hp x y Hget.
  destruct (Hcells _ _ _ Hget) as (p' & Hp' & <- & <-).
  rewrite (Hid _ _ Hp) in Hp'. rewrite Hp in Hp'. injection Hp' as <-.
  split; reflexivity.
Qed.

Lemma same_place_refl (h : list Pixel.t) : Forall2 same_place h h.
Proof. induction h; constructor; [repeat split|assumption]. Qed.

Lemma same_place_trans (h1 h2 h3 : list Pixel.t) :
  Forall2 same_place h1 h2 -> Forall2 same_place h2 h3 ->
  Forall2 same_place h1 h3.
Proof.
  intros H12. revert h3. induction H12 as [|p q h1 h2 (A & B & C) _ IH];
    intros h3 H23; inversion H23 as [|? r ? h3' (A' & B' & C') Hrest]; subst.
  - constructor.
  - constructor; [repeat split; congruence|apply IH, Hrest].
Qed.

Lemma same_place_store (h : list Pixel.t) (r : ref) (p p' : Pixel.t) :
  h !! r = Some p -> same_place p p' -> Forall2 same_place h (<[r := p']> h).
Proof.
  intros Hp Hs. rewrite <- (list_insert_id h r p Hp) at 1.
  apply Forall2_insert; [apply same_place_refl|exact Hs].
Qed.

Lemma tidy_heap (w : World) (h' : list Pixel.t) :
  tidy w -> Forall2 same_place (heap w) h' -> tidy (with_heap w h').
Proof.
  intros (Hc & Hid & Hcells) H. split; [|split]; cbn [heap board pixelIdCounter with_heap].
  - rewrite Hc. eapply Forall2_length, H.
  - intros r p' Hp'. destruct (Forall2_lookup_r _ _ _ _ _ H Hp') as (p & Hp & (E & _)).
    rewrite <- E. eapply Hid, Hp.
  - intros x y k Hget. destruct (Hcells _ _ _ Hget) as (p & Hp & Hx & Hy).
    destruct (Forall2_lookup_l _ _ _ _ _ H Hp) as (p' & Hp' & (_ & Ex & Ey)).
    exists p'. split; [exact Hp'|]. split; congruence.
Qed.

Lemma tidy_same (w w' : World) :
  tidy w -> board w' = board w -> heap w' = heap w ->
  pixelIdCounter w' = pixelIdCounter w -> tidy w'.
Proof.
  intros (Hc & Hid & Hcells) Eb Eh Ec. unfold tidy. rewrite Eb, Eh, Ec. auto.
Qed.

Lemma tidy_clear (w : World) (x y : Z) (b : Board) :
  tidy w -> board_set (board w) x y Null = Ret b -> tidy (with_board w b).
Proof.
  intros (Hc & Hid & Hcells) Hset. split; [exact Hc|]. split; [exact Hid|].
  cbn [heap board with_board]. intros x' y' k.
  rewrite (board_get_set _ _ _ _ _ x' y' Hset).
  destruct (decide _); [discriminate|apply Hcells].
Qed.

Lemma tidy_mark (w : World) (r : ref) (p : Pixel.t) (b : Board) :
  tidy w -> heap w !! r = Some p ->
  board_set (board w) (Pixel.x p) (Pixel.y p) (Id (Pixel.id p)) = Ret b ->
  tidy (with_board w b).
Proof.
  intros (Hc & Hid & Hcells) Hp Hset. split; [exact Hc|]. split; [exact Hid|].
  cbn [heap board with_board]. intros x' y' k.
  rewrite (board_get_set _ _ _ _ _ x' y' Hset).
  destruct (decide _) as [[<- <-]|]; [|apply Hcells].
  intros [= <-]. exists p. rewrite (Hid _ _ Hp). auto.
Qed.

Lemma tidy_newPixel x y g pop w child w1 :
  tidy w -> newPixel x y g pop w = Ret (child, w1) ->
  tidy w1 /\ exists p, heap w1 !! child = Some p
                       /\ Pixel.x p = x /\ Pixel.y p = y.
Proof.
  intros (Hc & Hid & Hcells) Hnew.
  destruct (newPixel_Ret _ _ _ _ _ _ _ Hnew) as (code & -> & ->).
  split; [split; [|split]|]; cbn [heap board pixelIdCounter].
  - rewrite length_app, Hc. simpl. lia.
  - intros r p Hp. apply lookup_app_Some in Hp as [Hp|[Hge Hp]]; [eapply Hid, Hp|].
    destruct (r - length (heap w))%nat eqn:Hr; [|destruct n; discriminate].
    injection Hp as <-. cbn [Pixel.id]. lia.
  - intros x' y' k Hget. destruct (Hcells _ _ _ Hget) as (p & Hp & Hx & Hy).
    exists p. split; [apply lookup_app_l_Some, Hp|auto].
  - eexists. split; [apply list_lookup_middle; reflexivity|]. split; reflexivity.
Qed.

Lemma tidy_placePixel pixel w ok w' :
  tidy w -> placePixel pixel w = Ret (ok, w') -> tidy w'.
Proof.
  intros Ht H. unfold placePixel in H.
  destruct (deref (heap w) pixel) as [p|e] eqn:Hp; [|discriminate]. cbn [obind] in H.
  unfold deref in Hp. destruct (heap w !! pixel) as [p0|] eqn:Hl; [|discriminate].
  injection Hp as ->.
  destruct (board_get _ _ _) as [c|e]; [|discriminate]. cbn [obind] in H.
  destruct (truthy c); [injection H as <- <-; exact Ht|].
  destruct (board_set _ _ _ _) as [b|e] eqn:Hset; [|discriminate]. cbn [obind] in H.
  injection H as <- <-.
  eapply tidy_same; [eapply tidy_mark; eassumption| | |]; reflexivity.
Qed.

Lemma tidy_removePixel pixel w w' :
  tidy w -> removePixel pixel w = Ret w' -> tidy w'.
Proof.
  intros Ht H. unfold removePixel in H.
  destruct (deref (heap w) pixel) as [p|e]; [|discriminate]. cbn [obind] in H.
  destruct (board_set _ _ _ _) as [b|e] eqn:Hset; [|discriminate]. cbn [obind] in H.
  injection H as <-.
  eapply tidy_same; [eapply tidy_clear; eassumption| | |]; reflexivity.
Qed.

Lemma tidy_moveTo pixel nx ny w w' :
  tidy w -> moveTo pixel nx ny w = Ret w' -> tidy w'.
Proof.
  intros Ht H. unfold moveTo in H.
  destruct (deref (heap w) pixel) as [p|e] eqn:Hp; [|discriminate]. cbn [obind] in H.
  unfold deref in Hp. destruct (heap w !! pixel) as [p0|] eqn:Hl; [|discriminate].
  injection Hp as ->.
  destruct (board_set (board w) _ _ Null) as [b1|e] eqn:Hclear; [|discriminate].
  cbn [obind] in H. rewrite (store_Some _ _ _ _ Hl) in H. cbn [obind] in H.
  destruct (board_set b1 _ _ _) as [b2|e] eqn:Hmark; [|discriminate].
  cbn [obind] in H. injection H as <-.
  destruct Ht as (Hc & Hid & Hcells).
  assert (Hlt : (pixel < length (heap w))%nat) by (eapply lookup_lt_Some, Hl).
  split; [|split]; cbn [heap board pixelIdCounter with_heap with_board].
  - rewrite length_insert. exact Hc.
  - intros r q Hq. destruct (decide (pixel = r)) as [<-|Hne].
    + rewrite list_lookup_insert_eq in Hq by exact Hlt. injection Hq as <-.
      cbn [Pixel.id Pixel.set_pos]. eapply Hid, Hl.
    + rewrite list_lookup_insert_ne in Hq by exact Hne. eapply Hid, Hq.
  - intros x' y' k. rewrite (board_get_set _ _ _ _ _ x' y' Hmark).
    destruct (decide _) as [[<- <-]|Hnew].
    + intros [= <-]. rewrite (Hid _ _ Hl).
      rewrite list_lookup_insert_eq by exact Hlt. eexists. split; [reflexivity|].
      split; reflexivity.
    + rewrite (board_get_set _ _ _ _ _ x' y' Hclear).
      destruct (decide _) as [|Hold]; [discriminate|].
      intros Hget. destruct (Hcells _ _ _ Hget) as (q & Hq & Hx & Hy).
      exists q. split; [|auto].
      rewrite list_lookup_insert_ne; [exact Hq|].
      intros <-. rewrite Hl in Hq. injection Hq as <-. apply Hold. auto.
Qed.

Lemma combatLoop_same_place (attacker defender : ref) (fuel : nat) :
  forall turn opponent h h' strikes,
  combatLoop fuel attacker defender turn opponent h = Ret (h', strikes) ->
  Forall2 same_place h h'.
Proof.
  induction fuel as [|fuel IH]; intros turn opponent h h' strikes H;
    [discriminate|].
  cbn [combatLoop] in H.
  destruct (deref h attacker) as [pa|e]; [|discriminate]. cbn [obind] in H.
  destruct (deref h defender) as [pd|e]; [|discriminate]. cbn [obind] in H.
  destruct (_ && _); [|injection H as <- _; apply same_place_refl].
  destruct (deref h turn) as [pt|e]; [|discriminate]. cbn [obind] in H.
  destruct (deref h opponent) as [po|e] eqn:Hpo; [|discriminate]. cbn [obind] in H.
  unfold deref in Hpo. destruct (h !! opponent) as [po0|] eqn:Hl; [|discriminate].
  injection Hpo as ->. rewrite (store_Some _ _ _ _ Hl) in H. cbn [obind] in H.
  assert (Hstep : Forall2 same_place h
            (<[opponent := Pixel.set_hp po
                 (Pixel.hp po - Z.max 1 (Genes.attack (Pixel.genes pt)
                                         - Genes.defense (Pixel.genes po)))]> h)).
  { eapply same_place_store; [exact Hl|]. repeat split. }
  destruct (_ <=? 0); [injection H as <- _; exact Hstep|].
  destruct (combatLoop fuel _ _ _ _ _) as [[h'' later]|e] eqn:Hrec; [|discriminate].
  cbn [obind] in H. injection H as <- _.
  eapply same_place_trans; [exact Hstep|]. eapply IH, Hrec.
Qed.

Lemma duel_same_place attacker defender h h' strikes :
  duel attacker defender h = Ret (h', strikes) -> Forall2 same_place h h'.
Proof.
  unfold duel. intros H.
  destruct (deref h attacker) as [pa|e]; [|discriminate]. cbn [obind] in H.
  destruct (deref h defender) as [pd|e]; [|discriminate]. cbn [obind] in H.
  eapply combatLoop_same_place, H.
Qed.

Lemma tidy_logCombat winner loser w w' :
  tidy w -> logCombat winner loser w = Ret w' -> tidy w'.
Proof.
  intros Ht H. unfold logCombat in H.
  destruct (deref (heap w) winner) as [pw|e]; [|discriminate]. cbn [obind] in H.
  destruct (deref (heap w) loser) as [pl|e]; [|discriminate]. cbn [obind] in H.
  injection H as <-. eapply tidy_same; [exact Ht| | |]; reflexivity.
Qed.

Lemma tidy_tryOffsets parent : forall cands w t w' t',
  tidy w -> tryOffsets cands parent w t = Ret (w', t') -> tidy w'.
Proof.
  induction cands as [|[dx dy] cands IH]; intros w t w' t' Ht H.
  - injection H as <- _. exact Ht.
  - cbn [tryOffsets] in H.
    destruct (deref (heap w) parent) as [p|e]; [|discriminate]. cbn [obind] in H.
    destruct (_ || _); [eapply IH; eassumption|].
    destruct (board_get _ _ _) as [c|e]; [|discriminate]. cbn [obind] in H.
    destruct (truthy c); [eapply IH; eassumption|].
    destruct (mutateGenes _ _) as [[g t1]|e]; [|discriminate]. cbn [obind] in H.
    destruct (newPixel _ _ _ _ _) as [[child w1]|e] eqn:Hnew; [|discriminate].
    cbn [obind] in H.
    destruct (placePixel child w1) as [[ok w2]|e] eqn:Hplace; [|discriminate].
    cbn [obind] in H. injection H as <- _.
    destruct (tidy_newPixel _ _ _ _ _ _ _ Ht Hnew) as [Ht1 _].
    eapply tidy_placePixel; eassumption.
Qed.

Lemma tidy_createOffspring parent w t w' t' :
  tidy w -> createOffspring parent w t = Ret (w', t') -> tidy w'.
Proof.
  unfold createOffspring. intros Ht H.
  destruct (shuffle offsets t) as [[shuffled t1]|e]; [|discriminate].
  cbn [obind] in H. eapply tidy_tryOffsets; eassumption.
Qed.

Lemma tidy_resolveCombat attacker defender w t winner w' t' :
  tidy w -> resolveCombat attacker defender w t = Ret (winner, w', t') ->
  tidy w'.
Proof.
  unfold resolveCombat. intros Ht H.
  destruct (duel _ _ _) as [[h strikes]|e] eqn:Hduel; [|discriminate].
  cbn [obind] in H.
  pose proof (tidy_heap w h Ht (duel_same_place _ _ _ _ _ Hduel)) as Ht1.
  destruct (deref _ attacker) as [pa|e]; [|discriminate]. cbn [obind] in H.
  destruct (logCombat _ _ _) as [w2|e] eqn:Hlog; [|discriminate]. cbn [obind] in H.
  pose proof (tidy_logCombat _ _ _ _ Ht1 Hlog) as Ht2.
  destruct (deref (heap w2) _) as [pl|e]; [|discriminate]. cbn [obind] in H.
  match type of H with
  | obind ?m _ = _ => destruct m as [w3|e] eqn:Hrem; [|discriminate]
  end.
  cbn [obind] in H.
  assert (Ht3 : tidy w3).
  { destruct (Pixel.hp pl <=? 0).
    - eapply tidy_removePixel; eassumption.
    - injection Hrem as <-. exact Ht2. }
  destruct (deref (heap w3) _) as [pw|e] eqn:Hpw; [|discriminate]. cbn [obind] in H.
  unfold deref in Hpw.
  destruct (heap w3 !! _) as [pw0|] eqn:Hl; [|discriminate]. injection Hpw as ->.
  rewrite (store_Some _ _ _ _ Hl) in H. cbn [obind] in H.
  destruct (createOffspring _ _ _) as [[w5 t5]|e] eqn:Hspawn; [|discriminate].
  cbn [obind] in H. injection H as _ <- _.
  eapply tidy_createOffspring; [|exact Hspawn].
  apply tidy_heap; [exact Ht3|].
  eapply same_place_store; [exact Hl|]. repeat split.
Qed.

Lemma tidy_subStep pixel w t f w' t' :
  tidy w -> subStep pixel w t = Ret (f, w', t') -> tidy w'.
Proof.
  unfold subStep. intros Ht H.
  destruct (Math_random t) as [[r t1]|e]; [|discriminate]. cbn [obind] in H.
  destruct (choose directions r) as [dir|e]; [|discriminate]. cbn [obind] in H.
  destruct (deref (heap w) pixel) as [p|e]; [|discriminate]. cbn [obind] in H.
  destruct (_ && _); [injection H as _ <- _; exact Ht|].
  destruct (board_get _ _ _) as [occupantId|e]; [|discriminate]. cbn [obind] in H.
  destruct (negb (truthy occupantId)).
  - destruct (moveTo _ _ _ _) as [w1|e] eqn:Hmove; [|discriminate].
    cbn [obind] in H. injection H as _ <- _. eapply tidy_moveTo; eassumption.
  - destruct occupantId as [[|occupant]|]; try (injection H as _ <- _; exact Ht).
    destruct (negb _); [|injection H as _ <- _; exact Ht].
    destruct (map_get _ _) as [opponent|]; [|injection H as _ <- _; exact Ht].
    destruct (deref (heap w) opponent) as [po|e]; [|discriminate]. cbn [obind] in H.
    destruct (String.eqb _ _); [injection H as _ <- _; exact Ht|].
    destruct (resolveCombat _ _ _ _) as [[[winner w1] t2]|e] eqn:Hres; [|discriminate].
    cbn [obind] in H.
    pose proof (tidy_resolveCombat _ _ _ _ _ _ _ Ht Hres) as Ht1.
    destruct (deref (heap w1) winner) as [pw|e]; [|discriminate]. cbn [obind] in H.
    destruct (deref (heap w1) pixel) as [p1|e]; [|discriminate]. cbn [obind] in H.
    destruct (_ =? _)%nat; [|injection H as _ <- _; exact Ht1].
    destruct (moveTo _ _ _ _) as [w2|e] eqn:Hmove; [|discriminate].
    cbn [obind] in H. injection H as _ <- _. eapply tidy_moveTo; eassumption.
Qed.

Lemma tidy_subSteps pixel (n : nat) : forall w t w' t',
  tidy w -> subSteps n pixel w t = Ret (w', t') -> tidy w'.
Proof.
  induction n as [|n IH]; intros w t w' t' Ht H.
  - injection H as <- _. exact Ht.
  - cbn [subSteps] in H.
    destruct (subStep pixel w t) as [[[f w1] t1]|e] eqn:Hstep; [|discriminate].
    cbn [obind] in H. pose proof (tidy_subStep _ _ _ _ _ _ Ht Hstep) as Ht1.
    destruct f; [eapply IH; eassumption|injection H as <- _; exact Ht1].
Qed.

Lemma tidy_pixelTurn pixel w t w' t' :
  tidy w -> pixelTurn pixel w t = Ret (w', t') -> tidy w'.
Proof.
  unfold pixelTurn. intros Ht H.
  destruct (deref (heap w) pixel) as [p|e]; [|discriminate]. cbn [obind] in H.
  destruct (negb _); [injection H as <- _; exact Ht|].
  eapply tidy_subSteps; eassumption.
Qed.

Lemma tidy_pixelTurns : forall currentPixels w t w' t',
  tidy w -> pixelTurns currentPixels w t = Ret (w', t') -> tidy w'.
Proof.
  induction currentPixels as [|pixel rest IH]; intros w t w' t' Ht H.
  - injection H as <- _. exact Ht.
  - cbn [pixelTurns] in H.
    destruct (pixelTurn pixel w t) as [[w1 t1]|e] eqn:Hturn; [|discriminate].
    cbn [obind] in H. eapply IH; [|exact H]. eapply tidy_pixelTurn; eassumption.
Qed.

(** Every tick keeps a tidy world tidy. *)
Lemma tidy_stepSimulation w t w' t' :
  tidy w -> stepSimulation w t = Ret (w', t') -> tidy w'.
Proof.
  unfold stepSimulation. intros Ht H.
  destruct (shuffle _ t) as [[currentPixels t1]|e]; [|discriminate].
  cbn [obind] in H. eapply tidy_pixelTurns; eassumption.
Qed.

Lemma tidy_seedPixel x y g pop w w' :
  tidy w -> seedPixel x y g pop w = Ret w' -> tidy w'.
Proof.
  unfold seedPixel. intros Ht H.
  destruct (newPixel _ _ _ _ _) as [[pixel w1]|e] eqn:Hnew; [|discriminate].
  cbn [obind] in H.
  destruct (placePixel pixel w1) as [[ok w2]|e] eqn:Hplace; [|discriminate].
  cbn [obind] in H. injection H as <-.
  destruct (tidy_newPixel _ _ _ _ _ _ _ Ht Hnew) as [Ht1 _].
  eapply tidy_placePixel; eassumption.
Qed.

Lemma tidy_seedPopulation g baseX baseY pop (n : nat) : forall w t w' t',
  tidy w -> seedPopulation n g baseX baseY pop w t = Ret (w', t') -> tidy w'.
Proof.
  induction n as [|n IH]; intros w t w' t' Ht H.
  - injection H as <- _. exact Ht.
  - cbn [seedPopulation] in H.
    destruct (Math_random t) as [[r1 t1]|e]; [|discriminate]. cbn [obind] in H.
    destruct (Math_random t1) as [[r2 t2]|e]; [|discriminate]. cbn [obind] in H.
    destruct (seedPixel _ _ _ _ _) as [w1|e] eqn:Hseed; [|discriminate].
    cbn [obind] in H. eapply IH; [|exact H]. eapply tidy_seedPixel; eassumption.
Qed.

Lemma tidy_seedPopulations (n : nat) : forall pop w t w' t',
  tidy w -> seedPopulations n pop w t = Ret (w', t') -> tidy w'.
Proof.
  induction n as [|n IH]; intros pop w t w' t' Ht H.
  - injection H as <- _. exact Ht.
  - cbn [seedPopulations] in H.
    destruct (randomGenes _ t) as [[g t0]|e]; [|discriminate]. cbn [obind] in H.
    destruct (Math_random t0) as [[r1 t1]|e]; [|discriminate]. cbn [obind] in H.
    destruct (Math_random t1) as [[r2 t2]|e]; [|discriminate]. cbn [obind] in H.
    destruct (seedPopulation _ _ _ _ _ _ _) as [[w1 t3]|e] eqn:Hseed; [|discriminate].
    cbn [obind] in H. eapply IH; [|exact H]. eapply tidy_seedPopulation; eassumption.
Qed.

(** The world seeded by [setup()] is tidy. *)
Lemma tidy_initialisePopulations t w' t' :
  initialisePopulations initial_world t = Ret (w', t') -> tidy w'.
Proof. apply tidy_seedPopulations, tidy_initial. Qed.

(** ** What the truthiness test gets right *)

(** [placePixel] on a cell whose content is truthy (an id other than 0). *)
Lemma placePixel_occupied (pixel : ref) (w : World) (p : Pixel.t) (c : option cell) :
  heap w !! pixel = Some p ->
  board_get (board w) (Pixel.x p) (Pixel.y p) = Ret c -> truthy c = true ->
  placePixel pixel w = Ret (false, w).
Proof.
  intros Hp Hget Hc. unfold placePixel.
  rewrite (deref_Some _ _ _ Hp). cbn [obind]. rewrite Hget. cbn [obind].
  rewrite Hc. reflexivity.
Qed.

(** [placePixel] on a cell whose content is falsy. *)
Lemma placePixel_free (pixel : ref) (w : World) (p : Pixel.t) (c : option cell) :
  heap w !! pixel = Some p ->
  board_get (board w) (Pixel.x p) (Pixel.y p) = Ret c -> truthy c = false ->
  exists b,
    board_set (board w) (Pixel.x p) (Pixel.y p) (Id (Pixel.id p)) = Ret b
    /\ placePixel pixel w
       = Ret (true, mkWorld b (heap w) (map_set (pixels w) (Pixel.id p) pixel)
                      (pixelIdCounter w) (combatLogs w))
    /\ board_get b (Pixel.x p) (Pixel.y p) = Ret (Some (Id (Pixel.id p)))
    /\ map_get (map_set (pixels w) (Pixel.id p) pixel) (Pixel.id p) = Some pixel.
Proof.
  intros Hp Hget Hc. unfold placePixel.
  rewrite (deref_Some _ _ _ Hp). cbn [obind]. rewrite Hget. cbn [obind]. rewrite Hc.
  destruct (board_set (board w) (Pixel.x p) (Pixel.y p) (Id (Pixel.id p)))
    as [b|e] eqn:Hset.
  - exists b. split; [reflexivity|]. split; [reflexivity|]. split.
    + rewrite (board_get_set _ _ _ _ _ (Pixel.x p) (Pixel.y p) Hset).
      rewrite decide_True by auto. reflexivity.
    + rewrite map_get_set, decide_True by reflexivity. reflexivity.
  - exfalso. unfold board_get in Hget. unfold board_set in Hset.
    destruct (Pixel.y p <? 0); [discriminate|].
    destruct (board w !! Z.to_nat (Pixel.y p)); discriminate.
Qed.

(** A sub-step whose target cell holds a registered pixel with an id other
    than 0 and the gene code of the mover changes nothing. *)
Lemma subStep_same_code_skips (pixel : ref) (w : World) (r : sample) (t : tape)
    (p po : Pixel.t) (dir : Z * Z) (k : nat) (opponent : ref) :
  heap w !! pixel = Some p -> choose directions r = Ret dir ->
  let nx := clamp (Pixel.x p + dir.1) 0 (gridSize - 1) in
  let ny := clamp (Pixel.y p + dir.2) 0 (gridSize - 1) in
  (nx =? Pixel.x p) && (ny =? Pixel.y p) = false ->
  board_get (board w) nx ny = Ret (Some (Id (S k))) ->
  map_get (pixels w) (S k) = Some opponent -> heap w !! opponent = Some po ->
  Pixel.geneCode p = Pixel.geneCode po ->
  subStep pixel w (r :: t) = Ret (Continue, w, t).
Proof.
  intros Hp Hdir nx ny Hmoves Hget Hreg Hpo Hcode. unfold subStep.
  cbn [Math_random obind]. rewrite Hdir. cbn [obind].
  rewrite (deref_Some _ _ _ Hp). cbn [obind].
  fold nx ny. rewrite Hmoves, Hget. cbn [obind truthy negb].
  destruct (S k =? Pixel.id p)%nat; cbn [negb]; [reflexivity|].
  rewrite Hreg, (deref_Some _ _ _ Hpo). cbn [obind].
  rewrite Hcode, String.eqb_refl. reflexivity.
Qed.

(** A sub-step whose target cell holds the id of a registered pixel with
    the gene code of the mover never leads to combat: it continues the
    loop, and the registry, the combat log and the stored object of the
    other pixel are as before. *)
Lemma subStep_same_code_no_combat (pixel : ref) (w : World) (r : sample)
    (t : tape) (p po : Pixel.t) (dir : Z * Z) (k : nat) (opponent : ref)
    (f : flow) (w' : World) (t' : tape) :
  heap w !! pixel = Some p -> choose directions r = Ret dir ->
  let nx := clamp (Pixel.x p + dir.1) 0 (gridSize - 1) in
  let ny := clamp (Pixel.y p + dir.2) 0 (gridSize - 1) in
  board_get (board w) nx ny = Ret (Some (Id k)) ->
  map_get (pixels w) k = Some opponent -> heap w !! opponent = Some po ->
  pixel <> opponent ->
  Pixel.geneCode p = Pixel.geneCode po ->
  subStep pixel w (r :: t) = Ret (f, w', t') ->
  f = Continue /\ t' = t /\ pixels w' = pixels w
  /\ combatLogs w' = combatLogs w /\ heap w' !! opponent = Some po.
Proof.
  intros Hp Hdir nx ny Hget Hreg Hpo Hne Hcode. unfold subStep.
  cbn [Math_random obind]. rewrite Hdir. cbn [obind].
  rewrite (deref_Some _ _ _ Hp). cbn [obind]. fold nx ny.
  destruct (_ && _); [intros [= <- <- <-]; auto|].
  rewrite Hget. cbn [obind].
  destruct k as [|k]; cbn [truthy negb].
  - unfold moveTo. rewrite (deref_Some _ _ _ Hp). cbn [obind].
    destruct (board_set _ _ _ Null) as [b1|e]; [|discriminate]. cbn [obind].
    rewrite (store_Some _ _ _ _ Hp). cbn [obind].
    destruct (board_set b1 _ _ _) as [b2|e]; [|discriminate]. cbn [obind].
    intros [= <- <- <-]. cbn [pixels combatLogs heap with_heap with_board].
    rewrite list_lookup_insert_ne by exact Hne. auto.
  - destruct (S k =? Pixel.id p)%nat; cbn [negb];
      [intros [= <- <- <-]; auto|].
    rewrite Hreg, (deref_Some _ _ _ Hpo). cbn [obind].
    rewrite Hcode, String.eqb_refl. intros [= <- <- <-]; auto.
Qed.

Lemma swap_Forall {A} (P : A -> Prop) (i j : nat) (array : list A) :
  Forall P array -> Forall P (swap i j array).
Proof.
  intros H. unfold swap.
  destruct (array !! i) as [ai|] eqn:Hi; [|exact H].
  destruct (array !! j) as [aj|] eqn:Hj; [|exact H].
  apply Forall_insert; [apply Forall_insert; [exact H|]|].
  - eapply Forall_lookup_1; eassumption.
  - eapply Forall_lookup_1; eassumption.
Qed.

Lemma shuffle_from_Forall {A} (P : A -> Prop) (i : nat) :
  forall (array array' : list A) (t t' : tape),
  Forall P array -> shuffle_from i array t = Ret (array', t') -> Forall P array'.
Proof.
  induction i as [|i IH]; intros array array' t t' H E.
  - injection E as <- _. exact H.
  - cbn [shuffle_from] in E. destruct t as [|r t]; [discriminate|].
    cbn [Math_random obind] in E. eapply IH; [|exact E].
    apply swap_Forall, H.
Qed.

Lemma tryOffsets_all_passed (parent : ref) (w : World) (p : Pixel.t) (t : tape) :
  heap w !! parent = Some p ->
  forall cands, Forall (passed_over w p) cands ->
  tryOffsets cands parent w t = Ret (w, t).
Proof.
  intros Hp. induction cands as [|[dx dy] cands IH]; intros H; [reflexivity|].
  apply Forall_cons in H as [Hc Hrest]. cbn [tryOffsets].
  rewrite (deref_Some _ _ _ Hp). cbn [obind].
  destruct Hc as [Hout|(c & Hget & Hc)]; cbn [fst snd] in *.
  - rewrite Hout. apply IH, Hrest.
  - destruct (_ || _); [apply IH, Hrest|].
    rewrite Hget. cbn [obind]. rewrite Hc. apply IH, Hrest.
Qed.

(** When every candidate cell is off the board or holds an id other than
    0, [createOffspring] changes nothing, whatever the order drawn. *)
Lemma createOffspring_blocked (parent : ref) (w : World) (p : Pixel.t) (t : tape) :
  heap w !! parent = Some p -> Forall (passed_over w p) offsets ->
  (11 <= length t)%nat ->
  createOffspring parent w t = Ret (w, drop 11 t).
Proof.
  intros Hp Hall Hlen. unfold createOffspring, shuffle.
  destruct (shuffle_from_Ret (length offsets - 1) offsets t) as [shuffled E];
    [simpl; lia|].
  rewrite E. cbn [obind].
  apply (tryOffsets_all_passed parent w p); [exact Hp|].
  eapply shuffle_from_Forall; eassumption.
Qed.

(** ** The examples *)

(** Closes a goal by evaluating it. *)
Ltac by_vm := vm_compute; reflexivity.

(** A run that returns, named by what it returns. *)
Lemma returns_world (o : outcome World) :
  match o with Ret _ => True | Err _ => False end -> o = Ret (world_of o).
Proof. destruct o; [reflexivity|contradiction]. Qed.

Lemma returns_pair {A B} (o : outcome (A * B)) (d : A) (b : B) :
  match o with Ret (_, b') => b' = b | Err _ => False end ->
  o = Ret (match o with Ret (a, _) => a | Err _ => d end, b).
Proof. destruct o as [[a b']|e]; [intros ->; reflexivity|contradiction]. Qed.

Lemma returns_second {A B} (o : outcome (A * B)) (a : A) (d : B) :
  match o with Ret (a', _) => a' = a | Err _ => False end ->
  o = Ret (a, match o with Ret (_, b) => b | Err _ => d end).
Proof. destruct o as [[a' b]|e]; [intros ->; reflexivity|contradiction]. Qed.

Lemma returns_triple {A B C} (o : outcome (A * B * C)) (a : A) (d : B) (c : C) :
  match o with Ret (a', _, c') => a' = a /\ c' = c | Err _ => False end ->
  o = Ret (a, match o with Ret (_, b, _) => b | Err _ => d end, c).
Proof.
  destruct o as [[[a' b] c']|e]; [intros [-> ->]; reflexivity|contradiction].
Qed.

(** Closes [run = Ret (..., world, ...)] for a world defined as what the run
    returns, evaluating only the other components. *)
Ltac by_run :=
  first
    [ apply returns_world; vm_compute; exact I
    | apply (returns_pair _ initial_world); vm_compute; reflexivity
    | apply (returns_second _ _ initial_world); vm_compute; reflexivity
    | apply (returns_triple _ _ initial_world); vm_compute; split; reflexivity ].

Lemma arena_seeded : seeded arena_pixels initial_world = Ret arena.
Proof. by_run. Qed.

Lemma arena_consistent : occupancy_consistent arena.
Proof. apply occupancy_check_sound. by_vm. Qed.

Lemma faster_pixel_strikes_first_witness :
  1%nat <> 2%nat /\
  heap arena !! 1%nat = Some arena_strong /\
  heap arena !! 2%nat = Some arena_weak /\
  0 < Pixel.hp arena_strong /\ 0 < Pixel.hp arena_weak /\
  exists (first second : ref) (pf ps : Pixel.t) (n m : nat)
         (later : list strike),
    (first = 1%nat /\ second = 2%nat /\ pf = arena_strong /\ ps = arena_weak
     \/ first = 2%nat /\ second = 1%nat /\ pf = arena_weak /\ ps = arena_strong)
    /\ (Genes.speed (Pixel.genes arena_strong)
        > Genes.speed (Pixel.genes arena_weak) -> first = 1%nat)
    /\ (Genes.speed (Pixel.genes arena_strong)
        < Genes.speed (Pixel.genes arena_weak) -> first = 2%nat)
    /\ (Genes.speed (Pixel.genes arena_strong)
        = Genes.speed (Pixel.genes arena_weak) -> first = 1%nat)
    /\ duel 1 2 (heap arena)
       = Ret (<[first := Pixel.set_hp pf
                           (Pixel.hp pf - Z.of_nat m * damageOf ps pf)]>
                (<[second := Pixel.set_hp ps
                               (Pixel.hp ps - Z.of_nat n * damageOf pf ps)]>
                   (heap arena)),
              Strike first second (damageOf pf ps) :: later)
    /\ 1 <= damageOf pf ps
    /\ (1 <= n)%nat /\ (m = n \/ S m = n)
    /\ (Pixel.hp ps <= damageOf pf ps -> n = 1%nat /\ m = 0%nat).
Proof.
  assert (Hne : 1%nat <> 2%nat) by lia.
  assert (Ha : heap arena !! 1%nat = Some arena_strong) by by_vm.
  assert (Hd : heap arena !! 2%nat = Some arena_weak) by by_vm.
  assert (Hpa : 0 < Pixel.hp arena_strong) by (simpl; lia).
  assert (Hpd : 0 < Pixel.hp arena_weak) by (simpl; lia).
  split; [exact Hne|]. split; [exact Ha|]. split; [exact Hd|].
  split; [exact Hpa|]. split; [exact Hpd|].
  exact (faster_pixel_strikes_first 1 2 (heap arena) arena_strong arena_weak
           Hne Ha Hd Hpa Hpd).
Defined.

Lemma resolveCombat_terminates_witness :
  1%nat <> 2%nat /\
  heap arena !! 1%nat = Some arena_strong /\
  heap arena !! 2%nat = Some arena_weak /\
  0 < Pixel.hp arena_strong /\ 0 < Pixel.hp arena_weak /\
  Genes.nonneg (Pixel.genes arena_strong) /\
  Genes.nonneg (Pixel.genes arena_weak) /\
  Genes.total (Pixel.genes arena_strong) < arrayLimit /\
  Genes.total (Pixel.genes arena_weak) < arrayLimit /\
  has_rows (board arena) /\ in_bounds arena_strong /\ in_bounds arena_weak /\
  exists (h' : list Pixel.t) (strikes : list strike)
         (winner loser : ref) (pw pl pw' pl' : Pixel.t),
    duel 1 2 (heap arena) = Ret (h', strikes)
    /\ (winner = 1%nat /\ loser = 2%nat /\ pw = arena_strong /\ pl = arena_weak
        \/ winner = 2%nat /\ loser = 1%nat /\ pw = arena_weak
           /\ pl = arena_strong)
    /\ (1 <= length strikes)%nat
    /\ Z.of_nat (length strikes) <= 2 * Pixel.hp pl
    /\ h' !! winner = Some pw' /\ 0 < Pixel.hp pw'
    /\ h' !! loser = Some pl' /\ Pixel.hp pl' <= 0
    /\ forall t : tape,
         safe (fun rwt : ref * World * tape => rwt.1.1 = winner)
              (resolveCombat 1 2 arena t)
         /\ ((11 <= length t)%nat ->
             (exists g' t', mutateGenes (Pixel.genes pw) (drop 11 t)
                            = Ret (g', t')) ->
             exists w' t', resolveCombat 1 2 arena t = Ret (winner, w', t')).
Proof.
  assert (Hne : 1%nat <> 2%nat) by lia.
  assert (Ha : heap arena !! 1%nat = Some arena_strong) by by_vm.
  assert (Hd : heap arena !! 2%nat = Some arena_weak) by by_vm.
  assert (Hpa : 0 < Pixel.hp arena_strong) by (simpl; lia).
  assert (Hpd : 0 < Pixel.hp arena_weak) by (simpl; lia).
  assert (Hga : Genes.nonneg (Pixel.genes arena_strong))
    by (unfold Genes.nonneg; simpl; lia).
  assert (Hgd : Genes.nonneg (Pixel.genes arena_weak))
    by (unfold Genes.nonneg; simpl; lia).
  assert (Hsa : Genes.total (Pixel.genes arena_strong) < arrayLimit)
    by (vm_compute; reflexivity).
  assert (Hsd : Genes.total (Pixel.genes arena_weak) < arrayLimit)
    by (vm_compute; reflexivity).
  assert (Hrows : has_rows (board arena)) by (unfold has_rows; by_vm).
  assert (Hba : in_bounds arena_strong) by (unfold in_bounds, gridSize; simpl; lia).
  assert (Hbd : in_bounds arena_weak) by (unfold in_bounds, gridSize; simpl; lia).
  split; [exact Hne|]. split; [exact Ha|]. split; [exact Hd|].
  split; [exact Hpa|]. split; [exact Hpd|]. split; [exact Hga|].
  split; [exact Hgd|]. split; [exact Hsa|]. split; [exact Hsd|].
  split; [exact Hrows|]. split; [exact Hba|]. split; [exact Hbd|].
  exact (resolveCombat_terminates 1 2 arena arena_strong arena_weak
           Hne Ha Hd Hpa Hpd Hga Hgd Hsa Hsd Hrows Hba Hbd).
Defined.

Lemma resolveCombat_removes_loser_heals_winner_witness :
  1%nat <> 2%nat /\
  heap arena !! 1%nat = Some arena_strong /\
  heap arena !! 2%nat = Some arena_weak /\
  0 < Pixel.hp arena_strong /\ 0 < Pixel.hp arena_weak /\
  (Pixel.id arena_strong < pixelIdCounter arena)%nat /\
  (Pixel.id arena_weak < pixelIdCounter arena)%nat /\
  only_at (board arena) arena_strong /\ only_at (board arena) arena_weak /\
  resolveCombat 1 2 arena combat_tape = Ret (1%nat, arena_fought, []) /\
  exists (loser : ref) (pw pl : Pixel.t),
    (1%nat = 1%nat /\ loser = 2%nat /\ Pixel.id pl = Pixel.id arena_weak
     \/ 1%nat = 2%nat /\ loser = 1%nat /\ Pixel.id pl = Pixel.id arena_strong)
    /\ heap arena_fought !! loser = Some pl /\ Pixel.hp pl <= 0
    /\ map_get (pixels arena_fought) (Pixel.id pl) = None
    /\ (forall x y,
          board_get (board arena_fought) x y <> Ret (Some (Id (Pixel.id pl))))
    /\ heap arena_fought !! 1%nat = Some pw /\ Pixel.hp pw = Pixel.maxHp pw.
Proof.
  assert (Hne : 1%nat <> 2%nat) by lia.
  assert (Ha : heap arena !! 1%nat = Some arena_strong) by by_vm.
  assert (Hd : heap arena !! 2%nat = Some arena_weak) by by_vm.
  assert (Hpa : 0 < Pixel.hp arena_strong) by (simpl; lia).
  assert (Hpd : 0 < Pixel.hp arena_weak) by (simpl; lia).
  assert (Hfa : (Pixel.id arena_strong < pixelIdCounter arena)%nat)
    by (vm_compute; lia).
  assert (Hfd : (Pixel.id arena_weak < pixelIdCounter arena)%nat)
    by (vm_compute; lia).
  assert (Hoa : only_at (board arena) arena_strong).
  { apply (occupancy_only_at arena 1);
      [exact arena_consistent | by_vm | exact Ha]. }
  assert (Hod : only_at (board arena) arena_weak).
  { apply (occupancy_only_at arena 2);
      [exact arena_consistent | by_vm | exact Hd]. }
  assert (Hres : resolveCombat 1 2 arena combat_tape = Ret (1%nat, arena_fought, []))
    by by_run.
  repeat (split; [assumption|]).
  exact (resolveCombat_removes_loser_heals_winner 1 2 arena combat_tape
           arena_strong arena_weak 1 arena_fought []
           Hne Ha Hd Hpa Hpd Hfa Hfd Hoa Hod Hres).
Defined.

(** The seeding loop of [initialisePopulations] on samples that are all 0:
    its first two pixels both go to (0, 0), the second over the first, and
    both are registered. *)
Lemma seeding_overwrites_pixel_zero :
  seedPopulation 2 weak 0 0 0 initial_world (repeat zero 4)
  = Ret (twice_seeded, [])
  /\ pixels twice_seeded = [(0%nat, 0%nat); (1%nat, 1%nat)]
  /\ heap twice_seeded !! 0%nat = Some (Pixel.mk 0 0 0 weak 0 1 1 "AAADDDDH")
  /\ heap twice_seeded !! 1%nat = Some (Pixel.mk 1 0 0 weak 0 1 1 "AAADDDDH")
  /\ board_get (board twice_seeded) 0 0 = Ret (Some (Id 1))
  /\ occupancy_check twice_seeded = false.
Proof.
  split; [by_run|]. repeat (split; [by_vm|]). by_vm.
Qed.

(** C3, counterexample to the bound as stated. Two pixels with attack 1
    and defense 0, pixel 0 with 3 hp and the first turn, pixel 1 with 4 hp:
    the duel takes 6 turns, more than the 3 hp the loser (pixel 0) started
    with. *)
Lemma duel_outlasts_loser_hp :
  exists (pa pd pa' : Pixel.t) (h' : list Pixel.t) (strikes : list strike),
    heap evenly_matched !! 0%nat = Some pa
    /\ heap evenly_matched !! 1%nat = Some pd
    /\ 0 <= Genes.attack (Pixel.genes pa) /\ 0 <= Genes.defense (Pixel.genes pa)
    /\ 0 <= Genes.attack (Pixel.genes pd) /\ 0 <= Genes.defense (Pixel.genes pd)
    /\ Pixel.hp pa = 3 /\ 0 < Pixel.hp pd
    /\ duel 0 1 (heap evenly_matched) = Ret (h', strikes)
    /\ h' !! 0%nat = Some pa' /\ Pixel.hp pa' <= 0
    /\ length strikes = 6%nat
    /\ ~ Z.of_nat (length strikes) <= Pixel.hp pa.
Proof.
  exists (Pixel.mk 0 0 0 (Genes.mk 1 0 4 3) 0 3 3 "ASSSSHHH"),
         (Pixel.mk 1 1 0 (Genes.mk 1 0 3 4) 1 4 4 "ASSSHHHH"),
         (Pixel.mk 0 0 0 (Genes.mk 1 0 4 3) 0 3 0 "ASSSSHHH").
  eexists _, _.
  split; [vm_compute; reflexivity|]. split; [vm_compute; reflexivity|].
  cbn [Pixel.genes Pixel.hp Genes.attack Genes.defense].
  split; [lia|]. split; [lia|]. split; [lia|]. split; [lia|].
  split; [reflexivity|]. split; [lia|].
  split; [vm_compute; reflexivity|].
  split; [reflexivity|]. split; [lia|]. split; [reflexivity|].
  simpl. lia.
Qed.

(** C1. One tick on a consistent world breaks occupancy consistency. On
    [arena], pixel 1 attacks pixel 2 at (1, 0) and wins; the offspring
    (pixel 3) is placed on the cell pixel 2 left, and pixel 1 then moves
    onto that cell.  Afterwards pixel 3 is registered with position (1, 0),
    while that cell holds the id of pixel 1. *)
Theorem tick_breaks_occupancy :
  seeded arena_pixels initial_world = Ret arena
  /\ occupancy_consistent arena
  /\ stepSimulation arena arena_tape = Ret (arena_after, [])
  /\ map_get (pixels arena_after) 3 = Some 3%nat
  /\ heap arena_after !! 3%nat = Some (Pixel.mk 3 1 0 strong 1 1 1 "AAAAAASH")
  /\ heap arena_after !! 1%nat = Some (Pixel.mk 1 1 0 strong 1 1 1 "AAAAAASH")
  /\ board_get (board arena_after) 1 0 = Ret (Some (Id 1))
  /\ ~ occupancy_consistent arena_after.
Proof.
  split; [exact arena_seeded|]. split; [exact arena_consistent|].
  split; [by_run|]. split; [by_vm|].
  assert (Hchild : heap arena_after !! 3%nat
                   = Some (Pixel.mk 3 1 0 strong 1 1 1 "AAAAAASH"))
    by by_vm.
  assert (Hcell : board_get (board arena_after) 1 0 = Ret (Some (Id 1)))
    by by_vm.
  split; [exact Hchild|]. split; [by_vm|].
  split; [exact Hcell|].
  intros [Hreg _]. destruct (Hreg 3%nat 3%nat) as (p & Hp & _ & Hat).
  { by_vm. }
  rewrite Hchild in Hp. injection Hp as <-.
  cbn [Pixel.x Pixel.y] in Hat. rewrite Hcell in Hat. discriminate.
Qed.

(** C2. [placePixel] on a cell occupied by pixel 0: the cell (0, 0) holds
    id 0 and pixel 0 is registered, yet placing pixel 1 there returns
    [true], writes id 1 over it and registers pixel 1. *)
Theorem placePixel_overwrites_pixel_zero :
  seeded [(0, 0, weak, 0)] initial_world = Ret lone
  /\ newPixel 0 0 strong 1 lone = Ret (1%nat, lone_visited)
  /\ heap lone_visited !! 1%nat = Some (Pixel.mk 1 0 0 strong 1 1 1 "AAAAAASH")
  /\ board_get (board lone_visited) 0 0 = Ret (Some (Id 0))
  /\ map_get (pixels lone_visited) 0 = Some 0%nat
  /\ placePixel 1 lone_visited = Ret (true, lone_overwritten)
  /\ board_get (board lone_overwritten) 0 0 = Ret (Some (Id 1))
  /\ map_get (pixels lone_overwritten) 1 = Some 1%nat
  /\ lone_overwritten <> lone_visited.
Proof.
  repeat (split; [first [by_run|by_vm]|]).
  intros E.
  assert (H : map_get (pixels lone_overwritten) 1 = map_get (pixels lone_visited) 1)
    by (rewrite E; reflexivity).
  vm_compute in H. discriminate.
Qed.

(** C6. A sub-step towards pixel 0 of the same gene code: pixel 1 at
    (1, 0) draws the direction (-1, 0); the cell (0, 0) holds the living
    pixel 0, whose gene code is that of pixel 1.  The sub-step is not
    skipped: pixel 1 moves onto (0, 0) and its id replaces id 0 there.  No
    combat takes place. *)
Theorem same_code_substep_moves_onto_pixel_zero :
  seeded [(0, 0, weak, 0); (1, 0, weak, 0)] initial_world = Ret kin
  /\ heap kin !! 0%nat = Some (Pixel.mk 0 0 0 weak 0 1 1 "AAADDDDH")
  /\ heap kin !! 1%nat = Some (Pixel.mk 1 1 0 weak 0 1 1 "AAADDDDH")
  /\ map_get (pixels kin) 0 = Some 0%nat
  /\ board_get (board kin) 0 0 = Ret (Some (Id 0))
  /\ choose directions eighth = Ret (-1, 0)
  /\ subStep 1 kin [eighth] = Ret (Continue, kin_after, [])
  /\ heap kin_after !! 1%nat = Some (Pixel.mk 1 0 0 weak 0 1 1 "AAADDDDH")
  /\ heap kin_after !! 0%nat = Some (Pixel.mk 0 0 0 weak 0 1 1 "AAADDDDH")
  /\ map_get (pixels kin_after) 0 = Some 0%nat
  /\ board_get (board kin_after) 0 0 = Ret (Some (Id 1))
  /\ board_get (board kin_after) 1 0 = Ret (Some Null)
  /\ combatLogs kin_after = [].
Proof.
  repeat (split; [first [by_run|by_vm]|]). by_vm.
Qed.


(** * Further properties of the code *)

(** ** [clamp] *)

(** X1. With [min <= max], [clamp] returns a value between [min] and [max],
    and returns [value] itself when it already lies between them. *)
Theorem clamp_between (value min max : Z) :
  min <= max ->
  min <= clamp value min max <= max
  /\ (min <= value <= max -> clamp value min max = value).
Proof. unfold clamp. intros H. split; [lia|intros Hv; lia]. Qed.

Lemma clamp_between_witness :
  0 <= 49 /\ 0 <= clamp (-1) 0 49 <= 49
  /\ (0 <= -1 <= 49 -> clamp (-1) 0 49 = -1).
Proof. split; [lia|]. apply (clamp_between (-1) 0 49). lia. Defined.

(** ** [shuffle] *)

Lemma swap_Permutation {A} (i j : nat) (array : list A) :
  swap i j array ≡ₚ array.
Proof.
  unfold swap. destruct (array !! i) as [ai|] eqn:Hi; [|reflexivity].
  destruct (array !! j) as [aj|] eqn:Hj; [|reflexivity].
  apply Permutation_insert_swap; assumption.
Qed.

Lemma shuffle_from_Permutation {A} (i : nat) : forall (array : list A) (t : tape),
  (i <= length t)%nat ->
  exists array', shuffle_from i array t = Ret (array', drop i t)
                 /\ array' ≡ₚ array.
Proof.
  induction i as [|i IH]; intros array t Hlen.
  - exists array. simpl. rewrite drop_0. split; reflexivity.
  - destruct t as [|r t]; [simpl in Hlen; lia|].
    cbn [shuffle_from Math_random obind].
    destruct (IH (swap (S i) (floorMul r (S i + 1)) array) t) as (array' & E & P);
      [simpl in Hlen; lia|].
    exists array'. split; [exact E|]. rewrite P. apply swap_Permutation.
Qed.

Lemma shuffle_from_starves {A} (i : nat) : forall (array : list A) (t : tape),
  (length t < i)%nat -> shuffle_from i array t = Err NoEntropy.
Proof.
  induction i as [|i IH]; intros array t Hlen; [lia|].
  destruct t as [|r t]; [reflexivity|].
  cbn [shuffle_from Math_random obind]. apply IH. simpl in Hlen. lia.
Qed.

(** X2. [shuffle] returns a permutation of the array and draws one sample
    for each position but the first ([length - 1] samples, none for an
    empty array); with fewer samples left it does not return. *)
Theorem shuffle_permutes {A} (array : list A) (t : tape) :
  ((length array - 1 <= length t)%nat ->
   exists array', shuffle array t = Ret (array', drop (length array - 1) t)
                  /\ array' ≡ₚ array)
  /\ ((length t < length array - 1)%nat -> shuffle array t = Err NoEntropy).
Proof.
  split; intros H.
  - apply shuffle_from_Permutation, H.
  - apply shuffle_from_starves, H.
Qed.

Lemma shuffle_permutes_witness :
  (length [1; 2; 3] - 1 <= length [zero; half])%nat
  /\ exists array',
       shuffle [1; 2; 3] [zero; half]
       = Ret (array', drop (length [1; 2; 3] - 1) [zero; half])
       /\ array' ≡ₚ [1; 2; 3].
Proof.
  assert (H : (length [1; 2; 3] - 1 <= length [zero; half])%nat) by (simpl; lia).
  split; [exact H|].
  exact (proj1 (shuffle_permutes [1; 2; 3] [zero; half]) H).
Defined.

(** ** The candidate offsets *)

(** X3. The two nested loops of [createOffspring] produce exactly the
    offsets at Manhattan distance 1 or 2, each once: 12 candidates. *)
Theorem offsets_characterised :
  (forall dx dy : Z, (dx, dy) ∈ offsets <-> 1 <= Z.abs dx + Z.abs dy <= 2)
  /\ NoDup offsets /\ length offsets = 12%nat.
Proof.
  split; [|split].
  - intros dx dy. split.
    + intros H. apply list_elem_of_In in H. vm_compute in H.
      repeat (destruct H as [H|H]; [injection H as <- <-; lia|]).
      contradiction.
    + intros H.
      assert (Hx : dx = -2 \/ dx = -1 \/ dx = 0 \/ dx = 1 \/ dx = 2) by lia.
      assert (Hy : dy = -2 \/ dy = -1 \/ dy = 0 \/ dy = 1 \/ dy = 2) by lia.
      apply list_elem_of_In.
      destruct Hx as [->|[->|[->|[->| ->]]]];
        destruct Hy as [->|[->|[->|[->| ->]]]];
        try (exfalso; lia); vm_compute; tauto.
  - apply (bool_decide_unpack _). vm_compute. exact I.
  - reflexivity.
Qed.

(** ** Gene codes *)





(** X5. A gene vector with a negative count in any category has no code:
    [Array(n)] raises [RangeError]. *)
Theorem genesToCode_rejects_negative (g : Genes.t) (ty : GeneType) :
  Genes.get g ty < 0 -> genesToCode g = Err RangeError.
Proof. apply genesToCode_negative. Qed.

Lemma genesToCode_rejects_negative_witness :
  Genes.get (Genes.mk 1 (-1) 0 1) Defense < 0
  /\ genesToCode (Genes.mk 1 (-1) 0 1) = Err RangeError.
Proof.
  assert (H : Genes.get (Genes.mk 1 (-1) 0 1) Defense < 0) by (simpl; lia).
  split; [exact H|].
  exact (genesToCode_rejects_negative (Genes.mk 1 (-1) 0 1) Defense H).
Defined.

(** ** [randomGenes], category by category *)

Lemma get_set_incr (g : Genes.t) (ty ty' : GeneType) :
  Genes.get (Genes.set g ty (Genes.get g ty + 1)) ty'
  = Genes.get g ty' + (if bool_decide (ty = ty') then 1 else 0).
Proof. destruct g, ty, ty'; simpl; lia. Qed.

Lemma distribute_counts (n : nat) : forall (g : Genes.t) (t : tape),
  (n <= length t)%nat ->
  exists g', distribute n g t = Ret (g', drop n t)
             /\ forall ty, Genes.get g' ty
                           = Genes.get g ty + Z.of_nat (selections ty (take n t)).
Proof.
  induction n as [|n IH]; intros g t Hlen.
  - exists g. simpl. rewrite drop_0. split; [reflexivity|].
    intros ty. rewrite take_0. unfold selections. simpl. lia.
  - destruct t as [|r t]; [simpl in Hlen; lia|].
    cbn [distribute Math_random obind].
    destruct (choose_GENE_TYPES r) as (ty0 & -> & L). cbn [obind].
    destruct (IH (Genes.set g ty0 (Genes.get g ty0 + 1)) t) as (g' & E & C).
    { simpl in Hlen. lia. }
    exists g'. split; [exact E|]. intros ty. rewrite C, get_set_incr.
    unfold selections. cbn [take List.filter]. rewrite L.
    destruct (bool_decide_reflect (ty0 = ty)) as [->|Hne].
    + rewrite bool_decide_true by reflexivity. cbn [length]. lia.
    + rewrite bool_decide_false by congruence. lia.
Qed.

(** X6. [randomGenes(total)] counts the draws: each category gets as many
    units as there are samples, among the first [total], that select it;
    only hp is raised to 1 when no sample selects it. *)
Theorem randomGenes_counts (total : Z) (t : tape) :
  0 <= total -> (Z.to_nat total <= length t)%nat ->
  exists g,
    randomGenes total t = Ret (g, drop (Z.to_nat total) t)
    /\ (forall ty, ty <> Hp ->
          Genes.get g ty
          = Z.of_nat (selections ty (take (Z.to_nat total) t)))
    /\ Genes.hp g
       = Z.max 1 (Z.of_nat (selections Hp (take (Z.to_nat total) t))).
Proof.
  intros Htot Hlen.
  destruct (distribute_counts (Z.to_nat total) (Genes.mk 0 0 0 0) t Hlen)
    as (g0 & E & C).
  unfold randomGenes. rewrite E. cbn [obind].
  pose proof (C Hp) as Chp. cbn [Genes.get Genes.hp] in Chp.
  destruct (Z.eqb_spec (Genes.hp g0) 0) as [Hz|Hnz].
  - exists (Genes.set g0 Hp 1). split; [reflexivity|]. split.
    + intros ty Hty. pose proof (C ty) as Cty.
      destruct g0, ty; simpl in *; try congruence; lia.
    + simpl. lia.
  - exists g0. split; [reflexivity|]. split.
    + intros ty _. rewrite C. destruct ty; simpl; lia.
    + lia.
Qed.

Lemma randomGenes_counts_witness :
  0 <= 3 /\ (Z.to_nat 3 <= length [zero; quarter; zero])%nat
  /\ exists g,
       randomGenes 3 [zero; quarter; zero]
       = Ret (g, drop (Z.to_nat 3) [zero; quarter; zero])
       /\ (forall ty, ty <> Hp ->
             Genes.get g ty
             = Z.of_nat (selections ty (take (Z.to_nat 3) [zero; quarter; zero])))
       /\ Genes.hp g
          = Z.max 1 (Z.of_nat (selections Hp
                                 (take (Z.to_nat 3) [zero; quarter; zero]))).
Proof.
  assert (H0 : 0 <= 3) by lia.
  assert (H1 : (Z.to_nat 3 <= length [zero; quarter; zero])%nat) by (simpl; lia).
  split; [exact H0|]. split; [exact H1|].
  exact (randomGenes_counts 3 [zero; quarter; zero] H0 H1).
Defined.

(** ** [mutateGenes], unit by unit *)

Lemma fromTypes_nil (g : Genes.t) :
  Genes.attack g <= 0 -> Genes.defense g <= 0 -> Genes.speed g <= 0 ->
  Genes.hp g <= 1 -> fromTypes g = [].
Proof.
  intros Ha Hd Hs Hh. destruct g as [a d s h]. unfold fromTypes; simpl in *.
  destruct (Z.gtb_spec a 0); [lia|]. destruct (Z.gtb_spec d 0); [lia|].
  destruct (Z.gtb_spec s 0); [lia|]. destruct (Z.gtb_spec h 1); [lia|].
  reflexivity.
Qed.

(** X7. [mutateGenes] returns its input unchanged, after a single sample,
    when that sample is not below [mutationChance], and also when no
    category is above its floor (attack, defense and speed at 0 or less, hp
    at 1 or less). *)
Theorem mutateGenes_unchanged (g : Genes.t) (r : sample) (t : tape) :
  below r 1 5 = false
  \/ (Genes.attack g <= 0 /\ Genes.defense g <= 0 /\ Genes.speed g <= 0
      /\ Genes.hp g <= 1) ->
  mutateGenes g (r :: t) = Ret (g, t).
Proof.
  intros H. unfold mutateGenes. cbn [Math_random obind fst snd mutationChance].
  destruct H as [->|(Ha & Hd & Hs & Hh)]; [reflexivity|].
  rewrite (fromTypes_nil g Ha Hd Hs Hh). destruct (below r 1 5); reflexivity.
Qed.

Lemma mutateGenes_unchanged_witness :
  (below half 1 5 = false
   \/ (Genes.attack strong <= 0 /\ Genes.defense strong <= 0
       /\ Genes.speed strong <= 0 /\ Genes.hp strong <= 1))
  /\ mutateGenes strong [half; zero] = Ret (strong, [zero]).
Proof.
  assert (H : below half 1 5 = false
              \/ (Genes.attack strong <= 0 /\ Genes.defense strong <= 0
                  /\ Genes.speed strong <= 0 /\ Genes.hp strong <= 1))
    by (left; reflexivity).
  split; [exact H|]. exact (mutateGenes_unchanged strong half [zero] H).
Defined.

Lemma get_move (g : Genes.t) (from to ty : GeneType) :
  from <> to ->
  let g1 := Genes.set g from (Genes.get g from - 1) in
  Genes.get (Genes.set g1 to (Genes.get g1 to + 1)) ty
  = Genes.get g ty
    + (if bool_decide (ty = to) then 1 else 0)
    - (if bool_decide (ty = from) then 1 else 0).
Proof.
  intros Hne. destruct g, from, to, ty; simpl; try lia; congruence.
Qed.

(** X8. Whenever [mutateGenes] returns, its result is the input itself or
    the input with exactly one unit moved: one category that was above its
    floor (1 for hp, 0 for the others) loses 1, a different category gains
    1, and the other two keep their counts. *)
Theorem mutateGenes_moves_one_unit (g g' : Genes.t) (t t' : tape) :
  mutateGenes g t = Ret (g', t') ->
  g' = g
  \/ exists from to : GeneType,
       from <> to
       /\ (if bool_decide (from = Hp) then 1 else 0) < Genes.get g from
       /\ Genes.get g' from = Genes.get g from - 1
       /\ Genes.get g' to = Genes.get g to + 1
       /\ forall ty, ty <> from -> ty <> to -> Genes.get g' ty = Genes.get g ty.
Proof.
  unfold mutateGenes. destruct t as [|r t]; [discriminate|]. cbn [Math_random obind].
  destruct (below r _ _); [|intros [= <- <-]; auto].
  destruct (0 <? length (fromTypes g))%nat eqn:Hlen; [|intros [= <- <-]; auto].
  destruct t as [|r2 t]; [discriminate|]. cbn [Math_random obind].
  destruct (choose_Ret (fromTypes g) r2) as (from & E & Hin).
  { intros Hnil. rewrite Hnil in Hlen. discriminate. }
  rewrite E. cbn [obind].
  destruct (drawTo from t) as [[to t3]|e] eqn:D; [|discriminate]. cbn [obind].
  intros [= <- <-]. right. exists from, to.
  pose proof (drawTo_differs _ _ _ _ D) as Hne.
  assert (Hne' : from <> to) by congruence.
  split; [exact Hne'|]. split; [apply fromTypes_elem, Hin|].
  split; [|split].
  - rewrite (get_move g from to from Hne').
    rewrite bool_decide_false by exact Hne'.
    rewrite bool_decide_true by reflexivity. lia.
  - rewrite (get_move g from to to Hne').
    rewrite bool_decide_true by reflexivity.
    rewrite bool_decide_false by exact Hne. lia.
  - intros ty H1 H2. rewrite (get_move g from to ty Hne').
    rewrite !bool_decide_false by assumption. lia.
Qed.

Lemma mutateGenes_moves_one_unit_witness :
  mutateGenes strong [zero; zero; zero; quarter] = Ret (Genes.mk 5 1 1 1, [])
  /\ (Genes.mk 5 1 1 1 = strong
      \/ exists from to : GeneType,
           from <> to
           /\ (if bool_decide (from = Hp) then 1 else 0) < Genes.get strong from
           /\ Genes.get (Genes.mk 5 1 1 1) from = Genes.get strong from - 1
           /\ Genes.get (Genes.mk 5 1 1 1) to = Genes.get strong to + 1
           /\ forall ty, ty <> from -> ty <> to ->
                Genes.get (Genes.mk 5 1 1 1) ty = Genes.get strong ty).
Proof.
  assert (E : mutateGenes strong [zero; zero; zero; quarter]
              = Ret (Genes.mk 5 1 1 1, [])) by reflexivity.
  split; [exact E|].
  exact (mutateGenes_moves_one_unit strong (Genes.mk 5 1 1 1)
           [zero; zero; zero; quarter] [] E).
Defined.

(** ** Placing and removing *)

(** X9. [placePixel] succeeds exactly when what the target cell holds is
    falsy.  On a truthy cell it returns [false] and changes nothing.
    Otherwise it returns [true]; the cell then holds the id of the pixel,
    the registry maps that id to the pixel, and every other cell, every
    other registry entry, the objects and the id counter are as before. *)
Theorem placePixel_spec (pixel : ref) (w : World) (p : Pixel.t) (c : option cell) :
  heap w !! pixel = Some p ->
  board_get (board w) (Pixel.x p) (Pixel.y p) = Ret c ->
  (truthy c = true -> placePixel pixel w = Ret (false, w))
  /\ (truthy c = false ->
      exists w',
        placePixel pixel w = Ret (true, w')
        /\ board_get (board w') (Pixel.x p) (Pixel.y p)
           = Ret (Some (Id (Pixel.id p)))
        /\ map_get (pixels w') (Pixel.id p) = Some pixel
        /\ (forall x y, ~ (Pixel.x p = x /\ Pixel.y p = y) ->
              board_get (board w') x y = board_get (board w) x y)
        /\ (forall k, k <> Pixel.id p ->
              map_get (pixels w') k = map_get (pixels w) k)
        /\ heap w' = heap w /\ pixelIdCounter w' = pixelIdCounter w).
Proof.
  intros Hp Hget. split; intros Hc.
  - eapply placePixel_occupied; eassumption.
  - destruct (placePixel_free pixel w p c Hp Hget Hc) as (b & Hset & E & Hcell & Hreg).
    eexists. split; [exact E|]. cbn [board pixels heap pixelIdCounter].
    split; [exact Hcell|]. split; [exact Hreg|]. split; [|split; [|split; reflexivity]].
    + intros x y Hne. rewrite (board_get_set _ _ _ _ _ x y Hset).
      rewrite decide_False by exact Hne. reflexivity.
    + intros k Hk. rewrite map_get_set. rewrite decide_False by congruence.
      reflexivity.
Qed.

Lemma placePixel_spec_witness :
  heap lone_visited !! 1%nat = Some (Pixel.mk 1 0 0 strong 1 1 1 "AAAAAASH")
  /\ board_get (board lone_visited) 0 0 = Ret (Some (Id 0))
  /\ (truthy (Some (Id 0)) = false ->
      exists w',
        placePixel 1 lone_visited = Ret (true, w')
        /\ board_get (board w') 0 0 = Ret (Some (Id 1))
        /\ map_get (pixels w') 1 = Some 1%nat
        /\ (forall x y, ~ (0 = x /\ 0 = y) ->
              board_get (board w') x y = board_get (board lone_visited) x y)
        /\ (forall k, k <> 1%nat ->
              map_get (pixels w') k = map_get (pixels lone_visited) k)
        /\ heap w' = heap lone_visited
        /\ pixelIdCounter w' = pixelIdCounter lone_visited).
Proof.
  assert (Hp : heap lone_visited !! 1%nat
               = Some (Pixel.mk 1 0 0 strong 1 1 1 "AAAAAASH")) by by_vm.
  assert (Hget : board_get (board lone_visited) 0 0 = Ret (Some (Id 0))) by by_vm.
  split; [exact Hp|]. split; [exact Hget|].
  exact (proj2 (placePixel_spec 1 lone_visited _ _ Hp Hget)).
Defined.

Lemma map_delete_set_fresh (m : Registry) (k : nat) (v : ref) :
  map_get m k = None -> map_delete (map_set m k v) k = m.
Proof.
  induction m as [|[k0 v0] m IH]; simpl.
  - intros _. rewrite Nat.eqb_refl. reflexivity.
  - destruct (Nat.eqb_spec k0 k) as [->|Hne]; [discriminate|].
    intros H. simpl. destruct (Nat.eqb_spec k0 k); [contradiction|].
    rewrite IH by exact H. reflexivity.
Qed.

(** X10. Placing a pixel on a cell that holds [null], under an id the
    registry does not have, and then removing it gives back the world it
    started from. *)
Theorem place_then_remove (pixel : ref) (w : World) (p : Pixel.t) :
  heap w !! pixel = Some p ->
  board_get (board w) (Pixel.x p) (Pixel.y p) = Ret (Some Null) ->
  map_get (pixels w) (Pixel.id p) = None ->
  exists w1, placePixel pixel w = Ret (true, w1) /\ removePixel pixel w1 = Ret w.
Proof.
  intros Hp Hget Hreg.
  destruct (placePixel_free pixel w p _ Hp Hget eq_refl) as (b & Hset & E & _ & _).
  eexists. split; [exact E|].
  unfold removePixel. cbn [heap board pixels]. rewrite (deref_Some _ _ _ Hp).
  cbn [obind]. unfold board_get in Hget. unfold board_set in *.
  destruct (Pixel.y p <? 0); [discriminate|].
  destruct (board w !! Z.to_nat (Pixel.y p)) as [r|] eqn:Hr; [|discriminate].
  injection Hset as <-. injection Hget as Hcell.
  rewrite list_lookup_insert_eq by (eapply lookup_lt_Some, Hr).
  cbn [obind]. rewrite list_insert_insert_eq, insert_insert_eq.
  rewrite (insert_id r _ _ Hcell), (list_insert_id _ _ _ Hr).
  cbn [with_pixels with_board board heap pixels pixelIdCounter combatLogs].
  rewrite (map_delete_set_fresh _ _ _ Hreg). destruct w; reflexivity.
Qed.

Lemma place_then_remove_witness :
  heap lone_visited !! 0%nat = Some (Pixel.mk 0 0 0 weak 0 1 1 "AAADDDDH")
  /\ exists w0 w1,
       heap w0 !! 0%nat = Some (Pixel.mk 0 0 0 weak 0 1 1 "AAADDDDH")
       /\ placePixel 0 w0 = Ret (true, w1) /\ removePixel 0 w1 = Ret w0.
Proof.
  assert (Hp : heap lone_visited !! 0%nat
               = Some (Pixel.mk 0 0 0 weak 0 1 1 "AAADDDDH")) by by_vm.
  split; [exact Hp|].
  exists (mkWorld empty_board (heap lone_visited) [] 2 []).
  assert (Hget : board_get empty_board 0 0 = Ret (Some Null)) by by_vm.
  destruct (place_then_remove 0 (mkWorld empty_board (heap lone_visited) [] 2 [])
              _ Hp Hget eq_refl) as (w1 & E1 & E2).
  exists w1. split; [exact Hp|]. split; assumption.
Defined.

(** X11. A pixel whose [y] is not the index of a row of the board cannot
    be placed or removed: both calls raise [TypeError]. *)
Theorem no_row_raises (pixel : ref) (w : World) (p : Pixel.t) :
  heap w !! pixel = Some p ->
  Pixel.y p < 0 \/ Z.of_nat (length (board w)) <= Pixel.y p ->
  placePixel pixel w = Err TypeError /\ removePixel pixel w = Err TypeError.
Proof.
  intros Hp Hy. unfold placePixel, removePixel, board_get, board_set.
  rewrite (deref_Some _ _ _ Hp). cbn [obind].
  destruct (Z.ltb_spec (Pixel.y p) 0) as [|Hge]; [split; reflexivity|].
  rewrite (lookup_ge_None_2 (board w) (Z.to_nat (Pixel.y p))) by lia.
  split; reflexivity.
Qed.

Lemma no_row_raises_witness :
  [Pixel.mk 0 0 50 weak 0 1 1 "AAADDDDH"] !! 0%nat
  = Some (Pixel.mk 0 0 50 weak 0 1 1 "AAADDDDH")
  /\ placePixel 0 (mkWorld empty_board [Pixel.mk 0 0 50 weak 0 1 1 "AAADDDDH"]
                     [] 1 []) = Err TypeError
  /\ removePixel 0 (mkWorld empty_board [Pixel.mk 0 0 50 weak 0 1 1 "AAADDDDH"]
                      [] 1 []) = Err TypeError.
Proof.
  split; [reflexivity|].
  apply (no_row_raises 0
           (mkWorld empty_board [Pixel.mk 0 0 50 weak 0 1 1 "AAADDDDH"] [] 1 [])
           (Pixel.mk 0 0 50 weak 0 1 1 "AAADDDDH")); [reflexivity|].
  right. cbn [board Pixel.y]. vm_compute. discriminate.
Defined.

(** ** The combat log *)

(** X12. [logCombat] appends the entry "<winner code> kill <loser code>"
    (with "?" for an empty code) and keeps the newest 20 entries: the log
    grows by one until it has 20 entries and then stays at 20, the new entry
    is its last one, and nothing else in the world changes. *)
Theorem logCombat_caps (winner loser : ref) (w : World) (pw pl : Pixel.t) :
  heap w !! winner = Some pw -> heap w !! loser = Some pl ->
  let entry := (or_unknown (Pixel.geneCode pw) ++ " kill "
                ++ or_unknown (Pixel.geneCode pl))%string in
  exists logs,
    logCombat winner loser w = Ret (with_logs w logs)
    /\ logs = drop (S (length (combatLogs w)) - 20) (combatLogs w ++ [entry])
    /\ length logs = Nat.min 20 (S (length (combatLogs w)))
    /\ last logs = Some entry.
Proof.
  intros Hw Hl entry. unfold logCombat.
  rewrite (deref_Some _ _ _ Hw), (deref_Some _ _ _ Hl). cbn [obind].
  fold entry. set (logs := combatLogs w ++ [entry]).
  assert (Hlen : length logs = S (length (combatLogs w))).
  { unfold logs. rewrite length_app. simpl. lia. }
  exists (drop (S (length (combatLogs w)) - 20) logs).
  split; [|split; [reflexivity|split]].
  - rewrite Hlen. destruct (Nat.ltb_spec 20 (S (length (combatLogs w)))) as [Hgt|Hle].
    + reflexivity.
    + replace (S (length (combatLogs w)) - 20)%nat with 0%nat by lia.
      rewrite drop_0. reflexivity.
  - rewrite length_drop, Hlen. lia.
  - rewrite last_lookup, lookup_drop, length_drop, Hlen.
    replace (S (length (combatLogs w)) - 20
             + Nat.pred (S (length (combatLogs w))
                         - (S (length (combatLogs w)) - 20)))%nat
      with (length (combatLogs w)) by lia.
    unfold logs. apply list_lookup_middle. reflexivity.
Qed.

Lemma logCombat_caps_witness :
  heap arena !! 1%nat = Some arena_strong /\ heap arena !! 2%nat = Some arena_weak
  /\ exists logs,
       logCombat 1 2 arena = Ret (with_logs arena logs)
       /\ logs = drop (S (length (combatLogs arena)) - 20)
                   (combatLogs arena
                    ++ [(or_unknown (Pixel.geneCode arena_strong) ++ " kill "
                         ++ or_unknown (Pixel.geneCode arena_weak))%string])
       /\ length logs = Nat.min 20 (S (length (combatLogs arena)))
       /\ last logs = Some (or_unknown (Pixel.geneCode arena_strong) ++ " kill "
                            ++ or_unknown (Pixel.geneCode arena_weak))%string.
Proof.
  assert (Ha : heap arena !! 1%nat = Some arena_strong) by by_vm.
  assert (Hd : heap arena !! 2%nat = Some arena_weak) by by_vm.
  split; [exact Ha|]. split; [exact Hd|].
  exact (logCombat_caps 1 2 arena arena_strong arena_weak Ha Hd).
Defined.

(** ** The duel, strike by strike *)

(** X13. The duel between two distinct living pixels, strike by strike.
    It is opened by the pixel chosen by the speed rule and is a strict
    alternation of strikes; every strike of a pixel deals the same damage,
    [max(1, attack - defense of the other)], so at least 1; each pixel's
    hp after the duel is its hp before minus the damage it received, and no
    other object changes.  The duel runs until a pixel is at [hp <= 0] and
    no further: the last strike brings the pixel it hits from a positive hp
    to [hp <= 0], and the pixel that deals it is still alive. *)
Theorem duel_accounts (attacker defender : ref) (h : list Pixel.t)
    (pa pd : Pixel.t) :
  attacker <> defender ->
  h !! attacker = Some pa -> h !! defender = Some pd ->
  0 < Pixel.hp pa -> 0 < Pixel.hp pd ->
  exists (first second : ref) (pf ps : Pixel.t) (strikes later : list strike),
    (first = attacker /\ second = defender /\ pf = pa /\ ps = pd
     \/ first = defender /\ second = attacker /\ pf = pd /\ ps = pa)
    /\ first = firstOf attacker defender pa pd
    /\ strikes = Strike first second (damageOf pf ps) :: later
    /\ 1 <= damageOf pf ps /\ 1 <= damageOf ps pf
    /\ duel attacker defender h
       = Ret (<[first := Pixel.set_hp pf
                           (Pixel.hp pf - received first strikes)]>
                (<[second := Pixel.set_hp ps
                                (Pixel.hp ps - received second strikes)]> h),
              strikes)
    /\ volleys first second (damageOf pf ps) (damageOf ps pf) strikes
    /\ (last strikes = Some (Strike first second (damageOf pf ps))
        /\ Pixel.hp ps - received second strikes <= 0
        /\ 0 < Pixel.hp ps - received second strikes + damageOf pf ps
        /\ 0 < Pixel.hp pf - received first strikes
        \/ last strikes = Some (Strike second first (damageOf ps pf))
           /\ Pixel.hp pf - received first strikes <= 0
           /\ 0 < Pixel.hp pf - received first strikes + damageOf ps pf
           /\ 0 < Pixel.hp ps - received second strikes).
Proof.
  intros Hne Ha Hd Hpa Hpd.
  destruct (duel_plays attacker defender h pa pd Hne Ha Hd Hpa Hpd)
    as (first & second & pf & ps & hf & hs & n & m & later
        & Hroles & F & E & Ehf & Ehs & Rf & Rs & V & _ & Hend).
  exists first, second, pf, ps,
    (Strike first second (damageOf pf ps) :: later), later.
  rewrite Rf, Rs, <- Ehf, <- Ehs.
  split; [exact Hroles|]. split; [exact F|]. split; [reflexivity|].
  split; [unfold damageOf; lia|]. split; [unfold damageOf; lia|].
  split; [exact E|]. split; [exact V|].
  destruct Hend as [(_ & H1 & H2 & H3 & H4)|(_ & H1 & H2 & H3 & H4)];
    [left|right]; auto.
Qed.

Lemma duel_accounts_witness :
  1%nat <> 2%nat /\
  heap arena !! 1%nat = Some arena_strong /\
  heap arena !! 2%nat = Some arena_weak /\
  0 < Pixel.hp arena_strong /\ 0 < Pixel.hp arena_weak /\
  exists (first second : ref) (pf ps : Pixel.t) (strikes later : list strike),
    (first = 1%nat /\ second = 2%nat /\ pf = arena_strong /\ ps = arena_weak
     \/ first = 2%nat /\ second = 1%nat /\ pf = arena_weak /\ ps = arena_strong)
    /\ first = firstOf 1 2 arena_strong arena_weak
    /\ strikes = Strike first second (damageOf pf ps) :: later
    /\ 1 <= damageOf pf ps /\ 1 <= damageOf ps pf
    /\ duel 1 2 (heap arena)
       = Ret (<[first := Pixel.set_hp pf
                           (Pixel.hp pf - received first strikes)]>
                (<[second := Pixel.set_hp ps
                                (Pixel.hp ps - received second strikes)]>
                   (heap arena)),
              strikes)
    /\ volleys first second (damageOf pf ps) (damageOf ps pf) strikes
    /\ (last strikes = Some (Strike first second (damageOf pf ps))
        /\ Pixel.hp ps - received second strikes <= 0
        /\ 0 < Pixel.hp ps - received second strikes + damageOf pf ps
        /\ 0 < Pixel.hp pf - received first strikes
        \/ last strikes = Some (Strike second first (damageOf ps pf))
           /\ Pixel.hp pf - received first strikes <= 0
           /\ 0 < Pixel.hp pf - received first strikes + damageOf ps pf
           /\ 0 < Pixel.hp ps - received second strikes).
Proof.
  assert (Hne : 1%nat <> 2%nat) by lia.
  assert (Ha : heap arena !! 1%nat = Some arena_strong) by by_vm.
  assert (Hd : heap arena !! 2%nat = Some arena_weak) by by_vm.
  assert (Hpa : 0 < Pixel.hp arena_strong) by (simpl; lia).
  assert (Hpd : 0 < Pixel.hp arena_weak) by (simpl; lia).
  split; [exact Hne|]. split; [exact Ha|]. split; [exact Hd|].
  split; [exact Hpa|]. split; [exact Hpd|].
  exact (duel_accounts 1 2 (heap arena) arena_strong arena_weak
           Hne Ha Hd Hpa Hpd).
Defined.

(** ** Coded worlds *)

Lemma same_core_refl (p : Pixel.t) : same_core p p.
Proof. repeat split. Qed.

Lemma same_core_trans (p q r : Pixel.t) :
  same_core p q -> same_core q r -> same_core p r.
Proof. unfold same_core. intuition congruence. Qed.

Lemma heap_placePixel pixel w ok w' :
  placePixel pixel w = Ret (ok, w') -> heap w' = heap w.
Proof.
  intros H. unfold placePixel in H.
  destruct (deref (heap w) pixel) as [p|e]; [|discriminate]. cbn [obind] in H.
  destruct (board_get _ _ _) as [c|e]; [|discriminate]. cbn [obind] in H.
  destruct (truthy c); [injection H as _ <-; reflexivity|].
  destruct (board_set _ _ _ _) as [b|e]; [|discriminate]. cbn [obind] in H.
  injection H as _ <-. reflexivity.
Qed.

Lemma heap_removePixel pixel w w' :
  removePixel pixel w = Ret w' -> heap w' = heap w.
Proof.
  intros H. unfold removePixel in H.
  destruct (deref (heap w) pixel) as [p|e]; [|discriminate]. cbn [obind] in H.
  destruct (board_set _ _ _ _) as [b|e]; [|discriminate]. cbn [obind] in H.
  injection H as <-. reflexivity.
Qed.

Lemma heap_logCombat winner loser w w' :
  logCombat winner loser w = Ret w' -> heap w' = heap w.
Proof.
  intros H. unfold logCombat in H.
  destruct (deref (heap w) winner) as [pw|e]; [|discriminate]. cbn [obind] in H.
  destruct (deref (heap w) loser) as [pl|e]; [|discriminate]. cbn [obind] in H.
  injection H as <-. reflexivity.
Qed.

Lemma coded_initial : coded initial_world.
Proof. intros r p H. discriminate. Qed.

Lemma coded_same (w w' : World) : heap w' = heap w -> coded w -> coded w'.
Proof. unfold coded. intros ->. auto. Qed.

Lemma coded_heap_store (h : list Pixel.t) (r : ref) (p p' : Pixel.t) :
  coded_heap h -> h !! r = Some p -> same_core p p' -> coded_heap (<[r := p']> h).
Proof.
  intros Hc Hl (_ & Hg & _ & _ & Hcode) k q Hq.
  destruct (decide (r = k)) as [<-|Hne].
  - rewrite list_lookup_insert_eq in Hq by (eapply lookup_lt_Some, Hl).
    injection Hq as <-. rewrite <- Hg, <- Hcode. exact (Hc _ _ Hl).
  - rewrite list_lookup_insert_ne in Hq by exact Hne. exact (Hc _ _ Hq).
Qed.

Lemma coded_heap_push (h : list Pixel.t) (this : Pixel.t) :
  coded_heap h ->
  genesToCode (Pixel.genes this) = Ret (Pixel.geneCode this) ->
  Genes.total (Pixel.genes this) < arrayLimit ->
  coded_heap (h ++ [this]).
Proof.
  intros Hc Hcode Hsmall r p Hp.
  apply lookup_app_Some in Hp as [Hp|[_ Hp]]; [exact (Hc _ _ Hp)|].
  destruct (r - length h)%nat; [|destruct n; discriminate].
  injection Hp as <-. split; assumption.
Qed.

Lemma coded_newPixel x y g pop w child w1 :
  newPixel x y g pop w = Ret (child, w1) ->
  Genes.total g < arrayLimit -> coded w -> coded w1.
Proof.
  intros Hnew Hsmall Hc.
  destruct (newPixel_code _ _ _ _ _ _ _ Hnew) as (this & Hheap & Hg & Hcode).
  unfold coded. rewrite Hheap. apply coded_heap_push; [exact Hc| |];
    rewrite Hg; assumption.
Qed.

Lemma coded_seedPixel x y g pop w w' :
  seedPixel x y g pop w = Ret w' ->
  Genes.total g < arrayLimit -> coded w -> coded w'.
Proof.
  unfold seedPixel. intros H Hsmall Hc.
  destruct (newPixel _ _ _ _ _) as [[child w1]|e] eqn:Hnew; [|discriminate].
  cbn [obind] in H.
  destruct (placePixel child w1) as [[ok w2]|e] eqn:Hplace; [|discriminate].
  cbn [obind] in H. injection H as <-.
  eapply coded_same; [eapply heap_placePixel, Hplace|].
  eapply coded_newPixel; eassumption.
Qed.

Lemma coded_moveTo pixel nx ny w w' :
  moveTo pixel nx ny w = Ret w' -> coded w -> coded w'.
Proof.
  intros H Hc. unfold moveTo in H.
  destruct (deref (heap w) pixel) as [p|e] eqn:Hp; [|discriminate]. cbn [obind] in H.
  unfold deref in Hp. destruct (heap w !! pixel) as [p0|] eqn:Hl; [|discriminate].
  injection Hp as ->.
  destruct (board_set (board w) _ _ Null) as [b1|e]; [|discriminate].
  cbn [obind] in H. rewrite (store_Some _ _ _ _ Hl) in H. cbn [obind] in H.
  destruct (board_set b1 _ _ _) as [b2|e]; [|discriminate].
  cbn [obind] in H. injection H as <-. unfold coded.
  cbn [heap with_heap with_board].
  eapply coded_heap_store; [exact Hc|exact Hl|]. repeat split.
Qed.

Lemma coded_combatLoop (attacker defender : ref) (fuel : nat) :
  forall turn opponent h h' strikes,
  combatLoop fuel attacker defender turn opponent h = Ret (h', strikes) ->
  coded_heap h -> coded_heap h'.
Proof.
  induction fuel as [|fuel IH]; intros turn opponent h h' strikes H Hc;
    [discriminate|].
  cbn [combatLoop] in H.
  destruct (deref h attacker) as [pa|e]; [|discriminate]. cbn [obind] in H.
  destruct (deref h defender) as [pd|e]; [|discriminate]. cbn [obind] in H.
  destruct (_ && _); [|injection H as <- _; exact Hc].
  destruct (deref h turn) as [pt|e]; [|discriminate]. cbn [obind] in H.
  destruct (deref h opponent) as [po|e] eqn:Hpo; [|discriminate]. cbn [obind] in H.
  unfold deref in Hpo. destruct (h !! opponent) as [po0|] eqn:Hl; [|discriminate].
  injection Hpo as ->. rewrite (store_Some _ _ _ _ Hl) in H. cbn [obind] in H.
  assert (Hstep : coded_heap
            (<[opponent := Pixel.set_hp po
                 (Pixel.hp po - Z.max 1 (Genes.attack (Pixel.genes pt)
                                         - Genes.defense (Pixel.genes po)))]> h)).
  { eapply coded_heap_store; [exact Hc|exact Hl|]. repeat split. }
  destruct (_ <=? 0); [injection H as <- _; exact Hstep|].
  destruct (combatLoop fuel _ _ _ _ _) as [[h'' later]|e] eqn:Hrec; [|discriminate].
  cbn [obind] in H. injection H as <- _. eapply IH; eassumption.
Qed.

Lemma coded_duel attacker defender h h' strikes :
  duel attacker defender h = Ret (h', strikes) -> coded_heap h -> coded_heap h'.
Proof.
  unfold duel. intros H.
  destruct (deref h attacker) as [pa|e]; [|discriminate]. cbn [obind] in H.
  destruct (deref h defender) as [pd|e]; [|discriminate]. cbn [obind] in H.
  eapply coded_combatLoop, H.
Qed.

Lemma coded_tryOffsets parent : forall cands w t w' t',
  tryOffsets cands parent w t = Ret (w', t') -> coded w -> coded w'.
Proof.
  induction cands as [|[dx dy] cands IH]; intros w t w' t' H Hc.
  - injection H as <- _. exact Hc.
  - cbn [tryOffsets] in H.
    destruct (deref (heap w) parent) as [p|e] eqn:Hp; [|discriminate].
    cbn [obind] in H.
    unfold deref in Hp. destruct (heap w !! parent) as [p0|] eqn:Hl; [|discriminate].
    injection Hp as ->.
    destruct (_ || _); [eapply IH; eassumption|].
    destruct (board_get _ _ _) as [c|e]; [|discriminate]. cbn [obind] in H.
    destruct (truthy c); [eapply IH; eassumption|].
    destruct (mutateGenes _ _) as [[g t1]|e] eqn:Hmut; [|discriminate].
    cbn [obind] in H.
    destruct (newPixel _ _ _ _ _) as [[child w1]|e] eqn:Hnew; [|discriminate].
    cbn [obind] in H.
    destruct (placePixel child w1) as [[ok w2]|e] eqn:Hplace; [|discriminate].
    cbn [obind] in H. injection H as <- _.
    eapply coded_same; [eapply heap_placePixel, Hplace|].
    eapply coded_newPixel; [exact Hnew| |exact Hc].
    destruct (mutateGenes_Ret _ _ _ _ Hmut) as (-> & _).
    exact (proj2 (Hc _ _ Hl)).
Qed.

Lemma coded_createOffspring parent w t w' t' :
  createOffspring parent w t = Ret (w', t') -> coded w -> coded w'.
Proof.
  unfold createOffspring. intros H.
  destruct (shuffle offsets t) as [[shuffled t1]|e]; [|discriminate].
  cbn [obind] in H. eapply coded_tryOffsets, H.
Qed.

Lemma coded_resolveCombat attacker defender w t winner w' t' :
  resolveCombat attacker defender w t = Ret (winner, w', t') ->
  coded w -> coded w'.
Proof.
  unfold resolveCombat. intros H Hc.
  destruct (duel _ _ _) as [[h strikes]|e] eqn:Hduel; [|discriminate].
  cbn [obind] in H.
  pose proof (coded_duel _ _ _ _ _ Hduel Hc) as H1.
  destruct (deref _ attacker) as [pa|e]; [|discriminate]. cbn [obind] in H.
  destruct (logCombat _ _ _) as [w2|e] eqn:Hlog; [|discriminate]. cbn [obind] in H.
  pose proof (heap_logCombat _ _ _ _ Hlog) as H2. cbn [heap with_heap] in H2.
  destruct (deref (heap w2) _) as [pl|e]; [|discriminate]. cbn [obind] in H.
  match type of H with
  | obind ?m _ = _ => destruct m as [w3|e] eqn:Hrem; [|discriminate]
  end.
  cbn [obind] in H.
  assert (H3 : heap w3 = heap w2).
  { destruct (Pixel.hp pl <=? 0).
    - eapply heap_removePixel, Hrem.
    - injection Hrem as <-. reflexivity. }
  destruct (deref (heap w3) _) as [pw|e] eqn:Hpw; [|discriminate]. cbn [obind] in H.
  unfold deref in Hpw.
  destruct (heap w3 !! _) as [pw0|] eqn:Hl; [|discriminate]. injection Hpw as ->.
  rewrite (store_Some _ _ _ _ Hl) in H. cbn [obind] in H.
  destruct (createOffspring _ _ _) as [[w5 t5]|e] eqn:Hspawn; [|discriminate].
  cbn [obind] in H. injection H as _ <- _.
  eapply coded_createOffspring; [exact Hspawn|].
  unfold coded. cbn [heap with_heap].
  eapply coded_heap_store; [|exact Hl|repeat split].
  rewrite H3, H2. exact H1.
Qed.

Lemma coded_subStep pixel w t f w' t' :
  subStep pixel w t = Ret (f, w', t') -> coded w -> coded w'.
Proof.
  unfold subStep. intros H Hc.
  destruct (Math_random t) as [[r t1]|e]; [|discriminate]. cbn [obind] in H.
  destruct (choose directions r) as [dir|e]; [|discriminate]. cbn [obind] in H.
  destruct (deref (heap w) pixel) as [p|e]; [|discriminate]. cbn [obind] in H.
  destruct (_ && _); [injection H as _ <- _; exact Hc|].
  destruct (board_get _ _ _) as [occupantId|e]; [|discriminate]. cbn [obind] in H.
  destruct (negb (truthy occupantId)).
  - destruct (moveTo _ _ _ _) as [w1|e] eqn:Hmove; [|discriminate].
    cbn [obind] in H. injection H as _ <- _. eapply coded_moveTo; eassumption.
  - destruct occupantId as [[|occupant]|];
      try (injection H as _ <- _; exact Hc).
    destruct (negb _); [|injection H as _ <- _; exact Hc].
    destruct (map_get _ _) as [opponent|];
      [|injection H as _ <- _; exact Hc].
    destruct (deref (heap w) opponent) as [po|e]; [|discriminate]. cbn [obind] in H.
    destruct (String.eqb _ _); [injection H as _ <- _; exact Hc|].
    destruct (resolveCombat _ _ _ _) as [[[winner w1] t2]|e] eqn:Hres; [|discriminate].
    cbn [obind] in H.
    pose proof (coded_resolveCombat _ _ _ _ _ _ _ Hres Hc) as H1.
    destruct (deref (heap w1) winner) as [pw|e]; [|discriminate]. cbn [obind] in H.
    destruct (deref (heap w1) pixel) as [p1|e]; [|discriminate]. cbn [obind] in H.
    destruct (_ =? _)%nat; [|injection H as _ <- _; exact H1].
    destruct (moveTo _ _ _ _) as [w2|e] eqn:Hmove; [|discriminate].
    cbn [obind] in H. injection H as _ <- _. eapply coded_moveTo; eassumption.
Qed.

Lemma coded_subSteps pixel (n : nat) : forall w t w' t',
  subSteps n pixel w t = Ret (w', t') -> coded w -> coded w'.
Proof.
  induction n as [|n IH]; intros w t w' t' H Hc.
  - injection H as <- _. exact Hc.
  - cbn [subSteps] in H.
    destruct (subStep pixel w t) as [[[f w1] t1]|e] eqn:Hstep; [|discriminate].
    cbn [obind] in H. pose proof (coded_subStep _ _ _ _ _ _ Hstep Hc) as Hc1.
    destruct f.
    + eapply IH; eassumption.
    + injection H as <- _. exact Hc1.
Qed.

Lemma coded_pixelTurn pixel w t w' t' :
  pixelTurn pixel w t = Ret (w', t') -> coded w -> coded w'.
Proof.
  unfold pixelTurn. intros H Hc.
  destruct (deref (heap w) pixel) as [p|e]; [|discriminate]. cbn [obind] in H.
  destruct (negb _); [injection H as <- _; exact Hc|].
  eapply coded_subSteps; eassumption.
Qed.

Lemma coded_pixelTurns : forall currentPixels w t w' t',
  pixelTurns currentPixels w t = Ret (w', t') -> coded w -> coded w'.
Proof.
  induction currentPixels as [|pixel rest IH]; intros w t w' t' H Hc.
  - injection H as <- _. exact Hc.
  - cbn [pixelTurns] in H.
    destruct (pixelTurn pixel w t) as [[w1 t1]|e] eqn:Hturn; [|discriminate].
    cbn [obind] in H. eapply IH; [exact H|].
    eapply coded_pixelTurn; eassumption.
Qed.

Lemma coded_stepSimulation w t w' t' :
  stepSimulation w t = Ret (w', t') -> coded w -> coded w'.
Proof.
  unfold stepSimulation. intros H.
  destruct (shuffle _ t) as [[currentPixels t1]|e]; [|discriminate].
  cbn [obind] in H. eapply coded_pixelTurns, H.
Qed.

Lemma distribute_total (n : nat) : forall g t g' t',
  distribute n g t = Ret (g', t') -> Genes.total g' = Genes.total g + Z.of_nat n.
Proof.
  induction n as [|n IH]; intros g t g' t' H.
  - injection H as <- _. lia.
  - cbn [distribute] in H.
    destruct (Math_random t) as [[r t1]|e]; [|discriminate]. cbn [obind] in H.
    destruct (choose GENE_TYPES r) as [ty|e]; [|discriminate]. cbn [obind] in H.
    rewrite (IH _ _ _ _ H), total_set_incr. lia.
Qed.

Lemma randomGenes_small (total : Z) t g t' :
  randomGenes total t = Ret (g, t') -> Genes.total g <= Z.max 0 total + 1.
Proof.
  unfold randomGenes. intros H.
  destruct (distribute _ _ _) as [[g0 t1]|e] eqn:E; [|discriminate].
  cbn [obind] in H. injection H as <- _.
  apply distribute_total in E. change (Genes.total (Genes.mk 0 0 0 0)) with 0 in E.
  destruct (Genes.hp g0 =? 0) eqn:Hz.
  - apply Z.eqb_eq in Hz. destruct g0; unfold Genes.total in *; simpl in *. lia.
  - lia.
Qed.

Lemma coded_seedPopulation g baseX baseY pop (n : nat) : forall w t w' t',
  seedPopulation n g baseX baseY pop w t = Ret (w', t') ->
  Genes.total g < arrayLimit -> coded w -> coded w'.
Proof.
  induction n as [|n IH]; intros w t w' t' H Hsmall Hc.
  - injection H as <- _. exact Hc.
  - cbn [seedPopulation] in H.
    destruct (Math_random t) as [[r1 t1]|e]; [|discriminate]. cbn [obind] in H.
    destruct (Math_random t1) as [[r2 t2]|e]; [|discriminate]. cbn [obind] in H.
    destruct (seedPixel _ _ _ _ _) as [w1|e] eqn:Hseed; [|discriminate].
    cbn [obind] in H. eapply IH; [exact H|exact Hsmall|].
    eapply coded_seedPixel; eassumption.
Qed.

Lemma coded_seedPopulations (n : nat) : forall pop w t w' t',
  seedPopulations n pop w t = Ret (w', t') -> coded w -> coded w'.
Proof.
  induction n as [|n IH]; intros pop w t w' t' H Hc.
  - injection H as <- _. exact Hc.
  - cbn [seedPopulations] in H.
    destruct (randomGenes _ _) as [[g t0]|e] eqn:Hg; [|discriminate].
    cbn [obind] in H.
    destruct (Math_random t0) as [[r1 t1]|e]; [|discriminate]. cbn [obind] in H.
    destruct (Math_random t1) as [[r2 t2]|e]; [|discriminate]. cbn [obind] in H.
    destruct (seedPopulation _ _ _ _ _ _ _) as [[w1 t3]|e] eqn:Hseed; [|discriminate].
    cbn [obind] in H. eapply IH; [exact H|].
    eapply coded_seedPopulation; [exact Hseed| |exact Hc].
    apply randomGenes_small in Hg. unfold genesPerPixel, arrayLimit in *. lia.
Qed.

Lemma coded_initialisePopulations t w' t' :
  initialisePopulations initial_world t = Ret (w', t') -> coded w'.
Proof.
  unfold initialisePopulations. intros H.
  eapply coded_seedPopulations; [exact H|exact coded_initial].
Qed.

Lemma coded_seeded : forall (l : list (Z * Z * Genes.t * Z)) (w w' : World),
  seeded l w = Ret w' ->
  Forall (fun e : Z * Z * Genes.t * Z => Genes.total e.1.2 < arrayLimit) l ->
  coded w -> coded w'.
Proof.
  induction l as [|[[[x y] g] pop] l IH]; intros w w' H Hall Hc.
  - injection H as <-. exact Hc.
  - apply Forall_cons in Hall as [Hg Hrest]. cbn [fst snd] in Hg.
    cbn [seeded] in H.
    destruct (seedPixel x y g pop w) as [w1|e] eqn:Hseed; [|discriminate].
    cbn [obind] in H. eapply IH; [exact H|exact Hrest|].
    eapply coded_seedPixel; eassumption.
Qed.

Lemma coded_arena : coded arena.
Proof.
  eapply coded_seeded; [exact arena_seeded| |exact coded_initial].
  unfold arena_pixels, weak, strong, Genes.total, arrayLimit.
  repeat (apply Forall_cons; split;
          [cbn [fst snd Genes.attack Genes.defense Genes.speed Genes.hp]; lia|]).
  apply Forall_nil_2.
Qed.

(** ** The species test *)




(** Two facts about the same run. *)
Lemma safe_conj {A} (P Q : A -> Prop) (o : outcome A) :
  safe P o -> safe Q o -> safe (fun a => P a /\ Q a) o.
Proof. destruct o as [a|e]; simpl; auto. Qed.

(** ** Healthy worlds *)

Lemma safe_bind {A B} (P : A -> Prop) (Q : B -> Prop)
    (m : outcome A) (k : A -> outcome B) :
  safe P m -> (forall a, P a -> safe Q (k a)) -> safe Q (obind m k).
Proof. destruct m as [a|e]; simpl; auto. Qed.

Lemma safe_mono {A} (P Q : A -> Prop) (o : outcome A) :
  safe P o -> (forall a, P a -> Q a) -> safe Q o.
Proof. destruct o as [a|e]; simpl; auto. Qed.

Lemma healthy_initial : healthy initial_world.
Proof.
  split; [exact tidy_initial|]. split; [reflexivity|].
  split; [intros r p H; discriminate|]. split; [intros k r H; discriminate|].
  split; [constructor|].
  intros x y k H. exfalso. exact (null_board_get _ _ _ _ _ H).
Qed.

Lemma map_set_Forall (P : nat * ref -> Prop) (m : Registry) (k : nat) (v : ref) :
  Forall P m -> P (k, v) -> Forall P (map_set m k v).
Proof.
  intros H Hkv. induction H as [|[k0 v0] m H0 Hm IH]; simpl.
  - constructor; [exact Hkv|constructor].
  - destruct (k0 =? k)%nat; constructor; assumption.
Qed.

Lemma map_delete_Forall (P : nat * ref -> Prop) (m : Registry) (k : nat) :
  Forall P m -> Forall P (map_delete m k).
Proof.
  intros H. induction H as [|[k0 v0] m H0 _ IH]; simpl; [constructor|].
  destruct (k0 =? k)%nat; [exact IH|constructor; assumption].
Qed.

Lemma Forall_ref_mono (n n' : nat) (m : Registry) :
  (n <= n')%nat -> Forall (fun e : nat * ref => (e.2 < n)%nat) m ->
  Forall (fun e : nat * ref => (e.2 < n')%nat) m.
Proof. intros Hle H. eapply Forall_impl; [exact H|]. intros e He. simpl in *. lia. Qed.

Lemma grows_refl w : grows w w.
Proof. split; auto. Qed.

Lemma grows_trans w1 w2 w3 : grows w1 w2 -> grows w2 w3 -> grows w1 w3.
Proof. intros [A B] [C D]. split; auto. Qed.

(** Constructing a pixel in a healthy world. *)
Lemma healthy_newPixel x y g pop w :
  healthy w -> Genes.nonneg g -> Genes.total g < arrayLimit ->
  0 <= x < gridSize -> 0 <= y < gridSize ->
  exists this w1,
    newPixel x y g pop w = Ret (length (heap w), w1)
    /\ healthy w1 /\ grows w w1
    /\ heap w1 = heap w ++ [this] /\ board w1 = board w
    /\ pixels w1 = pixels w
    /\ Pixel.id this = length (heap w)
    /\ Pixel.x this = x /\ Pixel.y this = y
    /\ Pixel.hp this = Pixel.maxHp this.
Proof.
  intros (Ht & Hrows & Hobjs & Hreg & Hrefs & Hcells) Hg Hsmall Hx Hy.
  destruct (newPixel_returns x y g pop w Hg Hsmall) as (child & w1 & Hnew).
  destruct (tidy_newPixel _ _ _ _ _ _ _ Ht Hnew) as [Ht1 _].
  destruct (newPixel_Ret _ _ _ _ _ _ _ Hnew) as (code & -> & ->).
  eexists _, _. split; [exact Hnew|].
  cbn [heap board pixels pixelIdCounter Pixel.id Pixel.x Pixel.y Pixel.hp Pixel.maxHp].
  split; [|split].
  - split; [exact Ht1|]. split; [exact Hrows|].
    cbn [heap board pixels pixelIdCounter]. split; [|split; [|split]].
    + intros r p Hp. apply lookup_app_Some in Hp as [Hp|[_ Hp]]; [eapply Hobjs, Hp|].
      destruct (r - length (heap w))%nat; [|destruct n; discriminate].
      injection Hp as <-. unfold in_bounds. cbn [Pixel.x Pixel.y Pixel.genes Pixel.maxHp].
      split; [auto|]. split; [exact Hg|lia].
    + intros k r Hk. destruct (Hreg _ _ Hk) as (-> & p & Hp & Hhp).
      split; [reflexivity|]. exists p. split; [apply lookup_app_l_Some, Hp|exact Hhp].
    + eapply Forall_ref_mono; [|exact Hrefs]. rewrite length_app. lia.
    + exact Hcells.
  - split; [|auto]. intros r q Hq. apply lookup_app_l_Some, Hq.
  - destruct Ht as (Hc & _).
    split; [reflexivity|]. split; [reflexivity|]. split; [reflexivity|].
    split; [exact Hc|]. split; [reflexivity|]. split; reflexivity.
Qed.

(** Placing a pixel of full hp in a healthy world. *)
Lemma healthy_placePixel pixel w p :
  healthy w -> heap w !! pixel = Some p -> Pixel.hp p = Pixel.maxHp p ->
  exists ok w', placePixel pixel w = Ret (ok, w')
                /\ healthy w' /\ grows w w' /\ heap w' = heap w.
Proof.
  intros Hh Hp Hfull.
  pose proof Hh as (Ht & Hrows & Hobjs & Hreg & Hrefs & Hcells).
  destruct (Hobjs _ _ Hp) as ((_ & Hy) & _).
  destruct (board_get_Ret (board w) (Pixel.x p) (Pixel.y p) Hrows Hy) as [c Hget].
  assert (Hid : Pixel.id p = pixel) by (destruct Ht as (_ & Hid & _); eapply Hid, Hp).
  destruct (truthy c) eqn:Hc.
  - exists false, w. split; [eapply placePixel_occupied; eassumption|].
    split; [exact Hh|]. split; [apply grows_refl|reflexivity].
  - destruct (placePixel_free pixel w p c Hp Hget Hc) as (b & Hset & E & _ & _).
    eexists true, _. split; [exact E|]. cbn [heap]. split; [|split; [|reflexivity]].
    + split; [eapply tidy_placePixel; eassumption|].
      cbn [heap board pixels pixelIdCounter].
      split; [unfold has_rows; rewrite (board_set_rows _ _ _ _ _ Hset); exact Hrows|].
      split; [exact Hobjs|]. split; [|split].
      * intros k r. rewrite map_get_set. destruct (decide _) as [<-|Hne]; [|apply Hreg].
        intros [= <-]. split; [congruence|]. exists p. split; [exact Hp|exact Hfull].
      * apply map_set_Forall; [exact Hrefs|]. cbn [snd]. eapply lookup_lt_Some, Hp.
      * intros x y k. rewrite (board_get_set _ _ _ _ _ x y Hset), map_get_set.
        destruct (decide (Pixel.x p = x /\ Pixel.y p = y)).
        -- intros [= <-]. rewrite decide_True by reflexivity. congruence.
        -- intros Hk. destruct (decide (Pixel.id p = k)) as [<-|]; [congruence|].
           apply Hcells in Hk. exact Hk.
    + split; [auto|]. cbn [pixels]. intros k r Hk. rewrite map_get_set.
      destruct (decide _) as [<-|]; [|exact Hk].
      destruct (Hreg _ _ Hk) as (-> & _). congruence.
Qed.

Lemma healthy_seedPixel x y g pop w :
  healthy w -> Genes.nonneg g -> Genes.total g < arrayLimit ->
  0 <= x < gridSize -> 0 <= y < gridSize ->
  exists w', seedPixel x y g pop w = Ret w' /\ healthy w'
             /\ pixelIdCounter w' = S (pixelIdCounter w).
Proof.
  intros Hh Hg Hsmall Hx Hy. unfold seedPixel.
  destruct (healthy_newPixel x y g pop w Hh Hg Hsmall Hx Hy)
    as (this & w1 & -> & Hh1 & _ & Hheap & _ & _ & _ & _ & _ & Hfull).
  cbn [obind].
  assert (Hc1 : pixelIdCounter w1 = S (pixelIdCounter w)).
  { destruct Hh1 as ((Hc1 & _) & _). destruct Hh as ((Hc & _) & _).
    rewrite Hc1, Hheap, length_app, Hc. simpl. lia. }
  destruct (healthy_placePixel (length (heap w)) w1 this Hh1) as (ok & w' & -> & Hh' & _ & Hheap').
  { rewrite Hheap. apply list_lookup_middle. reflexivity. }
  { exact Hfull. }
  cbn [obind]. exists w'. split; [reflexivity|]. split; [exact Hh'|].
  destruct Hh' as ((Hc' & _) & _). rewrite Hc', Hheap'.
  destruct Hh1 as ((Hc1' & _) & _). rewrite <- Hc1'. exact Hc1.
Qed.

(** *** Seeding *)

Lemma distribute_safe (n : nat) : forall (g : Genes.t) (t : tape),
  Genes.nonneg g ->
  safe (fun gt : Genes.t * tape =>
          Genes.nonneg gt.1 /\ length gt.2 = (length t - n)%nat
          /\ (n <= length t)%nat)
       (distribute n g t).
Proof.
  induction n as [|n IH]; intros g t Hg; [simpl; split; [exact Hg|lia]|].
  destruct t as [|r t]; [reflexivity|]. cbn [distribute Math_random obind].
  destruct (choose_GENE_TYPES r) as (ty & -> & _). cbn [obind].
  eapply safe_mono; [apply IH, nonneg_set_incr, Hg|].
  intros [g' t'] (A & B & C). cbn [fst snd length] in *. split; [exact A|lia].
Qed.

Lemma randomGenes_fits (t : tape) :
  safe (fun gt : Genes.t * tape => Genes.total gt.1 < arrayLimit)
       (randomGenes genesPerPixel t).
Proof.
  destruct (randomGenes genesPerPixel t) as [[g t']|e] eqn:E.
  - apply randomGenes_small in E. simpl. unfold genesPerPixel, arrayLimit in *. lia.
  - unfold randomGenes in E.
    destruct (distribute _ _ _) as [[g0 t1]|e0] eqn:E0; [discriminate|].
    injection E as <-.
    pose proof (distribute_safe (Z.to_nat genesPerPixel) (Genes.mk 0 0 0 0) t)
      as Hs.
    rewrite E0 in Hs. apply Hs. unfold Genes.nonneg. simpl. lia.
Qed.

Lemma randomGenes_safe (total : Z) (t : tape) :
  safe (fun gt : Genes.t * tape =>
          Genes.nonneg gt.1 /\ 1 <= Genes.hp gt.1
          /\ length gt.2 = (length t - Z.to_nat total)%nat
          /\ (Z.to_nat total <= length t)%nat)
       (randomGenes total t).
Proof.
  unfold randomGenes.
  eapply safe_bind; [apply (distribute_safe _ (Genes.mk 0 0 0 0));
                     unfold Genes.nonneg; simpl; lia|].
  intros [g t1] (Hg & Hlen). cbn [fst snd] in *. simpl.
  destruct (Z.eqb_spec (Genes.hp g) 0) as [Hz|Hnz].
  - destruct g; unfold Genes.nonneg in *; simpl in *. repeat split; lia.
  - destruct Hg as (A & B & C & D). unfold Genes.nonneg.
    repeat split; try assumption; lia.
Qed.

Lemma clamp_on_board (v : Z) : 0 <= clamp v 0 (gridSize - 1) < gridSize.
Proof. unfold clamp, gridSize. lia. Qed.

Lemma healthy_seedPopulation g baseX baseY pop (n : nat) : forall w t,
  healthy w -> Genes.nonneg g -> Genes.total g < arrayLimit ->
  safe (fun wt : World * tape =>
          healthy wt.1
          /\ pixelIdCounter wt.1 = (pixelIdCounter w + n)%nat
          /\ length wt.2 = (length t - 2 * n)%nat /\ (2 * n <= length t)%nat)
       (seedPopulation n g baseX baseY pop w t).
Proof.
  induction n as [|n IH]; intros w t Hh Hg Hsmall.
  - simpl. split; [exact Hh|lia].
  - cbn [seedPopulation].
    destruct t as [|r1 [|r2 t]]; try reflexivity. cbn [Math_random obind].
    destruct (healthy_seedPixel
                (clamp (baseX + (Z.of_nat (floorMul r1 5) - 2)) 0 (gridSize - 1))
                (clamp (baseY + (Z.of_nat (floorMul r2 5) - 2)) 0 (gridSize - 1))
                g pop w Hh Hg Hsmall (clamp_on_board _) (clamp_on_board _))
      as (w1 & -> & Hh1 & Hc1).
    cbn [obind]. eapply safe_mono; [apply IH; assumption|].
    intros [w' t'] (A & B & C & D). cbn [fst snd length] in *.
    split; [exact A|]. lia.
Qed.

Lemma healthy_seedPopulations (n : nat) : forall pop w t,
  healthy w ->
  safe (fun wt : World * tape =>
          healthy wt.1
          /\ pixelIdCounter wt.1
             = (pixelIdCounter w + n * pixelsPerPopulation)%nat
          /\ length wt.2
             = (length t
                - n * (Z.to_nat genesPerPixel + 2 + 2 * pixelsPerPopulation))%nat
          /\ (n * (Z.to_nat genesPerPixel + 2 + 2 * pixelsPerPopulation)
              <= length t)%nat)
       (seedPopulations n pop w t).
Proof.
  induction n as [|n IH]; intros pop w t Hh.
  - simpl. split; [exact Hh|lia].
  - cbn [seedPopulations].
    eapply safe_bind;
      [apply safe_conj; [apply randomGenes_safe|apply randomGenes_fits]|].
    intros [g t0] ((Hg & _ & Hl0 & Hl0') & Hfits). cbn [fst snd] in *.
    destruct t0 as [|r1 [|r2 t2]]; try reflexivity. cbn [Math_random obind].
    eapply safe_bind; [apply healthy_seedPopulation; eassumption|].
    intros [w1 t3] (Hh1 & Hc1 & Hl3 & Hl3'). cbn [fst snd] in *.
    eapply safe_mono; [apply IH; exact Hh1|].
    intros [w' t'] (A & B & C & D). cbn [fst snd length] in *.
    split; [exact A|]. lia.
Qed.

(** X14. Whatever the random samples, [initialisePopulations] raises no
    error: it either stops for lack of samples or returns a healthy, coded
    world.  It then has constructed 600 pixel objects, placed or not (the
    id counter is at 600), and has drawn exactly 1260 samples. *)
Theorem initialisePopulations_healthy (t : tape) :
  safe (fun wt : World * tape =>
          healthy wt.1 /\ coded wt.1 /\ pixelIdCounter wt.1 = 600%nat
          /\ length (heap wt.1) = 600%nat
          /\ length wt.2 = (length t - 1260)%nat /\ (1260 <= length t)%nat)
       (initialisePopulations initial_world t).
Proof.
  pose proof (healthy_seedPopulations populations 0 initial_world t
                healthy_initial) as Hs.
  change (seedPopulations populations 0 initial_world t)
    with (initialisePopulations initial_world t) in Hs.
  destruct (initialisePopulations initial_world t) as [[w' t']|e] eqn:E;
    [|exact Hs].
  pose proof (coded_initialisePopulations _ _ _ E) as Hcd.
  destruct Hs as (A & B & C & D). cbn [safe fst snd] in *.
  change (pixelIdCounter initial_world) with 0%nat in B.
  change (populations * (Z.to_nat genesPerPixel + 2 + 2 * pixelsPerPopulation))%nat
    with 1260%nat in C, D.
  change (populations * pixelsPerPopulation)%nat with 600%nat in B.
  split; [exact A|]. split; [exact Hcd|]. split; [exact B|].
  split; [|split; assumption].
  destruct A as ((Hc & _) & _). rewrite <- Hc. exact B.
Qed.

(** *** Moving *)

Lemma healthy_moveTo pixel nx ny w p :
  healthy w -> heap w !! pixel = Some p ->
  map_get (pixels w) pixel = Some pixel ->
  0 <= nx < gridSize -> 0 <= ny < gridSize ->
  exists w',
    moveTo pixel nx ny w = Ret w' /\ healthy w'
    /\ pixels w' = pixels w
    /\ heap w' = <[pixel := Pixel.set_pos p nx ny]> (heap w)
    /\ board_get (board w') nx ny = Ret (Some (Id (Pixel.id p)))
    /\ (forall x y, ~ (nx = x /\ ny = y) ->
          ~ (Pixel.x p = x /\ Pixel.y p = y) ->
          board_get (board w') x y = board_get (board w) x y)
    /\ (~ (nx = Pixel.x p /\ ny = Pixel.y p) ->
        board_get (board w') (Pixel.x p) (Pixel.y p) = Ret (Some Null)).
Proof.
  intros Hh Hp Hregd Hnx Hny.
  pose proof Hh as (Ht & Hrows & Hobjs & Hreg & Hrefs & Hcells).
  destruct (Hobjs _ _ Hp) as ((Hpx & Hpy) & Hpg & Hpm).
  assert (Hid : Pixel.id p = pixel) by (destruct Ht as (_ & Hid & _); eapply Hid, Hp).
  destruct (board_set_Ret (board w) (Pixel.x p) (Pixel.y p) Null Hrows Hpy)
    as (b1 & Hclear & Hrows1).
  destruct (board_set_Ret b1 nx ny (Id (Pixel.id p)) Hrows1 Hny)
    as (b2 & Hmark & Hrows2).
  assert (E : moveTo pixel nx ny w
              = Ret (with_heap (with_board w b2)
                       (<[pixel := Pixel.set_pos p nx ny]> (heap w)))).
  { unfold moveTo. rewrite (deref_Some _ _ _ Hp). cbn [obind]. rewrite Hclear.
    cbn [obind]. rewrite (store_Some _ _ _ _ Hp). cbn [obind]. rewrite Hmark.
    reflexivity. }
  assert (Hlt : (pixel < length (heap w))%nat) by (eapply lookup_lt_Some, Hp).
  eexists. split; [exact E|].
  cbn [heap board pixels pixelIdCounter with_heap with_board].
  split; [|split; [reflexivity|split; [reflexivity|split; [|split]]]].
  - split; [eapply tidy_moveTo; eassumption|].
    cbn [heap board pixels pixelIdCounter with_heap with_board].
    split; [exact Hrows2|]. split; [|split; [|split]].
    + intros r q Hq. destruct (decide (pixel = r)) as [<-|Hne].
      * rewrite list_lookup_insert_eq in Hq by exact Hlt. injection Hq as <-.
        unfold in_bounds. cbn [Pixel.x Pixel.y Pixel.genes Pixel.maxHp Pixel.set_pos].
        auto.
      * rewrite list_lookup_insert_ne in Hq by exact Hne. eapply Hobjs, Hq.
    + intros k r Hk. destruct (Hreg _ _ Hk) as (-> & q & Hq & Hfull).
      split; [reflexivity|]. destruct (decide (pixel = k)) as [<-|Hne].
      * rewrite list_lookup_insert_eq by exact Hlt. eexists. split; [reflexivity|].
        rewrite Hp in Hq. injection Hq as <-. exact Hfull.
      * rewrite list_lookup_insert_ne by exact Hne. eauto.
    + rewrite length_insert. exact Hrefs.
    + intros x y k. rewrite (board_get_set _ _ _ _ _ x y Hmark).
      destruct (decide _) as [_|_]; [intros [= <-]; congruence|].
      rewrite (board_get_set _ _ _ _ _ x y Hclear).
      destruct (decide _); [discriminate|apply Hcells].
  - rewrite (board_get_set _ _ _ _ _ nx ny Hmark). rewrite decide_True by auto.
    reflexivity.
  - intros x y Hnew Hold. rewrite (board_get_set _ _ _ _ _ x y Hmark).
    rewrite decide_False by exact Hnew.
    rewrite (board_get_set _ _ _ _ _ x y Hclear).
    rewrite decide_False by exact Hold. reflexivity.
  - intros Hne. rewrite (board_get_set _ _ _ _ _ _ _ Hmark).
    rewrite decide_False by exact Hne.
    rewrite (board_get_set _ _ _ _ _ _ _ Hclear). rewrite decide_True by auto.
    reflexivity.
Qed.

(** *** Reproduction *)

Lemma shuffle_from_safe {A} (P : A -> Prop) (i : nat) :
  forall (array : list A) (t : tape),
  Forall P array ->
  safe (fun at' : list A * tape => Forall P at'.1) (shuffle_from i array t).
Proof.
  induction i as [|i IH]; intros array t H; [exact H|].
  destruct t as [|r t]; [reflexivity|]. cbn [shuffle_from Math_random obind].
  apply IH, swap_Forall, H.
Qed.

Lemma mutateGenes_safe (g : Genes.t) (t : tape) :
  Genes.nonneg g ->
  safe (fun gt : Genes.t * tape =>
          Genes.nonneg gt.1 /\ Genes.total gt.1 = Genes.total g)
       (mutateGenes g t).
Proof.
  intros Hg. destruct (mutateGenes g t) as [[g' t']|e] eqn:E; simpl.
  - destruct (mutateGenes_Ret _ _ _ _ E) as (T & _ & N). auto.
  - eapply mutateGenes_only_starves, E.
Qed.

Lemma healthy_tryOffsets parent p : forall cands w t,
  healthy w -> heap w !! parent = Some p ->
  Genes.total (Pixel.genes p) < arrayLimit ->
  safe (fun wt : World * tape => healthy wt.1 /\ grows w wt.1)
       (tryOffsets cands parent w t).
Proof.
  induction cands as [|[dx dy] cands IH]; intros w t Hh Hp Hsmall.
  - simpl. split; [exact Hh|apply grows_refl].
  - cbn [tryOffsets]. rewrite (deref_Some _ _ _ Hp). cbn [obind].
    destruct (_ || _) eqn:Hout; [apply IH; assumption|].
    apply orb_false_iff in Hout as [Hout Hy2].
    apply orb_false_iff in Hout as [Hout Hx2].
    apply orb_false_iff in Hout as [Hx1 Hy1].
    assert (Hx : 0 <= Pixel.x p + dx < gridSize) by lia.
    assert (Hy : 0 <= Pixel.y p + dy < gridSize) by lia.
    pose proof Hh as (Ht & Hrows & Hobjs & _).
    destruct (board_get_Ret (board w) (Pixel.x p + dx) _ Hrows Hy) as [c Hget].
    rewrite Hget. cbn [obind].
    destruct (truthy c) eqn:Hc; [apply IH; assumption|].
    destruct (Hobjs _ _ Hp) as (_ & Hg & _).
    eapply safe_bind; [apply mutateGenes_safe, Hg|].
    intros [g t1] (Hg' & Htot). cbn [fst snd] in *.
    assert (Hsmall' : Genes.total g < arrayLimit) by (rewrite Htot; exact Hsmall).
    destruct (healthy_newPixel (Pixel.x p + dx) (Pixel.y p + dy) g
                (Pixel.populationId p) w Hh Hg' Hsmall' Hx Hy)
      as (this & w1 & -> & Hh1 & Hgr1 & Hheap & _ & _ & _ & _ & _ & Hfull).
    cbn [obind].
    destruct (healthy_placePixel (length (heap w)) w1 this Hh1)
      as (ok & w2 & -> & Hh2 & Hgr2 & _).
    { rewrite Hheap. apply list_lookup_middle. reflexivity. }
    { exact Hfull. }
    cbn [obind]. simpl. split; [exact Hh2|]. eapply grows_trans; eassumption.
Qed.

Lemma healthy_createOffspring parent p w t :
  healthy w -> heap w !! parent = Some p ->
  Genes.total (Pixel.genes p) < arrayLimit ->
  safe (fun wt : World * tape => healthy wt.1 /\ grows w wt.1)
       (createOffspring parent w t).
Proof.
  intros Hh Hp Hsmall. unfold createOffspring, shuffle.
  eapply safe_bind; [apply (shuffle_from_safe (fun _ => True)), Forall_true; auto|].
  intros [shuffled t1] _. apply (healthy_tryOffsets parent p); assumption.
Qed.

(** *** Combat *)

Lemma grows_length w w' : grows w w' -> (length (heap w) <= length (heap w'))%nat.
Proof.
  intros [Hobj _]. destruct (length (heap w)) as [|n] eqn:Hlen; [lia|].
  destruct (lookup_lt_is_Some_2 (heap w) n) as [q Hq]; [lia|].
  apply Hobj in Hq. apply lookup_lt_Some in Hq. lia.
Qed.

Lemma healthy_settle (winner loser : ref) (pw0 pl0 : Pixel.t) (hw hl : Z)
    (h1 : list Pixel.t) (logs : list string) (w : World) (t : tape) :
  healthy w -> winner <> loser ->
  heap w !! winner = Some pw0 -> heap w !! loser = Some pl0 ->
  Genes.total (Pixel.genes pw0) < arrayLimit ->
  map_get (pixels w) winner = Some winner ->
  h1 !! winner = Some (Pixel.set_hp pw0 hw) ->
  h1 !! loser = Some (Pixel.set_hp pl0 hl) ->
  (forall r, r <> winner -> r <> loser -> h1 !! r = heap w !! r) ->
  length h1 = length (heap w) ->
  safe (fun rwt : ref * World * tape =>
          rwt.1.1 = winner /\ healthy rwt.1.2
          /\ map_get (pixels rwt.1.2) winner = Some winner
          /\ (length (heap w) <= length (heap rwt.1.2))%nat)
       (settle winner (Pixel.set_hp pw0 hw) (Pixel.set_hp pl0 hl) h1 logs w t).
Proof.
  intros Hh Hne Hw0 Hl0 Hsmall Hregd Hw1 Hl1 Hrest Hlen.
  pose proof Hh as (Ht & Hrows & Hobjs & Hreg & Hrefs & Hcells).
  pose proof Ht as (Hc & Hid & Htcells).
  destruct (Hobjs _ _ Hl0) as ((_ & Hly) & _).
  unfold settle. cbn [Pixel.x Pixel.y Pixel.id Pixel.maxHp Pixel.set_hp].
  destruct (board_set_Ret (board w) (Pixel.x pl0) (Pixel.y pl0) Null Hrows Hly)
    as (b & Hset & Hrowsb).
  rewrite Hset. cbn [obind].
  set (h2 := <[winner := Pixel.set_hp pw0 (Pixel.maxHp pw0)]> h1).
  assert (Hwlt : (winner < length h1)%nat) by (eapply lookup_lt_Some, Hw1).
  assert (Hfwd : forall r q, heap w !! r = Some q ->
            exists v, h2 !! r = Some (Pixel.set_hp q v)
                      /\ (r <> loser -> r <> winner -> v = Pixel.hp q)
                      /\ (r = winner -> v = Pixel.maxHp q)).
  { intros r q Hq. unfold h2. destruct (decide (r = winner)) as [->|Hrw].
    - rewrite Hw0 in Hq. injection Hq as <-.
      rewrite list_lookup_insert_eq by exact Hwlt. eexists. split; [reflexivity|].
      split; [congruence|auto].
    - rewrite list_lookup_insert_ne by auto.
      destruct (decide (r = loser)) as [->|Hrl].
      + rewrite Hl0 in Hq. injection Hq as <-. rewrite Hl1. eexists.
        split; [reflexivity|]. split; congruence.
      + rewrite (Hrest r Hrw Hrl), Hq. exists (Pixel.hp q).
        rewrite set_hp_same. split; [reflexivity|]. split; [auto|congruence]. }
  assert (Hlen2 : length h2 = length (heap w)).
  { unfold h2. rewrite length_insert. exact Hlen. }
  assert (Hbwd : forall r q', h2 !! r = Some q' ->
            exists q v, heap w !! r = Some q /\ q' = Pixel.set_hp q v).
  { intros r q' Hq'. destruct (lookup_lt_is_Some_2 (heap w) r) as [q Hq].
    { rewrite <- Hlen2. eapply lookup_lt_Some, Hq'. }
    destruct (Hfwd _ _ Hq) as (v & Hv & _). rewrite Hv in Hq'. injection Hq' as <-.
    eauto. }
  assert (Hlid : Pixel.id pl0 = loser) by (eapply Hid, Hl0).
  set (w4 := mkWorld b h2 (map_delete (pixels w) (Pixel.id pl0))
               (pixelIdCounter w) logs).
  assert (Hh4 : healthy w4).
  { split; [|split; [exact Hrowsb|split; [|split; [|split]]]];
      cbn [heap board pixels pixelIdCounter w4].
    - split; [|split]; cbn [heap board pixels pixelIdCounter w4].
      + rewrite Hlen2. exact Hc.
      + intros r q' Hq'. destruct (Hbwd _ _ Hq') as (q & v & Hq & ->).
        cbn [Pixel.id Pixel.set_hp]. eapply Hid, Hq.
      + intros x y k. rewrite (board_get_set _ _ _ _ _ x y Hset).
        destruct (decide _); [discriminate|]. intros Hget.
        destruct (Htcells _ _ _ Hget) as (q & Hq & Hx & Hy).
        destruct (Hfwd _ _ Hq) as (v & Hv & _). eexists. split; [exact Hv|].
        cbn [Pixel.x Pixel.y Pixel.set_hp]. auto.
    - intros r q' Hq'. destruct (Hbwd _ _ Hq') as (q & v & Hq & ->).
      unfold in_bounds. cbn [Pixel.x Pixel.y Pixel.genes Pixel.maxHp Pixel.set_hp].
      eapply Hobjs, Hq.
    - intros k r. rewrite map_get_delete. destruct (decide _) as [|Hk]; [discriminate|].
      intros Hkr. destruct (Hreg _ _ Hkr) as (-> & q & Hq & Hfull).
      split; [reflexivity|]. destruct (Hfwd _ _ Hq) as (v & Hv & Hother & Hwin).
      eexists. split; [exact Hv|]. cbn [Pixel.hp Pixel.maxHp Pixel.set_hp].
      destruct (decide (k = winner)) as [->|Hkw]; [auto|].
      rewrite Hother; [exact Hfull|congruence|exact Hkw].
    - rewrite Hlen2. apply map_delete_Forall, Hrefs.
    - intros x y k. rewrite (board_get_set _ _ _ _ _ x y Hset).
      destruct (decide _) as [|Hpos]; [discriminate|]. intros Hget.
      rewrite map_get_delete.
      destruct (decide _) as [Hk|_]; [|exact (Hcells _ _ _ Hget)].
      exfalso. destruct (Htcells _ _ _ Hget) as (q & Hq & Hx & Hy).
      rewrite <- Hk, Hlid, Hl0 in Hq. injection Hq as <-. apply Hpos. auto. }
  assert (Hw4 : heap w4 !! winner = Some (Pixel.set_hp pw0 (Pixel.maxHp pw0))).
  { cbn [heap w4]. unfold h2. apply list_lookup_insert_eq, Hwlt. }
  eapply safe_bind;
    [apply (healthy_createOffspring winner _ w4 t Hh4 Hw4); exact Hsmall|].
  intros [w5 t5] (Hh5 & Hgr). cbn [fst snd] in *. simpl.
  split; [reflexivity|]. split; [exact Hh5|]. split.
  - destruct Hgr as (_ & Hgr). apply Hgr. cbn [pixels w4].
    rewrite map_get_delete. rewrite decide_False by congruence. exact Hregd.
  - apply grows_length in Hgr. cbn [heap w4] in Hgr. lia.
Qed.

Lemma healthy_resolveCombat (attacker defender : ref) (w : World) (t : tape)
    (pa pd : Pixel.t) :
  healthy w -> coded w -> attacker <> defender ->
  heap w !! attacker = Some pa -> heap w !! defender = Some pd ->
  map_get (pixels w) attacker = Some attacker ->
  map_get (pixels w) defender = Some defender ->
  safe (fun rwt : ref * World * tape =>
          (rwt.1.1 = attacker \/ rwt.1.1 = defender) /\ healthy rwt.1.2
          /\ map_get (pixels rwt.1.2) rwt.1.1 = Some rwt.1.1
          /\ (length (heap w) <= length (heap rwt.1.2))%nat)
       (resolveCombat attacker defender w t).
Proof.
  intros Hh Hcd Hne Ha Hd Hra Hrd.
  pose proof (proj2 (Hcd _ _ Ha)) as Hsa. pose proof (proj2 (Hcd _ _ Hd)) as Hsd.
  pose proof Hh as (_ & _ & Hobjs & Hreg & _).
  assert (Hpa : 0 < Pixel.hp pa).
  { destruct (Hreg _ _ Hra) as (_ & q & Hq & Hfull). rewrite Ha in Hq.
    injection Hq as <-. destruct (Hobjs _ _ Ha) as (_ & _ & Hm). lia. }
  assert (Hpd : 0 < Pixel.hp pd).
  { destruct (Hreg _ _ Hrd) as (_ & q & Hq & Hfull). rewrite Hd in Hq.
    injection Hq as <-. destruct (Hobjs _ _ Hd) as (_ & _ & Hm). lia. }
  destruct (duel_runs attacker defender (heap w) pa pd Hne Ha Hd Hpa Hpd)
    as (ha & hd & s & later & E & _ & _ & _ & _ & Hend).
  set (h1 := <[attacker := Pixel.set_hp pa ha]>
               (<[defender := Pixel.set_hp pd hd]> (heap w))) in *.
  assert (Ha1 : h1 !! attacker = Some (Pixel.set_hp pa ha)).
  { apply list_lookup_insert_eq. rewrite length_insert.
    eapply lookup_lt_Some; eassumption. }
  assert (Hd1 : h1 !! defender = Some (Pixel.set_hp pd hd)).
  { unfold h1. rewrite list_lookup_insert_ne by auto.
    apply list_lookup_insert_eq. eapply lookup_lt_Some; eassumption. }
  assert (Hrest : forall r, r <> attacker -> r <> defender -> h1 !! r = heap w !! r).
  { intros r H1 H2. unfold h1. rewrite !list_lookup_insert_ne by auto. reflexivity. }
  assert (Hlen : length h1 = length (heap w)).
  { unfold h1. rewrite !length_insert. reflexivity. }
  destruct (resolveCombat_settles attacker defender w t h1 (s :: later)
              _ _ Hne E Ha1 Hd1) as [Hwin Hlose].
  destruct Hend as [(Hhd & Hha & _)|(Hha & Hhd & _)].
  - destruct (Hwin Hha Hhd) as [logs ->].
    eapply safe_mono;
      [apply (healthy_settle attacker defender pa pd ha hd h1 logs w t); auto|].
    intros [[r w'] t'] (-> & A & B & C). cbn [fst snd] in *. auto.
  - destruct (Hlose Hha) as [logs ->].
    eapply safe_mono;
      [apply (healthy_settle defender attacker pd pa hd ha h1 logs w t); auto|].
    intros [[r w'] t'] (-> & A & B & C). cbn [fst snd] in *. auto.
Qed.

(** *** A tick *)

Lemma healthy_subStep (pixel : ref) (w : World) (t : tape) (p : Pixel.t) :
  healthy w -> coded w -> heap w !! pixel = Some p ->
  map_get (pixels w) pixel = Some pixel ->
  safe (fun fwt : flow * World * tape =>
          healthy fwt.1.2
          /\ (length (heap w) <= length (heap fwt.1.2))%nat
          /\ (fwt.1.1 = Continue -> map_get (pixels fwt.1.2) pixel = Some pixel))
       (subStep pixel w t).
Proof.
  intros Hh Hcd Hp Hregd.
  pose proof Hh as (Ht & Hrows & Hobjs & Hreg & Hrefs & Hcells).
  pose proof Ht as (_ & Hid & _).
  assert (Hpid : Pixel.id p = pixel) by (eapply Hid, Hp).
  unfold subStep. destruct t as [|r t]; [reflexivity|]. cbn [Math_random obind].
  destruct (choose_Ret directions r) as (dir & -> & _); [discriminate|].
  cbn [obind]. rewrite (deref_Some _ _ _ Hp). cbn [obind].
  set (nx := clamp (Pixel.x p + dir.1) 0 (gridSize - 1)).
  set (ny := clamp (Pixel.y p + dir.2) 0 (gridSize - 1)).
  assert (Hnx : 0 <= nx < gridSize) by apply clamp_on_board.
  assert (Hny : 0 <= ny < gridSize) by apply clamp_on_board.
  destruct (_ && _); [simpl; auto|].
  destruct (board_get_Ret (board w) nx ny Hrows Hny) as [c Hget].
  rewrite Hget. cbn [obind].
  destruct (truthy c) eqn:Hc; cbn [negb].
  - destruct c as [[|[|k]]|]; try discriminate.
    destruct (Nat.eqb_spec (S k) (Pixel.id p)) as [_|Hother]; cbn [negb];
      [simpl; auto|].
    rewrite (Hcells _ _ _ Hget).
    destruct (Hreg _ _ (Hcells _ _ _ Hget)) as (_ & po & Hpo & _).
    rewrite (deref_Some _ _ _ Hpo). cbn [obind].
    destruct (String.eqb _ _); [simpl; auto|].
    eapply safe_bind.
    { apply (healthy_resolveCombat pixel (S k) w t p po); auto.
      - congruence.
      - exact (Hcells _ _ _ Hget). }
    intros [[winner w1] t1] (_ & Hh1 & Hwreg & Hlen). cbn [fst snd] in *.
    pose proof Hh1 as (Ht1 & _ & _ & Hreg1 & _).
    pose proof Ht1 as (_ & Hid1 & _).
    destruct (Hreg1 _ _ Hwreg) as (_ & pw & Hpw & _).
    rewrite (deref_Some _ _ _ Hpw). cbn [obind].
    destruct (lookup_lt_is_Some_2 (heap w1) pixel) as [p1 Hp1].
    { apply lookup_lt_Some in Hp. lia. }
    rewrite (deref_Some _ _ _ Hp1). cbn [obind].
    rewrite (Hid1 _ _ Hpw), (Hid1 _ _ Hp1).
    destruct (Nat.eqb_spec winner pixel) as [->|_].
    + destruct (healthy_moveTo pixel nx ny w1 p1 Hh1 Hp1 Hwreg Hnx Hny)
        as (w2 & -> & Hh2 & _ & Hheap2 & _).
      cbn [obind]. simpl. split; [exact Hh2|]. split; [|discriminate].
      rewrite Hheap2, length_insert. exact Hlen.
    + simpl. split; [exact Hh1|]. split; [exact Hlen|discriminate].
  - destruct (healthy_moveTo pixel nx ny w p Hh Hp Hregd Hnx Hny)
      as (w2 & -> & Hh2 & Hpix & Hheap2 & _).
    cbn [obind]. simpl. split; [exact Hh2|]. split.
    + rewrite Hheap2, length_insert. lia.
    + intros _. rewrite Hpix. exact Hregd.
Qed.

Lemma healthy_subSteps (pixel : ref) (n : nat) : forall (w : World) (t : tape),
  healthy w -> coded w -> map_get (pixels w) pixel = Some pixel ->
  safe (fun wt : World * tape =>
          healthy wt.1 /\ (length (heap w) <= length (heap wt.1))%nat)
       (subSteps n pixel w t).
Proof.
  induction n as [|n IH]; intros w t Hh Hcd Hregd; [simpl; auto|].
  cbn [subSteps].
  pose proof Hh as (_ & _ & _ & Hreg & _).
  destruct (Hreg _ _ Hregd) as (_ & p & Hp & _).
  pose proof (healthy_subStep pixel w t p Hh Hcd Hp Hregd) as Hs.
  destruct (subStep pixel w t) as [[[f w1] t1]|e] eqn:E; [|exact Hs].
  destruct Hs as (Hh1 & Hlen & Hcont). cbn [fst snd obind] in *.
  pose proof (coded_subStep _ _ _ _ _ _ E Hcd) as Hcd1.
  destruct f; [|simpl; auto].
  eapply safe_mono; [apply IH; auto|].
  intros [w2 t2] (A & B). cbn [fst snd] in *. split; [exact A|lia].
Qed.

Lemma healthy_pixelTurn (pixel : ref) (w : World) (t : tape) :
  healthy w -> coded w -> (pixel < length (heap w))%nat ->
  safe (fun wt : World * tape =>
          healthy wt.1 /\ (length (heap w) <= length (heap wt.1))%nat)
       (pixelTurn pixel w t).
Proof.
  intros Hh Hcd Hlt. unfold pixelTurn.
  destruct (lookup_lt_is_Some_2 (heap w) pixel Hlt) as [p Hp].
  rewrite (deref_Some _ _ _ Hp). cbn [obind].
  pose proof Hh as ((_ & Hid & _) & _ & _ & Hreg & _).
  unfold map_has. rewrite (Hid _ _ Hp).
  destruct (map_get (pixels w) pixel) as [r|] eqn:Hr; cbn [negb]; [|simpl; auto].
  destruct (Hreg _ _ Hr) as (-> & _).
  apply healthy_subSteps; assumption.
Qed.

Lemma healthy_pixelTurns : forall (currentPixels : list ref) (w : World) (t : tape),
  healthy w -> coded w ->
  Forall (fun r => (r < length (heap w))%nat) currentPixels ->
  safe (fun wt : World * tape => healthy wt.1) (pixelTurns currentPixels w t).
Proof.
  induction currentPixels as [|pixel rest IH]; intros w t Hh Hcd Hall; [exact Hh|].
  apply Forall_cons in Hall as [Hp Hrest]. cbn [pixelTurns].
  pose proof (healthy_pixelTurn pixel w t Hh Hcd Hp) as Hs.
  destruct (pixelTurn pixel w t) as [[w1 t1]|e] eqn:E; [|exact Hs].
  destruct Hs as (Hh1 & Hlen). cbn [fst snd obind] in *.
  apply IH; [exact Hh1|eapply coded_pixelTurn; eassumption|].
  eapply Forall_impl; [exact Hrest|].
  intros r Hr. simpl in *. lia.
Qed.

(** X15. A tick keeps a healthy, coded world healthy and coded, and raises
    no error: from such a world, [stepSimulation] either stops for lack of
    random samples or returns such a world.  So between ticks every id on
    the board is the id of a registered pixel whose object records that
    cell, every registered pixel has full hp of at least 1 and stands
    inside the board, ids are never reused, and every object carries the
    code of its genes. *)
Theorem stepSimulation_healthy (w : World) (t : tape) :
  healthy w -> coded w ->
  safe (fun wt : World * tape => healthy wt.1 /\ coded wt.1)
       (stepSimulation w t).
Proof.
  intros Hh Hcd.
  assert (Hs : safe (fun wt : World * tape => healthy wt.1) (stepSimulation w t)).
  { unfold stepSimulation, shuffle.
    pose proof Hh as (_ & _ & _ & _ & Hrefs & _).
    eapply safe_bind.
    { apply (shuffle_from_safe (fun r => (r < length (heap w))%nat)).
      apply Forall_fmap. exact Hrefs. }
    intros [currentPixels t1] Hall. cbn [fst snd] in *.
    apply healthy_pixelTurns; assumption. }
  destruct (stepSimulation w t) as [[w' t']|e] eqn:E; [|exact Hs].
  split; [exact Hs|]. eapply coded_stepSimulation; eassumption.
Qed.

(** ** More on reproduction *)

Lemma passed_overb_sound (w : World) (p : Pixel.t) (o : Z * Z) :
  passed_overb w p o = true -> passed_over w p o.
Proof.
  unfold passed_overb, passed_over. cbv zeta. intros H.
  apply orb_true_iff in H as [H|H]; [left; exact H|].
  destruct (board_get _ _ _) as [c|e]; [|discriminate]. right. eauto.
Qed.

(** X16. When every candidate cell around the parent is off the board or
    holds a truthy value (an id other than 0), [createOffspring] draws its
    11 shuffle samples and changes nothing, whatever the order drawn. *)
Theorem createOffspring_without_room (parent : ref) (w : World) (p : Pixel.t)
    (t : tape) :
  heap w !! parent = Some p -> Forall (passed_over w p) offsets ->
  (11 <= length t)%nat ->
  createOffspring parent w t = Ret (w, drop 11 t).
Proof. apply createOffspring_blocked. Qed.

Lemma createOffspring_without_room_witness :
  heap walled !! 1%nat = Some (Pixel.mk 1 0 0 strong 1 1 1 "AAAAAASH")
  /\ Forall (passed_over walled (Pixel.mk 1 0 0 strong 1 1 1 "AAAAAASH")) offsets
  /\ (11 <= length (repeat half 11))%nat
  /\ createOffspring 1 walled (repeat half 11)
     = Ret (walled, drop 11 (repeat half 11)).
Proof.
  assert (Hp : heap walled !! 1%nat
               = Some (Pixel.mk 1 0 0 strong 1 1 1 "AAAAAASH")) by by_vm.
  assert (Hall : Forall (passed_over walled
                           (Pixel.mk 1 0 0 strong 1 1 1 "AAAAAASH")) offsets).
  { assert (Hb : forallb (passed_overb walled
                            (Pixel.mk 1 0 0 strong 1 1 1 "AAAAAASH")) offsets
                  = true) by by_vm.
    apply Forall_forall. intros o Ho. apply passed_overb_sound.
    exact (proj1 (forallb_forall _ _) Hb o (proj1 (list_elem_of_In _ _) Ho)). }
  assert (Hlen : (11 <= length (repeat half 11))%nat) by (simpl; lia).
  split; [exact Hp|]. split; [exact Hall|]. split; [exact Hlen|].
  exact (createOffspring_without_room 1 walled _ (repeat half 11) Hp Hall Hlen).
Defined.





(** *** Room at the one call site *)

Lemma offsets_reach (dx dy : Z) :
  1 <= Z.abs dx + Z.abs dy <= 2 -> (dx, dy) ∈ offsets.
Proof.
  intros H.
  assert (Hx : dx = -2 \/ dx = -1 \/ dx = 0 \/ dx = 1 \/ dx = 2) by lia.
  assert (Hy : dy = -2 \/ dy = -1 \/ dy = 0 \/ dy = 1 \/ dy = 2) by lia.
  apply list_elem_of_In.
  destruct Hx as [->|[->|[->|[->| ->]]]];
    destruct Hy as [->|[->|[->|[->| ->]]]];
    try (exfalso; lia); vm_compute; tauto.
Qed.

Lemma counter_placePixel pixel w ok w' :
  placePixel pixel w = Ret (ok, w') -> pixelIdCounter w' = pixelIdCounter w.
Proof.
  intros H. unfold placePixel in H.
  destruct (deref (heap w) pixel) as [p|e]; [|discriminate]. cbn [obind] in H.
  destruct (board_get _ _ _) as [c|e]; [|discriminate]. cbn [obind] in H.
  destruct (truthy c); [injection H as _ <-; reflexivity|].
  destruct (board_set _ _ _ _) as [b|e]; [|discriminate]. cbn [obind] in H.
  injection H as _ <-. reflexivity.
Qed.

(** With a candidate on the board whose cell reads as falsy, the loop over
    the candidates makes a child whenever it returns. *)
Lemma tryOffsets_spawns parent p : forall cands w t w' t',
  heap w !! parent = Some p ->
  tryOffsets cands parent w t = Ret (w', t') ->
  (exists dx dy c,
     (dx, dy) ∈ cands
     /\ 0 <= Pixel.x p + dx < gridSize /\ 0 <= Pixel.y p + dy < gridSize
     /\ board_get (board w) (Pixel.x p + dx) (Pixel.y p + dy) = Ret c
     /\ truthy c = false) ->
  pixelIdCounter w' = S (pixelIdCounter w).
Proof.
  induction cands as [|[dx0 dy0] cands IH];
    intros w t w' t' Hp H (dx & dy & c & Hin & Hx & Hy & Hget & Hc).
  - apply elem_of_nil in Hin. contradiction.
  - cbn [tryOffsets] in H. rewrite (deref_Some _ _ _ Hp) in H. cbn [obind] in H.
    assert (Htail : (dx0, dy0) <> (dx, dy) ->
              tryOffsets cands parent w t = Ret (w', t') ->
              pixelIdCounter w' = S (pixelIdCounter w)).
    { intros Hne H'. eapply IH; [exact Hp|exact H'|].
      exists dx, dy, c. apply elem_of_cons in Hin as [Heq|Hin];
        [congruence|]. auto 10. }
    destruct (_ || _) eqn:Hout.
    { apply Htail; [|exact H]. intros [= -> ->].
      rewrite !orb_true_iff, !Z.ltb_lt, !Z.geb_le in Hout. lia. }
    destruct (board_get _ _ _) as [c0|e] eqn:Hget0; [|discriminate].
    cbn [obind] in H.
    destruct (truthy c0) eqn:Hc0.
    { apply Htail; [|exact H]. intros [= -> ->]. congruence. }
    destruct (mutateGenes _ _) as [[g t1]|e]; [|discriminate]. cbn [obind] in H.
    destruct (newPixel _ _ _ _ _) as [[child w1]|e] eqn:Hnew; [|discriminate].
    cbn [obind] in H.
    destruct (placePixel child w1) as [[ok w2]|e] eqn:Hplace; [|discriminate].
    cbn [obind] in H. injection H as <- _.
    rewrite (counter_placePixel _ _ _ _ Hplace).
    destruct (newPixel_Ret _ _ _ _ _ _ _ Hnew) as (code & _ & ->). reflexivity.
Qed.

Lemma createOffspring_spawns parent p w t w' t' :
  heap w !! parent = Some p ->
  createOffspring parent w t = Ret (w', t') ->
  (exists dx dy c,
     1 <= Z.abs dx + Z.abs dy <= 2
     /\ 0 <= Pixel.x p + dx < gridSize /\ 0 <= Pixel.y p + dy < gridSize
     /\ board_get (board w) (Pixel.x p + dx) (Pixel.y p + dy) = Ret c
     /\ truthy c = false) ->
  pixelIdCounter w' = S (pixelIdCounter w).
Proof.
  intros Hp H (dx & dy & c & Hnear & Hrest). unfold createOffspring, shuffle in H.
  change (length offsets - 1)%nat with 11%nat in H.
  destruct (le_lt_dec 11 (length t)) as [Hlen|Hlen];
    [|rewrite shuffle_from_starves in H by exact Hlen; discriminate].
  destruct (shuffle_from_Permutation 11 offsets t Hlen) as (shuffled & E & Hperm).
  rewrite E in H. cbn [obind] in H.
  eapply (tryOffsets_spawns parent p); [exact Hp|exact H|].
  exists dx, dy, c. split; [|exact Hrest].
  rewrite Hperm. apply offsets_reach, Hnear.
Qed.

(** The one call of [createOffspring] always finds room: in a healthy
    world, a combat between two living pixels on neighbouring cells ends
    with a child, because the cell that [removePixel] has just cleared is a
    candidate of the winner. *)
Lemma resolveCombat_spawns (attacker defender : ref) (w : World) (t : tape)
    (pa pd : Pixel.t) (winner : ref) (w' : World) (t' : tape) :
  healthy w -> attacker <> defender ->
  heap w !! attacker = Some pa -> heap w !! defender = Some pd ->
  0 < Pixel.hp pa -> 0 < Pixel.hp pd ->
  Z.abs (Pixel.x pa - Pixel.x pd) <= 1 ->
  Z.abs (Pixel.y pa - Pixel.y pd) <= 1 ->
  ~ (Pixel.x pa = Pixel.x pd /\ Pixel.y pa = Pixel.y pd) ->
  resolveCombat attacker defender w t = Ret (winner, w', t') ->
  pixelIdCounter w' = S (pixelIdCounter w).
Proof.
  intros Hh Hne Ha Hd Hpa Hpd Hnx Hny Hcells Hres.
  pose proof Hh as (_ & Hrows & Hobjs & _).
  destruct (Hobjs _ _ Ha) as (Hba & _). destruct (Hobjs _ _ Hd) as (Hbd & _).
  destruct (duel_runs attacker defender (heap w) pa pd Hne Ha Hd Hpa Hpd)
    as (ha & hd & s & later & E & _ & _ & _ & _ & Hend).
  set (h1 := <[attacker := Pixel.set_hp pa ha]>
               (<[defender := Pixel.set_hp pd hd]> (heap w))) in *.
  assert (Ha1 : h1 !! attacker = Some (Pixel.set_hp pa ha)).
  { apply list_lookup_insert_eq. rewrite length_insert.
    eapply lookup_lt_Some; eassumption. }
  assert (Hd1 : h1 !! defender = Some (Pixel.set_hp pd hd)).
  { unfold h1. rewrite list_lookup_insert_ne by auto.
    apply list_lookup_insert_eq. eapply lookup_lt_Some; eassumption. }
  destruct (resolveCombat_settles attacker defender w t h1 (s :: later)
              _ _ Hne E Ha1 Hd1) as [Hwin Hlose].
  assert (Hgo : forall (win : ref) (pw pl : Pixel.t) (logs : list string),
            h1 !! win = Some pw -> in_bounds pl ->
            Z.abs (Pixel.x pl - Pixel.x pw) <= 1 ->
            Z.abs (Pixel.y pl - Pixel.y pw) <= 1 ->
            ~ (Pixel.x pl = Pixel.x pw /\ Pixel.y pl = Pixel.y pw) ->
            settle win pw pl h1 logs w t = Ret (winner, w', t') ->
            pixelIdCounter w' = S (pixelIdCounter w)).
  { intros win pw pl logs Hw [Hlx Hly] Hdx Hdy Hdiff Hs. unfold settle in Hs.
    destruct (board_set _ _ _ _) as [b|e] eqn:Hset; [|discriminate].
    cbn [obind] in Hs.
    destruct (createOffspring _ _ _) as [[w5 t5]|e] eqn:Hspawn; [|discriminate].
    cbn [obind] in Hs. injection Hs as _ <- _.
    eapply (createOffspring_spawns win (Pixel.set_hp pw (Pixel.maxHp pw)))
      in Hspawn; [exact Hspawn| |].
    - cbn [heap]. apply list_lookup_insert_eq. eapply lookup_lt_Some, Hw.
    - exists (Pixel.x pl - Pixel.x pw), (Pixel.y pl - Pixel.y pw), (Some Null).
      cbn [board Pixel.x Pixel.y Pixel.set_hp].
      replace (Pixel.x pw + (Pixel.x pl - Pixel.x pw)) with (Pixel.x pl) by lia.
      replace (Pixel.y pw + (Pixel.y pl - Pixel.y pw)) with (Pixel.y pl) by lia.
      split; [lia|]. split; [exact Hlx|]. split; [exact Hly|].
      split; [|reflexivity].
      rewrite (board_get_set _ _ _ _ _ _ _ Hset).
      rewrite decide_True by auto. reflexivity. }
  destruct Hend as [(Hhd & Hha & _)|(Hha & Hhd & _)].
  - destruct (Hwin Hha Hhd) as [logs Hsettle]. rewrite Hsettle in Hres.
    eapply (Hgo attacker _ (Pixel.set_hp pd hd)); [exact Ha1|exact Hbd| | | |exact Hres];
      cbn [Pixel.x Pixel.y Pixel.set_hp]; lia.
  - destruct (Hlose Hha) as [logs Hsettle]. rewrite Hsettle in Hres.
    eapply (Hgo defender _ (Pixel.set_hp pa ha)); [exact Hd1|exact Hba| | | |exact Hres];
      cbn [Pixel.x Pixel.y Pixel.set_hp]; lia.
Qed.

Lemma offsets_near :
  Forall (fun o : Z * Z => 1 <= Z.abs o.1 + Z.abs o.2 <= 2) offsets.
Proof.
  apply Forall_forall. intros [dx dy] H. apply list_elem_of_In in H.
  vm_compute in H.
  repeat (destruct H as [H|H]; [injection H as <- <-; simpl; lia|]).
  contradiction.
Qed.

Lemma tryOffsets_child (parent : ref) (p : Pixel.t) : forall cands w t w' t',
  Forall (fun o : Z * Z => 1 <= Z.abs o.1 + Z.abs o.2 <= 2) cands ->
  heap w !! parent = Some p ->
  tryOffsets cands parent w t = Ret (w', t') ->
  w' = w
  \/ exists (child : Pixel.t) (dx dy : Z) (c : option cell),
       heap w' = heap w ++ [child]
       /\ pixelIdCounter w' = S (pixelIdCounter w)
       /\ Pixel.id child = pixelIdCounter w
       /\ Pixel.x child = Pixel.x p + dx /\ Pixel.y child = Pixel.y p + dy
       /\ 1 <= Z.abs dx + Z.abs dy <= 2
       /\ 0 <= Pixel.x child < gridSize /\ 0 <= Pixel.y child < gridSize
       /\ Pixel.populationId child = Pixel.populationId p
       /\ Genes.total (Pixel.genes child) = Genes.total (Pixel.genes p)
       /\ Pixel.hp child = Pixel.maxHp child
       /\ Pixel.maxHp child = Z.max 1 (Genes.hp (Pixel.genes child))
       /\ board_get (board w) (Pixel.x child) (Pixel.y child) = Ret c
       /\ truthy c = false
       /\ board_get (board w') (Pixel.x child) (Pixel.y child)
          = Ret (Some (Id (Pixel.id child)))
       /\ map_get (pixels w') (Pixel.id child) = Some (length (heap w)).
Proof.
  induction cands as [|[dx dy] cands IH]; intros w t w' t' Hall Hp H.
  - injection H as <- _. left. reflexivity.
  - apply Forall_cons in Hall as [Hnear Hrest]. cbn [fst snd] in Hnear.
    cbn [tryOffsets] in H. rewrite (deref_Some _ _ _ Hp) in H. cbn [obind] in H.
    destruct (_ || _) eqn:Hout; [eapply IH; eassumption|].
    apply orb_false_iff in Hout as [Hout Hy2].
    apply orb_false_iff in Hout as [Hout Hx2].
    apply orb_false_iff in Hout as [Hx1 Hy1].
    destruct (board_get _ _ _) as [c|e] eqn:Hget; [|discriminate]. cbn [obind] in H.
    destruct (truthy c) eqn:Hc; [eapply IH; eassumption|].
    destruct (mutateGenes _ _) as [[g t1]|e] eqn:Hmut; [|discriminate].
    cbn [obind] in H.
    destruct (newPixel _ _ _ _ _) as [[ch w1]|e] eqn:Hnew; [|discriminate].
    cbn [obind] in H.
    destruct (newPixel_Ret _ _ _ _ _ _ _ Hnew) as (code & -> & ->).
    set (child := Pixel.mk (pixelIdCounter w) (Pixel.x p + dx) (Pixel.y p + dy) g
                    (Pixel.populationId p) (Z.max 1 (Genes.hp g))
                    (Z.max 1 (Genes.hp g)) code) in *.
    destruct (placePixel_free (length (heap w))
                (mkWorld (board w) (heap w ++ [child]) (pixels w)
                   (S (pixelIdCounter w)) (combatLogs w))
                child c) as (b & Hset & E & Hcell & Hreg).
    { cbn [heap]. apply list_lookup_middle. reflexivity. }
    { exact Hget. }
    { exact Hc. }
    rewrite E in H. cbn [obind] in H. injection H as <- _.
    right. exists child, dx, dy, c.
    cbn [heap board pixels pixelIdCounter Pixel.id Pixel.x Pixel.y Pixel.genes
         Pixel.populationId Pixel.hp Pixel.maxHp child] in *.
    destruct (mutateGenes_Ret _ _ _ _ Hmut) as (Htot & _ & _).
    repeat (split; [first [reflexivity|assumption|lia]|]). exact Hreg.
Qed.

(** X17. [createOffspring] adds at most one pixel.  When it adds one, the
    new object takes the current id counter as its id (and the counter
    moves on by one); it stands on the board at Manhattan distance 1 or 2
    from the parent, on a cell whose content was falsy; it has the parent's
    population id, as many gene units as the parent and full hp; it is on
    the board and in the registry. *)
Theorem createOffspring_child (parent : ref) (p : Pixel.t) (w w' : World)
    (t t' : tape) :
  heap w !! parent = Some p ->
  createOffspring parent w t = Ret (w', t') ->
  w' = w
  \/ exists (child : Pixel.t) (dx dy : Z) (c : option cell),
       heap w' = heap w ++ [child]
       /\ pixelIdCounter w' = S (pixelIdCounter w)
       /\ Pixel.id child = pixelIdCounter w
       /\ Pixel.x child = Pixel.x p + dx /\ Pixel.y child = Pixel.y p + dy
       /\ 1 <= Z.abs dx + Z.abs dy <= 2
       /\ 0 <= Pixel.x child < gridSize /\ 0 <= Pixel.y child < gridSize
       /\ Pixel.populationId child = Pixel.populationId p
       /\ Genes.total (Pixel.genes child) = Genes.total (Pixel.genes p)
       /\ Pixel.hp child = Pixel.maxHp child
       /\ Pixel.maxHp child = Z.max 1 (Genes.hp (Pixel.genes child))
       /\ board_get (board w) (Pixel.x child) (Pixel.y child) = Ret c
       /\ truthy c = false
       /\ board_get (board w') (Pixel.x child) (Pixel.y child)
          = Ret (Some (Id (Pixel.id child)))
       /\ map_get (pixels w') (Pixel.id child) = Some (length (heap w)).
Proof.
  intros Hp H. unfold createOffspring, shuffle in H.
  destruct (shuffle_from _ _ _) as [[shuffled t1]|e] eqn:Hsh; [|discriminate].
  cbn [obind] in H.
  eapply (tryOffsets_child parent p); [|exact Hp|exact H].
  eapply shuffle_from_Forall; [exact offsets_near|exact Hsh].
Qed.

Lemma createOffspring_child_witness :
  heap corner !! 1%nat = Some (Pixel.mk 1 0 0 strong 1 1 1 "AAAAAASH")
  /\ createOffspring 1 corner corner_tape = Ret (corner_after, [])
  /\ (corner_after = corner
      \/ exists (child : Pixel.t) (dx dy : Z) (c : option cell),
           heap corner_after = heap corner ++ [child]
           /\ pixelIdCounter corner_after = S (pixelIdCounter corner)
           /\ Pixel.id child = pixelIdCounter corner
           /\ Pixel.x child = 0 + dx /\ Pixel.y child = 0 + dy
           /\ 1 <= Z.abs dx + Z.abs dy <= 2
           /\ 0 <= Pixel.x child < gridSize /\ 0 <= Pixel.y child < gridSize
           /\ Pixel.populationId child = 1
           /\ Genes.total (Pixel.genes child) = Genes.total strong
           /\ Pixel.hp child = Pixel.maxHp child
           /\ Pixel.maxHp child = Z.max 1 (Genes.hp (Pixel.genes child))
           /\ board_get (board corner) (Pixel.x child) (Pixel.y child) = Ret c
           /\ truthy c = false
           /\ board_get (board corner_after) (Pixel.x child) (Pixel.y child)
              = Ret (Some (Id (Pixel.id child)))
           /\ map_get (pixels corner_after) (Pixel.id child)
              = Some (length (heap corner))).
Proof.
  assert (Hp : heap corner !! 1%nat
               = Some (Pixel.mk 1 0 0 strong 1 1 1 "AAAAAASH")) by by_vm.
  assert (Hrun : createOffspring 1 corner corner_tape = Ret (corner_after, []))
    by by_run.
  split; [exact Hp|]. split; [exact Hrun|].
  exact (createOffspring_child 1 _ corner corner_after corner_tape [] Hp Hrun).
Defined.

(** ** More on a tick *)

Lemma healthy_seeded : forall (l : list (Z * Z * Genes.t * Z)) (w : World),
  healthy w -> coded w ->
  Forall (fun e : Z * Z * Genes.t * Z =>
            0 <= e.1.1.1 < gridSize /\ 0 <= e.1.1.2 < gridSize
            /\ Genes.nonneg e.1.2 /\ Genes.total e.1.2 < arrayLimit) l ->
  exists w', seeded l w = Ret w' /\ healthy w' /\ coded w'.
Proof.
  induction l as [|[[[x y] g] pop] l IH]; intros w Hh Hcd Hall.
  - exists w. split; [reflexivity|]. split; assumption.
  - apply Forall_cons in Hall as [(Hx & Hy & Hg & Hsmall) Hrest].
    cbn [fst snd] in *.
    destruct (healthy_seedPixel x y g pop w Hh Hg Hsmall Hx Hy)
      as (w1 & E & Hh1 & _).
    cbn [seeded]. rewrite E. cbn [obind]. apply IH; [exact Hh1| |exact Hrest].
    eapply coded_seedPixel; eassumption.
Qed.

Lemma healthy_arena : healthy arena.
Proof.
  destruct (healthy_seeded arena_pixels initial_world healthy_initial
              coded_initial) as (w' & E & Hh & _).
  { unfold arena_pixels, weak, strong, Genes.nonneg, Genes.total, gridSize,
      arrayLimit.
    repeat (apply Forall_cons; split;
            [cbn [fst snd Genes.attack Genes.defense Genes.speed Genes.hp]; lia|]).
    apply Forall_nil_2. }
  unfold arena. rewrite E. exact Hh.
Qed.

Lemma stepSimulation_healthy_witness :
  healthy arena /\ coded arena
  /\ safe (fun wt : World * tape => healthy wt.1 /\ coded wt.1)
          (stepSimulation arena arena_tape).
Proof.
  split; [exact healthy_arena|]. split; [exact coded_arena|].
  exact (stepSimulation_healthy arena arena_tape healthy_arena coded_arena).
Defined.

(** X18. A sub-step towards a cell whose content is falsy moves the pixel:
    in a healthy world, when the clamped destination differs from the
    pixel's position and the destination cell reads as falsy, [subStep]
    draws one sample, goes on with the next sub-step, records the new
    position in the object, writes the id on the destination cell and
    [null] on the cell that was left, and changes no other cell and no
    registry entry. *)
Theorem subStep_moves (pixel : ref) (w : World) (p : Pixel.t) (r : sample)
    (t : tape) (dir : Z * Z) (nx ny : Z) (c : option cell) :
  healthy w -> heap w !! pixel = Some p ->
  map_get (pixels w) pixel = Some pixel ->
  choose directions r = Ret dir ->
  nx = clamp (Pixel.x p + dir.1) 0 (gridSize - 1) ->
  ny = clamp (Pixel.y p + dir.2) 0 (gridSize - 1) ->
  ~ (nx = Pixel.x p /\ ny = Pixel.y p) ->
  board_get (board w) nx ny = Ret c -> truthy c = false ->
  exists w',
    subStep pixel w (r :: t) = Ret (Continue, w', t)
    /\ healthy w'
    /\ pixels w' = pixels w
    /\ heap w' = <[pixel := Pixel.set_pos p nx ny]> (heap w)
    /\ board_get (board w') nx ny = Ret (Some (Id (Pixel.id p)))
    /\ board_get (board w') (Pixel.x p) (Pixel.y p) = Ret (Some Null)
    /\ (forall x y, ~ (nx = x /\ ny = y) ->
          ~ (Pixel.x p = x /\ Pixel.y p = y) ->
          board_get (board w') x y = board_get (board w) x y).
Proof.
  intros Hh Hp Hreg Hdir Hnx Hny Hne Hget Hc.
  destruct (healthy_moveTo pixel nx ny w p Hh Hp Hreg)
    as (w' & Hmove & Hh' & Hpx & Hheap & Hnew & Hframe & Hold).
  { subst nx. apply clamp_on_board. }
  { subst ny. apply clamp_on_board. }
  exists w'. split.
  - unfold subStep. cbn [Math_random obind]. rewrite Hdir. cbn [obind].
    rewrite (deref_Some _ _ _ Hp). cbn [obind]. rewrite <- Hnx, <- Hny.
    destruct (_ && _) eqn:Hsame.
    { apply andb_true_iff in Hsame as [Hx Hy]. exfalso. apply Hne. lia. }
    rewrite Hget. cbn [obind]. rewrite Hc. cbn [negb].
    rewrite Hmove. reflexivity.
  - auto 10.
Qed.

Lemma subStep_moves_witness :
  healthy arena
  /\ heap arena !! 1%nat = Some arena_strong
  /\ map_get (pixels arena) 1 = Some 1%nat
  /\ choose directions quarter = Ret (0, 1)
  /\ 0 = clamp (Pixel.x arena_strong + (0, 1).1) 0 (gridSize - 1)
  /\ 1 = clamp (Pixel.y arena_strong + (0, 1).2) 0 (gridSize - 1)
  /\ ~ (0 = Pixel.x arena_strong /\ 1 = Pixel.y arena_strong)
  /\ board_get (board arena) 0 1 = Ret (Some Null)
  /\ truthy (Some Null) = false
  /\ exists w',
       subStep 1 arena [quarter] = Ret (Continue, w', [])
       /\ healthy w'
       /\ pixels w' = pixels arena
       /\ heap w' = <[1%nat := Pixel.set_pos arena_strong 0 1]> (heap arena)
       /\ board_get (board w') 0 1 = Ret (Some (Id (Pixel.id arena_strong)))
       /\ board_get (board w') (Pixel.x arena_strong) (Pixel.y arena_strong)
          = Ret (Some Null)
       /\ (forall x y, ~ (0 = x /\ 1 = y) ->
             ~ (Pixel.x arena_strong = x /\ Pixel.y arena_strong = y) ->
             board_get (board w') x y = board_get (board arena) x y).
Proof.
  assert (Hp : heap arena !! 1%nat = Some arena_strong) by by_vm.
  assert (Hreg : map_get (pixels arena) 1 = Some 1%nat) by by_vm.
  assert (Hdir : choose directions quarter = Ret (0, 1)) by by_vm.
  assert (Hnx : 0 = clamp (Pixel.x arena_strong + (0, 1).1) 0 (gridSize - 1))
    by by_vm.
  assert (Hny : 1 = clamp (Pixel.y arena_strong + (0, 1).2) 0 (gridSize - 1))
    by by_vm.
  assert (Hne : ~ (0 = Pixel.x arena_strong /\ 1 = Pixel.y arena_strong))
    by (intros [_ H]; discriminate H).
  assert (Hget : board_get (board arena) 0 1 = Ret (Some Null)) by by_vm.
  assert (Hc : truthy (Some Null) = false) by reflexivity.
  split; [exact healthy_arena|]. repeat (split; [assumption|]).
  exact (subStep_moves 1 arena arena_strong quarter [] (0, 1) 0 1 (Some Null)
           healthy_arena Hp Hreg Hdir Hnx Hny Hne Hget Hc).
Defined.

(** *** What a tick never touches *)

Lemma persists_refl (h : list Pixel.t) : persists h h.
Proof. intros r p Hp. exists p. split; [exact Hp|apply same_core_refl]. Qed.

Lemma persists_trans (h1 h2 h3 : list Pixel.t) :
  persists h1 h2 -> persists h2 h3 -> persists h1 h3.
Proof.
  intros H12 H23 r p Hp.
  destruct (H12 r p Hp) as (q & Hq & Hpq).
  destruct (H23 r q Hq) as (s & Hs & Hqs).
  exists s. split; [exact Hs|]. eapply same_core_trans; eassumption.
Qed.

Lemma persists_store (h : list Pixel.t) (r : ref) (p p' : Pixel.t) :
  h !! r = Some p -> same_core p p' -> persists h (<[r := p']> h).
Proof.
  intros Hl Hsame k q Hq. destruct (decide (r = k)) as [<-|Hne].
  - exists p'. split.
    + apply list_lookup_insert_eq. eapply lookup_lt_Some, Hl.
    + rewrite Hl in Hq. injection Hq as <-. exact Hsame.
  - exists q. split; [|apply same_core_refl].
    rewrite list_lookup_insert_ne by exact Hne. exact Hq.
Qed.

Lemma persists_app (h more : list Pixel.t) : persists h (h ++ more).
Proof.
  intros r p Hp. exists p. split; [|apply same_core_refl].
  apply lookup_app_l_Some, Hp.
Qed.

Lemma persists_length (h h' : list Pixel.t) :
  persists h h' -> (length h <= length h')%nat.
Proof.
  intros H. destruct (decide (length h <= length h')%nat) as [|Hgt]; [assumption|].
  destruct (lookup_lt_is_Some_2 h (length h')) as [p Hp]; [lia|].
  destruct (H _ _ Hp) as (p' & Hp' & _).
  apply lookup_lt_Some in Hp'. lia.
Qed.

Lemma persists_newPixel x y g pop w child w1 :
  newPixel x y g pop w = Ret (child, w1) -> persists (heap w) (heap w1).
Proof.
  intros H. destruct (newPixel_Ret _ _ _ _ _ _ _ H) as (code & _ & ->).
  cbn [heap]. apply persists_app.
Qed.

Lemma persists_moveTo pixel nx ny w w' :
  moveTo pixel nx ny w = Ret w' -> persists (heap w) (heap w').
Proof.
  intros H. unfold moveTo in H.
  destruct (deref (heap w) pixel) as [p|e] eqn:Hp; [|discriminate]. cbn [obind] in H.
  unfold deref in Hp. destruct (heap w !! pixel) as [p0|] eqn:Hl; [|discriminate].
  injection Hp as ->.
  destruct (board_set (board w) _ _ Null) as [b1|e]; [|discriminate].
  cbn [obind] in H. rewrite (store_Some _ _ _ _ Hl) in H. cbn [obind] in H.
  destruct (board_set b1 _ _ _) as [b2|e]; [|discriminate].
  cbn [obind] in H. injection H as <-. cbn [heap with_heap with_board].
  eapply persists_store; [exact Hl|]. repeat split.
Qed.

Lemma persists_combatLoop (attacker defender : ref) (fuel : nat) :
  forall turn opponent h h' strikes,
  combatLoop fuel attacker defender turn opponent h = Ret (h', strikes) ->
  persists h h'.
Proof.
  induction fuel as [|fuel IH]; intros turn opponent h h' strikes H;
    [discriminate|].
  cbn [combatLoop] in H.
  destruct (deref h attacker) as [pa|e]; [|discriminate]. cbn [obind] in H.
  destruct (deref h defender) as [pd|e]; [|discriminate]. cbn [obind] in H.
  destruct (_ && _); [|injection H as <- _; apply persists_refl].
  destruct (deref h turn) as [pt|e]; [|discriminate]. cbn [obind] in H.
  destruct (deref h opponent) as [po|e] eqn:Hpo; [|discriminate]. cbn [obind] in H.
  unfold deref in Hpo. destruct (h !! opponent) as [po0|] eqn:Hl; [|discriminate].
  injection Hpo as ->. rewrite (store_Some _ _ _ _ Hl) in H. cbn [obind] in H.
  assert (Hstep : persists h
            (<[opponent := Pixel.set_hp po
                 (Pixel.hp po - Z.max 1 (Genes.attack (Pixel.genes pt)
                                         - Genes.defense (Pixel.genes po)))]> h)).
  { eapply persists_store; [exact Hl|]. repeat split. }
  destruct (_ <=? 0); [injection H as <- _; exact Hstep|].
  destruct (combatLoop fuel _ _ _ _ _) as [[h'' later]|e] eqn:Hrec; [|discriminate].
  cbn [obind] in H. injection H as <- _.
  eapply persists_trans; [exact Hstep|]. eapply IH, Hrec.
Qed.

Lemma persists_duel attacker defender h h' strikes :
  duel attacker defender h = Ret (h', strikes) -> persists h h'.
Proof.
  unfold duel. intros H.
  destruct (deref h attacker) as [pa|e]; [|discriminate]. cbn [obind] in H.
  destruct (deref h defender) as [pd|e]; [|discriminate]. cbn [obind] in H.
  eapply persists_combatLoop, H.
Qed.

Lemma persists_tryOffsets parent : forall cands w t w' t',
  tryOffsets cands parent w t = Ret (w', t') -> persists (heap w) (heap w').
Proof.
  induction cands as [|[dx dy] cands IH]; intros w t w' t' H.
  - injection H as <- _. apply persists_refl.
  - cbn [tryOffsets] in H.
    destruct (deref (heap w) parent) as [p|e]; [|discriminate]. cbn [obind] in H.
    destruct (_ || _); [eapply IH; eassumption|].
    destruct (board_get _ _ _) as [c|e]; [|discriminate]. cbn [obind] in H.
    destruct (truthy c); [eapply IH; eassumption|].
    destruct (mutateGenes _ _) as [[g t1]|e]; [|discriminate]. cbn [obind] in H.
    destruct (newPixel _ _ _ _ _) as [[child w1]|e] eqn:Hnew; [|discriminate].
    cbn [obind] in H.
    destruct (placePixel child w1) as [[ok w2]|e] eqn:Hplace; [|discriminate].
    cbn [obind] in H. injection H as <- _.
    rewrite (heap_placePixel _ _ _ _ Hplace).
    eapply persists_newPixel, Hnew.
Qed.

Lemma persists_createOffspring parent w t w' t' :
  createOffspring parent w t = Ret (w', t') -> persists (heap w) (heap w').
Proof.
  unfold createOffspring. intros H.
  destruct (shuffle offsets t) as [[shuffled t1]|e]; [|discriminate].
  cbn [obind] in H. eapply persists_tryOffsets, H.
Qed.

Lemma persists_resolveCombat attacker defender w t winner w' t' :
  resolveCombat attacker defender w t = Ret (winner, w', t') ->
  persists (heap w) (heap w').
Proof.
  unfold resolveCombat. intros H.
  destruct (duel _ _ _) as [[h strikes]|e] eqn:Hduel; [|discriminate].
  cbn [obind] in H.
  pose proof (persists_duel _ _ _ _ _ Hduel) as H1.
  destruct (deref _ attacker) as [pa|e]; [|discriminate]. cbn [obind] in H.
  destruct (logCombat _ _ _) as [w2|e] eqn:Hlog; [|discriminate]. cbn [obind] in H.
  pose proof (heap_logCombat _ _ _ _ Hlog) as H2. cbn [heap with_heap] in H2.
  destruct (deref (heap w2) _) as [pl|e]; [|discriminate]. cbn [obind] in H.
  match type of H with
  | obind ?m _ = _ => destruct m as [w3|e] eqn:Hrem; [|discriminate]
  end.
  cbn [obind] in H.
  assert (H3 : heap w3 = heap w2).
  { destruct (Pixel.hp pl <=? 0).
    - eapply heap_removePixel, Hrem.
    - injection Hrem as <-. reflexivity. }
  destruct (deref (heap w3) _) as [pw|e] eqn:Hpw; [|discriminate]. cbn [obind] in H.
  unfold deref in Hpw.
  destruct (heap w3 !! _) as [pw0|] eqn:Hl; [|discriminate]. injection Hpw as ->.
  rewrite (store_Some _ _ _ _ Hl) in H. cbn [obind] in H.
  destruct (createOffspring _ _ _) as [[w5 t5]|e] eqn:Hspawn; [|discriminate].
  cbn [obind] in H. injection H as _ <- _.
  apply persists_createOffspring in Hspawn. cbn [heap with_heap] in Hspawn.
  eapply persists_trans; [exact H1|]. rewrite <- H2, <- H3.
  eapply persists_trans; [|exact Hspawn].
  eapply persists_store; [exact Hl|]. repeat split.
Qed.

Lemma persists_subStep pixel w t f w' t' :
  subStep pixel w t = Ret (f, w', t') -> persists (heap w) (heap w').
Proof.
  unfold subStep. intros H.
  destruct (Math_random t) as [[r t1]|e]; [|discriminate]. cbn [obind] in H.
  destruct (choose directions r) as [dir|e]; [|discriminate]. cbn [obind] in H.
  destruct (deref (heap w) pixel) as [p|e]; [|discriminate]. cbn [obind] in H.
  destruct (_ && _); [injection H as _ <- _; apply persists_refl|].
  destruct (board_get _ _ _) as [occupantId|e]; [|discriminate]. cbn [obind] in H.
  destruct (negb (truthy occupantId)).
  - destruct (moveTo _ _ _ _) as [w1|e] eqn:Hmove; [|discriminate].
    cbn [obind] in H. injection H as _ <- _. eapply persists_moveTo, Hmove.
  - destruct occupantId as [[|occupant]|];
      try (injection H as _ <- _; apply persists_refl).
    destruct (negb _); [|injection H as _ <- _; apply persists_refl].
    destruct (map_get _ _) as [opponent|];
      [|injection H as _ <- _; apply persists_refl].
    destruct (deref (heap w) opponent) as [po|e]; [|discriminate]. cbn [obind] in H.
    destruct (String.eqb _ _); [injection H as _ <- _; apply persists_refl|].
    destruct (resolveCombat _ _ _ _) as [[[winner w1] t2]|e] eqn:Hres; [|discriminate].
    cbn [obind] in H.
    pose proof (persists_resolveCombat _ _ _ _ _ _ _ Hres) as H1.
    destruct (deref (heap w1) winner) as [pw|e]; [|discriminate]. cbn [obind] in H.
    destruct (deref (heap w1) pixel) as [p1|e]; [|discriminate]. cbn [obind] in H.
    destruct (_ =? _)%nat; [|injection H as _ <- _; exact H1].
    destruct (moveTo _ _ _ _) as [w2|e] eqn:Hmove; [|discriminate].
    cbn [obind] in H. injection H as _ <- _.
    eapply persists_trans; [exact H1|]. eapply persists_moveTo, Hmove.
Qed.

Lemma persists_subSteps pixel (n : nat) : forall w t w' t',
  subSteps n pixel w t = Ret (w', t') -> persists (heap w) (heap w').
Proof.
  induction n as [|n IH]; intros w t w' t' H.
  - injection H as <- _. apply persists_refl.
  - cbn [subSteps] in H.
    destruct (subStep pixel w t) as [[[f w1] t1]|e] eqn:Hstep; [|discriminate].
    cbn [obind] in H. apply persists_subStep in Hstep.
    destruct f.
    + eapply persists_trans; [exact Hstep|]. eapply IH, H.
    + injection H as <- _. exact Hstep.
Qed.

Lemma persists_pixelTurn pixel w t w' t' :
  pixelTurn pixel w t = Ret (w', t') -> persists (heap w) (heap w').
Proof.
  unfold pixelTurn. intros H.
  destruct (deref (heap w) pixel) as [p|e]; [|discriminate]. cbn [obind] in H.
  destruct (negb _); [injection H as <- _; apply persists_refl|].
  eapply persists_subSteps, H.
Qed.

Lemma persists_pixelTurns : forall currentPixels w t w' t',
  pixelTurns currentPixels w t = Ret (w', t') -> persists (heap w) (heap w').
Proof.
  induction currentPixels as [|pixel rest IH]; intros w t w' t' H.
  - injection H as <- _. apply persists_refl.
  - cbn [pixelTurns] in H.
    destruct (pixelTurn pixel w t) as [[w1 t1]|e] eqn:Hturn; [|discriminate].
    cbn [obind] in H. apply persists_pixelTurn in Hturn.
    eapply persists_trans; [exact Hturn|]. eapply IH, H.
Qed.

(** X19. A tick deletes no object and rewrites only positions and hp:
    every pixel object that exists before [stepSimulation] still exists
    after it under the same reference, with the same id, genes, population
    id, maxHp and gene code.  In particular the genes of a pixel never
    change once it has been constructed; mutation only affects the copy
    given to a child. *)
Theorem stepSimulation_keeps_identity (w w' : World) (t t' : tape) :
  stepSimulation w t = Ret (w', t') ->
  persists (heap w) (heap w') /\ (length (heap w) <= length (heap w'))%nat.
Proof.
  unfold stepSimulation. intros H.
  destruct (shuffle _ t) as [[currentPixels t1]|e]; [|discriminate].
  cbn [obind] in H. apply persists_pixelTurns in H.
  split; [exact H|]. apply persists_length, H.
Qed.

Lemma stepSimulation_keeps_identity_witness :
  stepSimulation arena arena_tape = Ret (arena_after, [])
  /\ persists (heap arena) (heap arena_after)
  /\ (length (heap arena) <= length (heap arena_after))%nat.
Proof.
  assert (Hrun : stepSimulation arena arena_tape = Ret (arena_after, []))
    by by_run.
  split; [exact Hrun|].
  exact (stepSimulation_keeps_identity arena arena_after arena_tape [] Hrun).
Defined.

(** *** Encounters *)

Lemma occupant_cell (w : World) (pixel : ref) (p : Pixel.t) (x y : Z) (k : nat) :
  healthy w -> heap w !! pixel = Some p ->
  ~ (x = Pixel.x p /\ y = Pixel.y p) ->
  board_get (board w) x y = Ret (Some (Id k)) ->
  k <> Pixel.id p /\ map_get (pixels w) k = Some k.
Proof.
  intros Hh Hp Hne Hget.
  destruct Hh as (Ht & _ & _ & _ & _ & Hcells).
  destruct Ht as (_ & Hid & Hat).
  split; [|exact (Hcells _ _ _ Hget)].
  destruct (Hat _ _ _ Hget) as (q & Hq & Hx & Hy).
  rewrite (Hid _ _ Hp). intros E. rewrite E, Hp in Hq. injection Hq as <-.
  apply Hne. auto.
Qed.

(** X20. In a healthy world the cell a pixel steps towards never leads to
    the two guards of [stepSimulation] that skip an encounter: when the
    content of a cell other than the mover's own is truthy, it is the id of
    another pixel, that pixel is in the registry, and its object stands on
    that very cell with full hp.  So [occupantId !== pixel.id] holds and
    [pixels.get(occupantId)] is defined. *)
Theorem occupant_is_registered_other (w : World) (pixel : ref) (p : Pixel.t)
    (x y : Z) (c : option cell) :
  healthy w -> heap w !! pixel = Some p ->
  ~ (x = Pixel.x p /\ y = Pixel.y p) ->
  board_get (board w) x y = Ret c -> truthy c = true ->
  exists (k : nat) (po : Pixel.t),
    c = Some (Id k) /\ k <> Pixel.id p /\ k <> pixel
    /\ map_get (pixels w) k = Some k
    /\ heap w !! k = Some po
    /\ Pixel.id po = k /\ Pixel.x po = x /\ Pixel.y po = y
    /\ Pixel.hp po = Pixel.maxHp po.
Proof.
  intros Hh Hp Hne Hget Hc.
  destruct Hh as (Ht & _ & _ & Hreg & _ & Hcells).
  destruct Ht as (_ & Hid & Hat).
  destruct c as [[|[|k]]|]; try discriminate.
  destruct (Hat _ _ _ Hget) as (q & Hq & Hx & Hy).
  destruct (Hreg _ _ (Hcells _ _ _ Hget)) as (_ & po & Hpo & Hhp).
  rewrite Hq in Hpo. injection Hpo as <-.
  assert (Hother : S k <> pixel).
  { intros E. rewrite E, Hp in Hq. injection Hq as <-. apply Hne. auto. }
  exists (S k), q. rewrite (Hid _ _ Hp).
  split; [reflexivity|]. split; [exact Hother|]. split; [exact Hother|].
  split; [exact (Hcells _ _ _ Hget)|]. split; [exact Hq|].
  split; [exact (Hid _ _ Hq)|]. auto.
Qed.

Lemma occupant_is_registered_other_witness :
  healthy arena
  /\ heap arena !! 1%nat = Some arena_strong
  /\ ~ (1 = Pixel.x arena_strong /\ 0 = Pixel.y arena_strong)
  /\ board_get (board arena) 1 0 = Ret (Some (Id 2))
  /\ truthy (Some (Id 2)) = true
  /\ exists (k : nat) (po : Pixel.t),
       Some (Id 2) = Some (Id k) /\ k <> Pixel.id arena_strong /\ k <> 1%nat
       /\ map_get (pixels arena) k = Some k
       /\ heap arena !! k = Some po
       /\ Pixel.id po = k /\ Pixel.x po = 1 /\ Pixel.y po = 0
       /\ Pixel.hp po = Pixel.maxHp po.
Proof.
  assert (Hp : heap arena !! 1%nat = Some arena_strong) by by_vm.
  assert (Hne : ~ (1 = Pixel.x arena_strong /\ 0 = Pixel.y arena_strong))
    by (intros [H _]; discriminate H).
  assert (Hget : board_get (board arena) 1 0 = Ret (Some (Id 2))) by by_vm.
  assert (Hc : truthy (Some (Id 2)) = true) by reflexivity.
  split; [exact healthy_arena|]. repeat (split; [assumption|]).
  exact (occupant_is_registered_other arena 1 arena_strong 1 0 (Some (Id 2))
           healthy_arena Hp Hne Hget Hc).
Defined.

Lemma subStep_combat_breaks (pixel : ref) (w : World) (r : sample) (t : tape)
    (p po : Pixel.t) (dir : Z * Z) (k : nat) (f : flow) (w' : World)
    (t' : tape) :
  heap w !! pixel = Some p -> choose directions r = Ret dir ->
  ~ (clamp (Pixel.x p + dir.1) 0 (gridSize - 1) = Pixel.x p
     /\ clamp (Pixel.y p + dir.2) 0 (gridSize - 1) = Pixel.y p) ->
  board_get (board w) (clamp (Pixel.x p + dir.1) 0 (gridSize - 1))
    (clamp (Pixel.y p + dir.2) 0 (gridSize - 1)) = Ret (Some (Id (S k))) ->
  S k <> Pixel.id p ->
  map_get (pixels w) (S k) = Some (S k) -> heap w !! S k = Some po ->
  Pixel.geneCode p <> Pixel.geneCode po ->
  subStep pixel w (r :: t) = Ret (f, w', t') -> f = Break.
Proof.
  intros Hp Hdir Hne Hget Hother Hreg Hpo Hcode H.
  unfold subStep in H. cbn [Math_random obind] in H. rewrite Hdir in H.
  cbn [obind] in H. rewrite (deref_Some _ _ _ Hp) in H. cbn [obind] in H.
  destruct (_ && _) eqn:Hsame.
  { apply andb_true_iff in Hsame as [Hx Hy]. exfalso. apply Hne. lia. }
  rewrite Hget in H. cbn [obind truthy negb] in H.
  destruct (Nat.eqb_spec (S k) (Pixel.id p)) as [|_]; [contradiction|].
  cbn [negb] in H. rewrite Hreg in H.
  rewrite (deref_Some _ _ _ Hpo) in H. cbn [obind] in H.
  destruct (String.eqb_spec (Pixel.geneCode p) (Pixel.geneCode po))
    as [|_]; [contradiction|].
  destruct (resolveCombat _ _ _ _) as [[[winner w1] t1]|e]; [|discriminate].
  cbn [obind] in H.
  destruct (deref (heap w1) winner) as [pw|e]; [|discriminate]. cbn [obind] in H.
  destruct (deref (heap w1) pixel) as [p1|e]; [|discriminate]. cbn [obind] in H.
  destruct (_ =? _)%nat.
  - destruct (moveTo _ _ _ _) as [w2|e]; [|discriminate]. cbn [obind] in H.
    injection H as <- _ _. reflexivity.
  - injection H as <- _ _. reflexivity.
Qed.

(** X21. A fight ends the turn.  In a healthy, coded world, a sub-step of
    a registered pixel towards a cell whose content is truthy, that is the
    id, other than 0, of a pixel, raises no error when that pixel has
    another gene code: it either stops for lack of samples or returns with
    the signal to leave the loop over the remaining sub-steps, in a world
    that is healthy and coded again.  (A cell that holds the id 0 reads as
    falsy and leads to no fight, whatever the gene codes.) *)
Theorem subStep_combat_ends_turn (pixel : ref) (w : World) (r : sample)
    (t : tape) (p po : Pixel.t) (dir : Z * Z) (nx ny : Z) (k : nat) :
  healthy w -> coded w -> heap w !! pixel = Some p ->
  map_get (pixels w) pixel = Some pixel ->
  choose directions r = Ret dir ->
  nx = clamp (Pixel.x p + dir.1) 0 (gridSize - 1) ->
  ny = clamp (Pixel.y p + dir.2) 0 (gridSize - 1) ->
  ~ (nx = Pixel.x p /\ ny = Pixel.y p) ->
  board_get (board w) nx ny = Ret (Some (Id (S k))) ->
  heap w !! S k = Some po ->
  Pixel.geneCode p <> Pixel.geneCode po ->
  safe (fun fwt : flow * World * tape =>
          fwt.1.1 = Break /\ healthy fwt.1.2 /\ coded fwt.1.2)
       (subStep pixel w (r :: t)).
Proof.
  intros Hh Hcd Hp Hregd Hdir -> -> Hne Hget Hpo Hcode.
  destruct (occupant_cell w pixel p _ _ (S k) Hh Hp Hne Hget) as [Hother Hreg].
  pose proof (healthy_subStep pixel w (r :: t) p Hh Hcd Hp Hregd) as Hsafe.
  destruct (subStep pixel w (r :: t)) as [[[f w'] t']|e] eqn:Hrun;
    [|exact Hsafe].
  destruct Hsafe as (Hh' & _). cbn [safe fst snd] in *.
  split; [|split; [exact Hh'|eapply coded_subStep; eassumption]].
  eapply (subStep_combat_breaks pixel w r t p po dir k); eassumption.
Qed.

Lemma subStep_combat_ends_turn_witness :
  healthy arena /\ coded arena
  /\ heap arena !! 1%nat = Some arena_strong
  /\ map_get (pixels arena) 1 = Some 1%nat
  /\ choose directions zero = Ret (1, 0)
  /\ 1 = clamp (Pixel.x arena_strong + (1, 0).1) 0 (gridSize - 1)
  /\ 0 = clamp (Pixel.y arena_strong + (1, 0).2) 0 (gridSize - 1)
  /\ ~ (1 = Pixel.x arena_strong /\ 0 = Pixel.y arena_strong)
  /\ board_get (board arena) 1 0 = Ret (Some (Id 2))
  /\ heap arena !! 2%nat = Some arena_weak
  /\ Pixel.geneCode arena_strong <> Pixel.geneCode arena_weak
  /\ safe (fun fwt : flow * World * tape =>
             fwt.1.1 = Break /\ healthy fwt.1.2 /\ coded fwt.1.2)
          (subStep 1 arena (zero :: combat_tape)).
Proof.
  assert (Hp : heap arena !! 1%nat = Some arena_strong) by by_vm.
  assert (Hreg : map_get (pixels arena) 1 = Some 1%nat) by by_vm.
  assert (Hdir : choose directions zero = Ret (1, 0)) by by_vm.
  assert (Hnx : 1 = clamp (Pixel.x arena_strong + (1, 0).1) 0 (gridSize - 1))
    by by_vm.
  assert (Hny : 0 = clamp (Pixel.y arena_strong + (1, 0).2) 0 (gridSize - 1))
    by by_vm.
  assert (Hne : ~ (1 = Pixel.x arena_strong /\ 0 = Pixel.y arena_strong))
    by (intros [H _]; discriminate H).
  assert (Hget : board_get (board arena) 1 0 = Ret (Some (Id 2))) by by_vm.
  assert (Hpo : heap arena !! 2%nat = Some arena_weak) by by_vm.
  assert (Hcode : Pixel.geneCode arena_strong <> Pixel.geneCode arena_weak)
    by (intros H; discriminate H).
  split; [exact healthy_arena|]. split; [exact coded_arena|].
  split; [exact Hp|]. split; [exact Hreg|]. split; [exact Hdir|].
  split; [exact Hnx|]. split; [exact Hny|]. split; [exact Hne|].
  split; [exact Hget|]. split; [exact Hpo|]. split; [exact Hcode|].
  exact (subStep_combat_ends_turn 1 arena zero combat_tape arena_strong
           arena_weak (1, 0) 1 0 1 healthy_arena coded_arena Hp Hreg Hdir Hnx
           Hny Hne Hget Hpo Hcode).
Defined.

(** *** Seeding with enough samples *)

Lemma Math_random_drop (k : nat) (t : tape) :
  (k < length t)%nat ->
  exists r, Math_random (drop k t) = Ret (r, drop (S k) t).
Proof.
  intros Hk. destruct (lookup_lt_is_Some_2 t k Hk) as [r Hr].
  exists r. rewrite (drop_S _ _ _ Hr). reflexivity.
Qed.

Lemma seedPopulation_returns g baseX baseY pop (n : nat) : forall w t,
  healthy w -> Genes.nonneg g -> Genes.total g < arrayLimit ->
  (2 * n <= length t)%nat ->
  exists w', seedPopulation n g baseX baseY pop w t = Ret (w', drop (2 * n) t)
             /\ healthy w'
             /\ pixelIdCounter w' = (pixelIdCounter w + n)%nat.
Proof.
  induction n as [|n IH]; intros w t Hh Hg Hsmall Hlen.
  - exists w. split; [reflexivity|]. split; [exact Hh|lia].
  - destruct t as [|r1 [|r2 t]]; cbn [length] in Hlen; try lia.
    cbn [seedPopulation Math_random obind].
    destruct (healthy_seedPixel
                (clamp (baseX + (Z.of_nat (floorMul r1 5) - 2)) 0 (gridSize - 1))
                (clamp (baseY + (Z.of_nat (floorMul r2 5) - 2)) 0 (gridSize - 1))
                g pop w Hh Hg Hsmall (clamp_on_board _) (clamp_on_board _))
      as (w1 & -> & Hh1 & Hc1).
    cbn [obind].
    destruct (IH w1 t Hh1 Hg Hsmall) as (w' & E & Hh' & Hc'); [lia|].
    exists w'. rewrite E. replace (2 * S n)%nat with (S (S (2 * n))) by lia.
    split; [reflexivity|]. split; [exact Hh'|lia].
Qed.

Lemma randomGenes_returns (n : nat) (t : tape) :
  (n <= length t)%nat ->
  exists g, randomGenes (Z.of_nat n) t = Ret (g, drop n t) /\ Genes.nonneg g.
Proof.
  intros Hlen. unfold randomGenes. rewrite Nat2Z.id.
  destruct (distribute_Ret n (Genes.mk 0 0 0 0) t Hlen) as (g & -> & _ & Hg).
  { unfold Genes.nonneg. cbn. lia. }
  cbn [obind]. eexists. split; [reflexivity|].
  destruct (Genes.hp g =? 0); [|exact Hg].
  destruct g as [a d s h]. unfold Genes.nonneg in *. cbn in *. lia.
Qed.

Lemma seedPopulations_returns (n : nat) : forall pop w t,
  healthy w ->
  (n * (10 + 2 * pixelsPerPopulation) <= length t)%nat ->
  exists w',
    seedPopulations n pop w t
    = Ret (w', drop (n * (10 + 2 * pixelsPerPopulation)) t)
    /\ healthy w'
    /\ pixelIdCounter w' = (pixelIdCounter w + n * pixelsPerPopulation)%nat.
Proof.
  induction n as [|n IH]; intros pop w t Hh Hlen.
  - exists w. split; [reflexivity|]. split; [exact Hh|lia].
  - cbn [seedPopulations].
    destruct (randomGenes_returns 8 t) as (g & Eg & Hg); [lia|].
    change (Z.of_nat 8) with genesPerPixel in Eg.
    assert (Hfits : Genes.total g < arrayLimit).
    { apply randomGenes_small in Eg. unfold genesPerPixel, arrayLimit in *. lia. }
    rewrite Eg. cbn [obind].
    destruct (Math_random_drop 8 t) as (r1 & ->); [lia|]. cbn [obind].
    destruct (Math_random_drop 9 t) as (r2 & ->); [lia|]. cbn [obind].
    destruct (seedPopulation_returns g
                (Z.of_nat (floorMul r1 (Z.to_nat gridSize)))
                (Z.of_nat (floorMul r2 (Z.to_nat gridSize)))
                pop pixelsPerPopulation w (drop 10 t) Hh Hg Hfits)
      as (w1 & -> & Hh1 & Hc1).
    { rewrite length_drop. lia. }
    cbn [obind]. rewrite drop_drop.
    destruct (IH (pop + 1) w1 (drop (10 + 2 * pixelsPerPopulation) t) Hh1)
      as (w' & -> & Hh' & Hc').
    { rewrite length_drop. lia. }
    exists w'. rewrite drop_drop.
    replace (10 + 2 * pixelsPerPopulation + n * (10 + 2 * pixelsPerPopulation))%nat
      with (S n * (10 + 2 * pixelsPerPopulation))%nat by lia.
    split; [reflexivity|]. split; [exact Hh'|lia].
Qed.

(** X22. With 1260 samples or more, [initialisePopulations] returns: it
    draws exactly the first 1260 samples (8 for the genes and 2 for the
    base of each of the 6 populations, 2 for each of the 600 pixels),
    constructs 600 objects and leaves a healthy, coded world. *)
Theorem initialisePopulations_returns (t : tape) :
  (1260 <= length t)%nat ->
  exists w',
    initialisePopulations initial_world t = Ret (w', drop 1260 t)
    /\ healthy w' /\ coded w' /\ pixelIdCounter w' = 600%nat
    /\ length (heap w') = 600%nat.
Proof.
  intros Hlen.
  destruct (seedPopulations_returns populations 0 initial_world t healthy_initial)
    as (w' & E & Hh & Hc).
  { change (populations * (10 + 2 * pixelsPerPopulation))%nat with 1260%nat.
    exact Hlen. }
  change (populations * (10 + 2 * pixelsPerPopulation))%nat with 1260%nat in E.
  change (pixelIdCounter initial_world + populations * pixelsPerPopulation)%nat
    with 600%nat in Hc.
  exists w'. split; [exact E|]. split; [exact Hh|].
  split; [exact (coded_initialisePopulations _ _ _ E)|]. split; [exact Hc|].
  destruct Hh as ((Hcount & _) & _). rewrite <- Hcount. exact Hc.
Qed.

Lemma initialisePopulations_returns_witness :
  (1260 <= length (repeat half 1260))%nat
  /\ exists w',
       initialisePopulations initial_world (repeat half 1260)
       = Ret (w', drop 1260 (repeat half 1260))
       /\ healthy w' /\ coded w' /\ pixelIdCounter w' = 600%nat
       /\ length (heap w') = 600%nat.
Proof.
  assert (Hlen : (1260 <= length (repeat half 1260))%nat)
    by (rewrite repeat_length; lia).
  split; [exact Hlen|].
  exact (initialisePopulations_returns (repeat half 1260) Hlen).
Defined.
